(** * Sort-background-colors Sketch plugin: a shallow embedding of [plugin.js]

    The plugin sorts layers by the hue of their background colour and lays
    them out in rows inside an artboard.  JavaScript numbers are IEEE 754
    binary64 values, so they are embedded as Rocq's primitive [float]s, whose
    operations are the processor's binary64 operations with rounding to
    nearest, ties to even.  The scene graph of the host application is a heap
    of layer objects addressed by references; a frame belongs to its layer and
    is mutated in place. *)

From Stdlib Require Import ZArith Bool List String Floats Lia Reals Lra Sorted.
From stdpp Require Import gmap strings list.

Set Warnings "-inexact-float".
Local Open Scope float_scope.

(** ** JavaScript numbers *)

Module Number.

(** [parseFloat(x)] applied to a number: the argument is converted to its
    shortest round-tripping decimal string and parsed back.  Every value
    comes back unchanged except the negative zero, printed as ["0"]. *)
Definition parseFloat (x : float) : float :=
  if is_zero x then 0 else x.

(** [Math.max]: [NaN] as soon as an argument is [NaN]; the running maximum
    starts at [-Infinity]; [+0] is larger than [-0]. *)
Definition max2 (highest number : float) : float :=
  if is_zero number && is_zero highest && get_sign highest && negb (get_sign number)
  then number
  else if highest <? number then number else highest.

Definition Math_max (vs : list float) : float :=
  if existsb is_nan vs then nan else fold_left max2 vs neg_infinity.

(** [Math.min]: dual, starting at [+Infinity]; [-0] is smaller than [+0]. *)
Definition min2 (lowest number : float) : float :=
  if is_zero number && is_zero lowest && negb (get_sign lowest) && get_sign number
  then number
  else if number <? lowest then number else lowest.

Definition Math_min (vs : list float) : float :=
  if existsb is_nan vs then nan else fold_left min2 vs infinity.

End Number.
Import Number.

(** ** Colour model *)

(** An [MSColor] of the host, read through [red()], [green()], [blue()]. *)
Record MSColor := mkColor { red : float; green : float; blue : float }.

(** The object literal returned by [constructLayerColor]. *)
Record LayerColor := mkLayerColor {
  chroma : float;
  hue : float;
  sat : float;
  val : float;
  luma : float;
  lc_red : float;
  lc_green : float;
  lc_blue : float
}.

(** The three arms of the hue computation, lines 180--187 of [plugin.js]. *)
Definition hueR (g b min chr : float) : float :=
  let hue := 60 * ((g - min - (b - min)) / chr) in
  if hue <? 0 then hue + 360 else hue.

Definition hueG (r b min chr : float) : float :=
  120 + 60 * ((b - min - (r - min)) / chr).

Definition hueB (r g min chr : float) : float :=
  240 + 60 * ((r - min - (g - min)) / chr).

(** Lines 160--201 of [constructLayerColor]: the part that runs once a colour
    has been read from the layer. *)
Definition hsvOf (color : MSColor) : LayerColor :=
  let r := parseFloat (red color) in
  let g := parseFloat (green color) in
  let b := parseFloat (blue color) in
  let max := Math_max [r; g; b] in
  let min := Math_min [r; g; b] in
  let chr := max - min in
  let val := max in
  let sat := if 0 <? val then chr / val else 0 in
  let hue :=
    if 0 <? val then
      if 0 <? sat then
        if r =? max then hueR g b min chr
        else if g =? max then hueG r b min chr
        else if b =? max then hueB r g min chr
        else 0
      else 0
    else 0 in
  {| chroma := chr; hue := hue; sat := sat; val := val;
     luma := 0.3 * r + 0.59 * g + 0.11 * b;
     lc_red := r; lc_green := g; lc_blue := b |}.

(** ** Exceptions *)

(** A JavaScript computation either completes with a value or throws.  The
    only exception this code can raise is the [TypeError] of a method call on
    [undefined] or [null]. *)
Inductive JSError := TypeError.

Inductive result (A : Type) : Type :=
  | Ok (a : A)
  | Throw (e : JSError).
Arguments Ok {A} a.
Arguments Throw {A} e.

#[global] Instance result_ret : MRet result := fun A a => Ok a.
#[global] Instance result_bind : MBind result := fun A B f m =>
  match m with
  | Ok a => f a
  | Throw e => Throw e
  end.

(** [Array.prototype.forEach]: the callback runs on every element in order;
    whatever the callback returns is dropped, only an exception escapes. *)
Fixpoint Array_forEach {A B : Type} (f : A -> result B) (l : list A) : result unit :=
  match l with
  | [] => Ok tt
  | x :: l' => _ ← f x; Array_forEach f l'
  end.

(** ** The host's scene graph *)

(** The classes of layers the plugin tells apart, the kind tags of the data
    model: shape, symbol instance, symbol definition and artboard (the
    container); [MSTextLayer] stands for every class it has no case for. *)
Inductive MSClass :=
  | MSShapeGroup | MSSymbolInstance | MSSymbolMaster | MSArtboardGroup | MSTextLayer.

#[global] Instance MSClass_eq_dec : EqDecision MSClass.
Proof. solve_decision. Defined.

(** [frame()]: four numeric fields, each settable on its own. *)
Record MSRect := mkRect { left : float; top : float; width : float; height : float }.

Definition set_left (v : float) (f : MSRect) : MSRect :=
  {| left := v; top := top f; width := width f; height := height f |}.
Definition set_top (v : float) (f : MSRect) : MSRect :=
  {| left := left f; top := v; width := width f; height := height f |}.
Definition set_width (v : float) (f : MSRect) : MSRect :=
  {| left := left f; top := top f; width := v; height := height f |}.
Definition set_height (v : float) (f : MSRect) : MSRect :=
  {| left := left f; top := top f; width := width f; height := v |}.

(** Layers are objects of the host, handled by reference; [layer.frame()] is
    the frame object of the layer, so a frame is known by the reference of
    its layer. *)
Definition ref := positive.

Record MSLayer := mkLayer {
  kind : MSClass;
  name : string;
  frame : MSRect;
  fills : list MSColor;          (* style().fills(), each entry by its color() *)
  layers : list ref;             (* layers(): the direct children, in order *)
  symbolMaster : option ref      (* symbolMaster() of a symbol instance *)
}.

Definition with_frame (g : MSRect -> MSRect) (l : MSLayer) : MSLayer :=
  {| kind := kind l; name := name l; frame := g (frame l); fills := fills l;
     layers := layers l; symbolMaster := symbolMaster l |}.
Definition with_layers (g : list ref -> list ref) (l : MSLayer) : MSLayer :=
  {| kind := kind l; name := name l; frame := frame l; fills := fills l;
     layers := g (layers l); symbolMaster := symbolMaster l |}.

Abbreviation heap := (gmap ref MSLayer).

(** Calling a method through a reference; a reference to nothing behaves like
    [undefined]. *)
Definition deref (h : heap) (r : ref) : result MSLayer :=
  match h !! r with
  | Some l => Ok l
  | None => Throw TypeError
  end.

(** [layer.isKindOfClass(c)]; a layer is of one kind, as in the data model. *)
Definition isKindOfClass (l : MSLayer) (c : MSClass) : bool :=
  bool_decide (kind l = c).

(** [children()] of a symbol: the layers scanned for a shape, taken to be its
    direct children in their order. *)
Definition children (l : MSLayer) : list ref := layers l.

(** ** Background extractor *)

(** [layer.style().fills()[0].color()]: nothing checks that there is a first
    fill; on an empty list [fills()[0]] is [undefined] and [.color()] throws. *)
Definition firstFillColor (l : MSLayer) : result MSColor :=
  match fills l with
  | c :: _ => Ok c
  | [] => Throw TypeError
  end.

(** The arrow function passed to [children.forEach] in both symbol cases. *)
Definition shapeChildColor (h : heap) (child : ref) : result (option MSColor) :=
  c ← deref h child;
  if isKindOfClass c MSShapeGroup
  then color ← firstFillColor c; Ok (Some color)
  else Ok None.

Definition getLayerBackground (h : heap) (layer : ref) : result (option MSColor) :=
  l ← deref h layer;
  if isKindOfClass l MSShapeGroup then
    color ← firstFillColor l; Ok (Some color)
  else if isKindOfClass l MSSymbolInstance then
    match symbolMaster l with
    | None => Throw TypeError
    | Some master =>
        m ← deref h master;
        _ ← Array_forEach (shapeChildColor h) (children m);
        Ok None
    end
  else if isKindOfClass l MSSymbolMaster then
    _ ← Array_forEach (shapeChildColor h) (children l);
    Ok None
  else Ok None.

Fixpoint getLayersWithBackgroundColor (h : heap) (ls : list ref) : result (list ref) :=
  match ls with
  | [] => Ok []
  | layer :: rest =>
      bg ← getLayerBackground h layer;
      colorLayers ← getLayersWithBackgroundColor h rest;
      Ok (match bg with
          | Some _ => layer :: colorLayers
          | None => colorLayers
          end)
  end.

(** ** Hue of a layer *)

Definition constructLayerColor (h : heap) (layer : ref) : result (option LayerColor) :=
  color ← getLayerBackground h layer;
  match color with
  | None => Ok None
  | Some c => Ok (Some (hsvOf c))
  end.

Definition getLayerHue (h : heap) (layer : ref) : result float :=
  color ← constructLayerColor h layer;
  match color with
  | None => Ok 0
  | Some c => Ok (hue c)
  end.

(** ** Hue sorter *)

(** [Array.prototype.sort] with a comparator, as a stable insertion sort: an
    element moves behind another one only when the comparator's answer is
    positive; a zero or [NaN] answer keeps the two in their order.  An array
    of fewer than two elements never calls the comparator, and an exception
    of the comparator ends the sort.  When the comparator orders the elements
    consistently, every stable sort returns the array this one returns. *)
Section Sort.
Context {A : Type} (compareFn : A -> A -> result float).

Fixpoint sort_insert (x : A) (l : list A) : result (list A) :=
  match l with
  | [] => Ok [x]
  | y :: l' =>
      v ← compareFn x y;
      if 0 <? v then (r ← sort_insert x l'; Ok (y :: r)) else Ok (x :: l)
  end.

Fixpoint Array_sort (l : list A) : result (list A) :=
  match l with
  | [] => Ok []
  | x :: l' => s ← Array_sort l'; sort_insert x s
  end.
End Sort.

Definition hueComparator (h : heap) (a b : ref) : result float :=
  ha ← getLayerHue h a;
  hb ← getLayerHue h b;
  Ok (ha - hb).

Definition sortLayersByHue (h : heap) (ls : list ref) : result (list ref) :=
  Array_sort (hueComparator h) ls.

(** ** Layout engine *)

Definition frameOf (h : heap) (r : ref) : result MSRect :=
  l ← deref h r; Ok (frame l).

(** An assignment to one field of [r.frame()]. *)
Definition setFrame (g : MSRect -> MSRect) (r : ref) (h : heap) : result heap :=
  l ← deref h r; Ok (<[r := with_frame g l]> h).

(** What the loop of lines 57--75 carries from one layer to the next: the
    heap, the running [height] and [lastFrame], the frame object of the layer
    placed before (an alias of that layer's frame, not a copy of it). *)
Record LayoutState := mkLayoutState {
  ls_heap : heap;
  ls_height : float;
  lastFrame : option ref
}.

(** The body of the callback of [layers.forEach], lines 58--74. *)
Definition positionLayer (parentFrame : ref) (st : LayoutState) (layer : ref)
  : result LayoutState :=
  let h := ls_heap st in
  match lastFrame st with
  | None =>
      h1 ← setFrame (set_top 5) layer h;
      h2 ← setFrame (set_left 5) layer h1;
      Ok (mkLayoutState h2 (ls_height st) (Some layer))
  | Some last =>
      lf ← frameOf h last;
      f ← frameOf h layer;
      pf ← frameOf h parentFrame;
      let newRow := width pf - 10 <? left lf + width lf + 5 + width f in
      if newRow then
        h1 ← setFrame (set_left 5) layer h;
        lf1 ← frameOf h1 last;
        h2 ← setFrame (set_top (top lf1 + height lf1 + 5)) layer h1;
        f2 ← frameOf h2 layer;
        Ok (mkLayoutState h2 (ls_height st + (height f2 + 5)) (Some layer))
      else
        h1 ← setFrame (set_left (left lf + width lf + 5)) layer h;
        lf1 ← frameOf h1 last;
        h2 ← setFrame (set_top (top lf1)) layer h1;
        Ok (mkLayoutState h2 (ls_height st) (Some layer))
  end.

Fixpoint layoutLoop (parentFrame : ref) (st : LayoutState) (ls : list ref)
  : result LayoutState :=
  match ls with
  | [] => Ok st
  | layer :: rest =>
      st' ← positionLayer parentFrame st layer;
      layoutLoop parentFrame st' rest
  end.

(** Lines 54--76 of [sortByHue]. *)
Definition layout (artboard : ref) (ls : list ref) (h : heap) : result heap :=
  _ ← frameOf h artboard;
  first ← match ls with
          | [] => Throw TypeError
          | l0 :: _ => frameOf h l0
          end;
  st ← layoutLoop artboard (mkLayoutState h (height first + 10) None) ls;
  setFrame (set_height (ls_height st)) artboard (ls_heap st).

(** ** The document and the host's operations on it *)

Record Document := mkDocument {
  doc_heap : heap;
  pageLayers : list ref;         (* the layers of [document.currentPage()] *)
  messages : list string         (* what [document.showMessage] has shown *)
}.

Definition showMessage (msg : string) (d : Document) : Document :=
  {| doc_heap := doc_heap d; pageLayers := pageLayers d;
     messages := messages d ++ [msg] |}.

(** [MSArtboardGroup.new()]: a fresh, empty artboard. *)
Definition MSArtboardGroup_new (h : heap) : ref * heap :=
  let r := fresh (dom h) in
  (r, <[r := mkLayer MSArtboardGroup EmptyString (mkRect 0 0 0 0) [] [] None]> h).

(** [layer.copy()]: a new object with the fields of the old one. *)
Definition copy (layer : ref) (h : heap) : result (ref * heap) :=
  l ← deref h layer;
  let r := fresh (dom h) in
  Ok (r, <[r := l]> h).

(** [parent.addLayer(child)]: the child becomes the last layer of the parent. *)
Definition addLayer (parent child : ref) (h : heap) : result heap :=
  p ← deref h parent;
  Ok (<[parent := with_layers (fun ls => ls ++ [child]) p]> h).

(** [layer.removeFromParent()]: the layer leaves the page or the group that
    holds it. *)
Definition removeFromParent (layer : ref) (d : Document) : Document :=
  let drop := filter (fun r => r ≠ layer) in
  {| doc_heap := with_layers drop <$> doc_heap d;
     pageLayers := drop (pageLayers d);
     messages := messages d |}.

Definition with_heap (h : heap) (d : Document) : Document :=
  {| doc_heap := h; pageLayers := pageLayers d; messages := messages d |}.

(** ** Orchestrator *)

(** The callback of [layers.forEach], lines 43--46. *)
Fixpoint moveIntoArtboard (artboard : ref) (ls : list ref) (d : Document)
  : result Document :=
  match ls with
  | [] => Ok d
  | layer :: rest =>
      '(c, h1) ← copy layer (doc_heap d);
      h2 ← addLayer artboard c h1;
      moveIntoArtboard artboard rest (removeFromParent layer (with_heap h2 d))
  end.

(** Lines 35--48: no artboard was selected, a new one takes the layers. *)
Definition newColorsArtboard (ls : list ref) (d : Document)
  : result (ref * list ref * Document) :=
  let '(artboard, h0) := MSArtboardGroup_new (doc_heap d) in
  a ← deref h0 artboard;
  first ← match ls with
          | [] => Throw TypeError
          | l0 :: _ => frameOf h0 l0
          end;
  let a' := mkLayer (kind a) "Colors"
              (set_height 600 (set_width 600
                 (set_top (top first) (set_left (left first) (frame a)))))
              (fills a) (layers a) (symbolMaster a) in
  let d1 := {| doc_heap := <[artboard := a']> h0;
               pageLayers := pageLayers d ++ [artboard];
               messages := messages d |} in
  d2 ← moveIntoArtboard artboard ls d1;
  a2 ← deref (doc_heap d2) artboard;
  ls' ← getLayersWithBackgroundColor (doc_heap d2) (layers a2);
  Ok (artboard, ls', d2).

(** The plugin's entry point; [selection] is [context.selection]. *)
Definition sortByHue (selection : list ref) (d : Document) : result Document :=
  (* lines 13--18 *)
  '(artboard, ls) ←
    match selection with
    | [l0] =>
        first ← deref (doc_heap d) l0;
        if isKindOfClass first MSArtboardGroup
        then Ok (Some l0, layers first)
        else Ok (None, selection)
    | _ => Ok (None, selection)
    end;
  (* lines 20--24 *)
  if (length ls <? 1)%nat then Ok (showMessage "No layers selected!" d)
  else
    (* lines 26--32 *)
    ls ← getLayersWithBackgroundColor (doc_heap d) ls;
    if (length ls <? 1)%nat
    then Ok (showMessage "No layers with background selected!" d)
    else
      (* lines 34--48 *)
      '(artboard, ls, d) ←
        match artboard with
        | Some a => Ok (a, ls, d)
        | None => newColorsArtboard ls d
        end;
      (* lines 50--51 *)
      ls ← sortLayersByHue (doc_heap d) ls;
      (* lines 53--76 *)
      h ← layout artboard ls (doc_heap d);
      Ok (with_heap h d).

(** * Definitions for the statements *)

(** ** Colours of the data model *)

(** A channel as the data model has it: a number between 0 and 1. *)
Definition channel (x : float) : Prop :=
  (0 <=? x) = true /\ (x <=? 1) = true.

(** The colours of the data model: every channel between 0 and 1. *)
Definition inGamut (c : MSColor) : Prop :=
  channel (red c) /\ channel (green c) /\ channel (blue c).

(** Red and green tie at the maximum. *)
Definition paleYellow : MSColor := mkColor 1 1 0.5.

(** A red with a trace of blue. *)
Definition nearlyRed : MSColor := mkColor 1 0 1e-20.

(** ** Sort keys *)

(** A layer whose hue can be read: the extractor answers, and with a colour
    of the data model if it answers with a colour. *)
Definition readable (h : heap) (r : ref) : Prop :=
  exists bg, getLayerBackground h r = Ok bg /\ from_option inGamut True bg.

(** The sort key of a layer: what [getLayerHue] returns for it. *)
Definition hueKey (h : heap) (r : ref) : float :=
  match getLayerHue h r with
  | Ok k => k
  | Throw _ => 0
  end.

(** The hue of [a] is read, the hue of [b] is read, and the first is at most
    the second. *)
Definition hue_le (h : heap) (a b : ref) : Prop :=
  exists ka kb, getLayerHue h a = Ok ka /\ getLayerHue h b = Ok kb /\ (ka <=? kb) = true.

(** The order of two elements by the real numbers [key] gives them. *)
Definition key_le {A : Type} (key : A -> R) (a b : A) : Prop := (key a <= key b)%R.

(** ** Outcomes of the extractor *)


(** ** Effects of the layout *)

(** The layer [l] with its frame moved to [(x, y)]. *)
Definition moveTo (x y : float) (l : MSLayer) : MSLayer :=
  with_frame (fun f => mkRect x y (width f) (height f)) l.

(** What the layout may change in a layer: where its frame is. *)
Definition repositioned (l l' : MSLayer) : Prop :=
  exists x y, l' = moveTo x y l.

(** What the layout may change in the artboard: how high its frame is. *)
Definition resized (l l' : MSLayer) : Prop :=
  exists v, l' = with_frame (set_height v) l.

(** ** Scenes and documents the statements are tried on *)

(** A symbol instance (1) of a master (2) that holds a text layer (3) and a
    red shape (4). *)
Definition symbolScene : heap :=
  <[1%positive := mkLayer MSSymbolInstance "instance" (mkRect 0 0 40 20) [] [] (Some 2%positive)]>
  (<[2%positive := mkLayer MSSymbolMaster "master" (mkRect 0 0 40 20) [] [3; 4]%positive None]>
  (<[3%positive := mkLayer MSTextLayer "label" (mkRect 0 0 40 20) [] [] None]>
  (<[4%positive := mkLayer MSShapeGroup "background" (mkRect 0 0 40 20) [mkColor 1 0 0] [] None]> ∅))).

(** A shape without fills. *)
Definition emptyShapeScene : heap :=
  {[ 1%positive := mkLayer MSShapeGroup "bare" (mkRect 0 0 40 20) [] [] None ]}.

(** A shape without fills (1) next to a red shape (2). *)
Definition bareShapeScene : heap :=
  <[1%positive := mkLayer MSShapeGroup "bare" (mkRect 0 0 40 20) [] [] None]>
  {[ 2%positive := mkLayer MSShapeGroup "red" (mkRect 0 0 40 20) [mkColor 1 0 0] [] None ]}.

(** Three shapes of hue 210, 0 and 330, and a text layer. *)
Definition fourHues : heap :=
  <[1%positive := mkLayer MSShapeGroup "azure" (mkRect 0 0 40 20) [mkColor 0 0.5 1] [] None]>
  (<[2%positive := mkLayer MSShapeGroup "red" (mkRect 0 0 40 20) [mkColor 1 0 0] [] None]>
  (<[3%positive := mkLayer MSShapeGroup "rose" (mkRect 0 0 40 20) [mkColor 1 0 0.5] [] None]>
  (<[4%positive := mkLayer MSTextLayer "label" (mkRect 0 0 40 20) [] [] None]> ∅))).

(** An artboard 100 wide (1) with three shapes 40 wide and 20 high. *)
Definition narrowArtboard : heap :=
  <[1%positive := mkLayer MSArtboardGroup "Artboard" (mkRect 7 8 100 600) [] [2; 3; 4]%positive None]>
  (<[2%positive := mkLayer MSShapeGroup "red" (mkRect 0 0 40 20) [mkColor 1 0 0] [] None]>
  (<[3%positive := mkLayer MSShapeGroup "green" (mkRect 0 0 40 20) [mkColor 0 1 0] [] None]>
  (<[4%positive := mkLayer MSShapeGroup "blue" (mkRect 0 0 40 20) [mkColor 0 0 1] [] None]> ∅))).


(** A page with one artboard that holds a text layer. *)
Definition textArtboardDoc : Document :=
  mkDocument
    (<[1%positive := mkLayer MSArtboardGroup "Artboard" (mkRect 0 0 100 100) [] [2%positive] None]>
      {[ 2%positive := mkLayer MSTextLayer "label" (mkRect 0 0 40 20) [] [] None ]})
    [1%positive] [].


(** ** Layers and colours, further notions *)

(** The reference leads to a shape group. *)
Definition isShapeGroup (h : heap) (r : ref) : bool :=
  match h !! r with
  | Some l => isKindOfClass l MSShapeGroup
  | None => false
  end.

(** A shape group with a first fill, the layers that pass the filter. *)
Definition filledShape (h : heap) (r : ref) : Prop :=
  exists L c cs, h !! r = Some L /\ kind L = MSShapeGroup /\ fills L = c :: cs.

(** A child that the scan of a symbol gets past: the child is there, and if
    it is a shape it has a first fill. *)
Definition scannable (h : heap) (c : ref) : bool :=
  match h !! c with
  | Some C =>
      negb (isKindOfClass C MSShapeGroup) ||
      match fills C with
      | [] => false
      | _ :: _ => true
      end
  | None => false
  end.

(** The sixth of the colour wheel that the order of the channels points to,
    as the pair of its bounds in degrees.  Red largest: 0 to 60 when green is
    at least blue, else 300 to 360; green largest: 120 to 180 when blue is at
    least red, else 60 to 120; blue largest: 240 to 300 when red is at least
    green, else 180 to 240. *)
Definition hueSector (c : MSColor) : float * float :=
  let r := red c in
  let g := green c in
  let b := blue c in
  if (g <=? r) && (b <=? r) then (if b <=? g then (0, 60) else (300, 360))
  else if b <=? g then (if r <=? b then (120, 180) else (60, 120))
  else (if g <=? r then (240, 300) else (180, 240)).

(** ** Frames after the layout *)

(** The fields of a layer other than its frame are the same in both. *)
Definition sameButFrame (l l' : MSLayer) : Prop :=
  kind l' = kind l /\ name l' = name l /\ fills l' = fills l /\
  layers l' = layers l /\ symbolMaster l' = symbolMaster l.

(** Lines 62--64: does a frame of the width of [f] go to a new row when the
    frame placed before it is [last] and the artboard is [pw] wide? *)
Definition newRow (pw : float) (last f : MSRect) : bool :=
  pw - 10 <? left last + width last + 5 + width f.

(** Lines 65--72: where that frame goes. *)
Definition placeAfter (pw : float) (last f : MSRect) : MSRect :=
  if newRow pw last f
  then mkRect 5 (top last + height last + 5) (width f) (height f)
  else mkRect (left last + width last + 5) (top last) (width f) (height f).

(** The frames that the layers after the first one end with, from the
    frames they start with, [last] being the frame placed before them. *)
Fixpoint placeRest (pw : float) (last : MSRect) (fs : list MSRect) : list MSRect :=
  match fs with
  | [] => []
  | f :: rest => placeAfter pw last f :: placeRest pw (placeAfter pw last f) rest
  end.

(** The running [height] of line 68 after these layers, [ht] before them. *)
Fixpoint heightRest (pw : float) (last : MSRect) (ht : float) (fs : list MSRect) : float :=
  match fs with
  | [] => ht
  | f :: rest =>
      heightRest pw (placeAfter pw last f)
        (if newRow pw last f then ht + (height f + 5) else ht) rest
  end.

(** The frames that a list of layers ends with: the first one at (5, 5). *)
Definition placeAll (pw : float) (fs : list MSRect) : list MSRect :=
  match fs with
  | [] => []
  | f :: rest =>
      mkRect 5 5 (width f) (height f) :: placeRest pw (mkRect 5 5 (width f) (height f)) rest
  end.

(** The height the artboard ends with: line 55 and every turn of line 68. *)
Definition totalHeight (pw : float) (fs : list MSRect) : float :=
  match fs with
  | [] => 0
  | f :: rest => heightRest pw (mkRect 5 5 (width f) (height f)) (height f + 10) rest
  end.

(** A number of pixels between 0 and a thousand million. *)
Definition pixels (x : float) : Prop :=
  (0 <=? x) = true /\ (x <=? 1000000000) = true.

(** ** Runs of the plugin *)

(** The fields of a layer other than its children are the same in both. *)
Definition sameButLayers (l l' : MSLayer) : Prop :=
  kind l' = kind l /\ name l' = name l /\ frame l' = frame l /\
  fills l' = fills l /\ symbolMaster l' = symbolMaster l.

(** Every object of [h] is still in [h'], with at most other children. *)
Definition extends (h h' : heap) : Prop :=
  forall r L, h !! r = Some L -> exists L', h' !! r = Some L' /\ sameButLayers L L'.

(** Lines 13--18: the layers the plugin works on, the children of a single
    selected artboard or else the selection itself. *)
Definition workingLayers (d : Document) (selection : list ref) : list ref :=
  match selection with
  | [a] =>
      match doc_heap d !! a with
      | Some l => if isKindOfClass l MSArtboardGroup then layers l else selection
      | None => selection
      end
  | _ => selection
  end.

(** The selection is not one artboard alone. *)
Definition noArtboardSelected (d : Document) (selection : list ref) : Prop :=
  forall a l, selection = [a] -> doc_heap d !! a = Some l -> kind l <> MSArtboardGroup.

(** What a run of the plugin comes to, by the layers it works on. *)
Definition outcome (sel : list ref) (d : Document) (ls : list ref) : Prop :=
  ((exists r, r ∈ ls /\ getLayerBackground (doc_heap d) r = Throw TypeError) /\
   sortByHue sel d = Throw TypeError) \/
  (Forall (fun r => exists bg, getLayerBackground (doc_heap d) r = Ok bg) ls /\
   exists d', sortByHue sel d = Ok d' /\
     (messages d' = messages d \/
      d' = showMessage "No layers selected!" d \/
      d' = showMessage "No layers with background selected!" d)).

(** ** More scenes and documents *)

(** A symbol master (1) that holds a shape without fills (2), an instance of
    it (3), an instance that has lost its master (4), and an instance (5) of
    a master (6) that holds a text layer (7). *)
Definition brokenSymbolScene : heap :=
  <[1%positive := mkLayer MSSymbolMaster "master" (mkRect 0 0 40 20) [] [2%positive] None]>
  (<[2%positive := mkLayer MSShapeGroup "bare" (mkRect 0 0 40 20) [] [] None]>
  (<[3%positive := mkLayer MSSymbolInstance "instance" (mkRect 0 0 40 20) [] [] (Some 1%positive)]>
  (<[4%positive := mkLayer MSSymbolInstance "orphan" (mkRect 0 0 40 20) [] [] None]>
  (<[5%positive := mkLayer MSSymbolInstance "label instance" (mkRect 0 0 40 20) [] [] (Some 6%positive)]>
  (<[6%positive := mkLayer MSSymbolMaster "label master" (mkRect 0 0 40 20) [] [7%positive] None]>
  (<[7%positive := mkLayer MSTextLayer "label" (mkRect 0 0 40 20) [] [] None]> ∅)))))).

(** A shape whose blue channel is [-Infinity], outside the data model (1),
    next to a red shape (2). *)
Definition unboundedScene : heap :=
  <[1%positive := mkLayer MSShapeGroup "abyss" (mkRect 0 0 40 20) [mkColor 1 0 neg_infinity] [] None]>
  {[ 2%positive := mkLayer MSShapeGroup "red" (mkRect 0 0 40 20) [mkColor 1 0 0] [] None ]}.

(** An artboard 100 wide (1) with a shape 40 wide (2) and a shape 200 wide
    (3). *)
Definition wideLayerArtboard : heap :=
  <[1%positive := mkLayer MSArtboardGroup "Artboard" (mkRect 0 0 100 600) [] [2; 3]%positive None]>
  (<[2%positive := mkLayer MSShapeGroup "red" (mkRect 0 0 40 20) [mkColor 1 0 0] [] None]>
  (<[3%positive := mkLayer MSShapeGroup "banner" (mkRect 0 0 200 20) [mkColor 0 1 0] [] None]> ∅)).

(** A page with the three shapes and the text layer of [fourHues]. *)
Definition fourHuesDoc : Document := mkDocument fourHues [1; 2; 3; 4]%positive [].

(** * Binary64 arithmetic and the reals

    What a computation on floats yields is read off the specification of the
    primitive operations ([Prim2SF] and the [SF64] operations of the standard
    library): each operation is the exact operation on the reals followed by
    a rounding to nearest, ties to even, and that rounding is monotone. *)

Module Binary64.

Local Open Scope Z_scope.

Definition pow2 (e : Z) : R := powerRZ 2 e.

(** The exponent the format gives to a number of magnitude [e]. *)
Abbreviation fexp64 := (fexp prec emax).

Abbreviation valid := (SpecFloat.valid_binary prec emax).

Definition signed (s : bool) (z : R) : R := if s then (- z)%R else z.

Definition F2R (s : bool) (m : positive) (e : Z) : R :=
  (IZR (cond_Zopp s (Zpos m)) * pow2 e)%R.

(** The real number a float stands for; 0 for infinities and NaN, which the
    lemmas below keep apart by [is_finite_SF]. *)
Definition SF2R (x : spec_float) : R :=
  match x with
  | S754_finite s m e => F2R s m e
  | _ => 0%R
  end.

Definition is_finite_SF (x : spec_float) : bool :=
  match x with
  | S754_zero _ | S754_finite _ _ _ => true
  | _ => false
  end.

(** The real a primitive float stands for, and the floats that stand for one. *)
Definition FR (x : float) : R := SF2R (Prim2SF x).
Definition finite (x : float) : Prop := is_finite_SF (Prim2SF x) = true.

(** [located x e mrs]: [x] lies in [[m * 2^e, (m+1) * 2^e)] for the mantissa
    [m] of [mrs]; the round bit says whether [x] is in the upper half, the
    sticky bit whether it is off both the lower end and the middle. *)
Definition located (x : R) (e : Z) (mrs : shr_record) : Prop :=
  let lo := (IZR (shr_m mrs) * pow2 e)%R in
  let half := (pow2 e / 2)%R in
  match shr_r mrs, shr_s mrs with
  | false, false => x = lo
  | false, true => (lo < x < lo + half)%R
  | true, false => x = (lo + half)%R
  | true, true => (lo + half < x < lo + pow2 e)%R
  end.

(** [RNE x z]: [z] is the non-negative real [x] rounded to nearest, ties to
    even.  The scale is fixed by the magnitude of [x]: [mag] is the exponent
    with [2^(mag-1) <= x < 2^mag], or anything up to [emin] when [x] is below
    every such power the format resolves. *)
Definition RNE (x z : R) : Prop :=
  exists (mag : Z) (mrs : shr_record),
    (x < pow2 mag)%R /\
    ((pow2 (mag - 1) <= x)%R \/ mag <= -1074) /\
    0 <= shr_m mrs /\
    located x (fexp64 mag) mrs /\
    z = (IZR (round_nearest_even (shr_m mrs) (loc_of_shr_record mrs)) * pow2 (fexp64 mag))%R.

(** The same for a real of either sign. *)
Definition Rnd (x z : R) : Prop :=
  (0 <= x /\ RNE x z)%R \/ (x <= 0 /\ RNE (- x) (- z))%R.

(** [rounds_to x z]: the float [z] is the real [x] rounded to the format, or
    an infinity or NaN when [x] is out of its range. *)
Definition rounds_to (x : R) (z : spec_float) : Prop :=
  (is_finite_SF z = false /\ (pow2 1023 <= Rabs x)%R) \/
  (is_finite_SF z = true /\ Rnd x (SF2R z)).

(** What a comparison says of two reals. *)
Definition Rorder (c : comparison) (x y : R) : Prop :=
  match c with
  | Lt => (x < y)%R
  | Eq => x = y
  | Gt => (y < x)%R
  end.

(** *** Powers of two *)

Lemma pow2_pos (e : Z) : (0 < pow2 e)%R.
Proof. apply powerRZ_lt. lra. Qed.

Lemma pow2_add (a b : Z) : pow2 (a + b) = (pow2 a * pow2 b)%R.
Proof. apply powerRZ_add. lra. Qed.

Lemma pow2_0 : pow2 0 = 1%R.
Proof. reflexivity. Qed.

Lemma pow2_1 : pow2 1 = 2%R.
Proof. unfold pow2. simpl. lra. Qed.

Lemma pow2_succ (e : Z) : pow2 (e + 1) = (2 * pow2 e)%R.
Proof. rewrite pow2_add, pow2_1. lra. Qed.

Lemma pow2_IZR (k : Z) : 0 <= k -> pow2 k = IZR (2 ^ k).
Proof.
  intros Hk. pattern k. apply natlike_ind; [reflexivity | | exact Hk].
  intros n Hn IH. unfold Z.succ. rewrite pow2_succ, IH, Z.pow_add_r by lia.
  rewrite Z.pow_1_r, mult_IZR. lra.
Qed.

Lemma pow2_ge_1 (k : Z) : 0 <= k -> (1 <= pow2 k)%R.
Proof.
  intros Hk. rewrite pow2_IZR by exact Hk. apply IZR_le.
  assert (0 < 2 ^ k) by (apply Z.pow_pos_nonneg; lia). lia.
Qed.

Lemma pow2_le (a b : Z) : a <= b -> (pow2 a <= pow2 b)%R.
Proof.
  intros H. replace b with (a + (b - a)) by lia. rewrite pow2_add.
  pose proof (pow2_pos a). pose proof (pow2_ge_1 (b - a) ltac:(lia)). nra.
Qed.

Lemma pow2_lt (a b : Z) : a < b -> (pow2 a < pow2 b)%R.
Proof.
  intros H. apply Rlt_le_trans with (pow2 (a + 1)).
  - rewrite pow2_succ. pose proof (pow2_pos a). lra.
  - apply pow2_le. lia.
Qed.

Lemma pow2_lt_inv (a b : Z) : (pow2 a < pow2 b)%R -> a < b.
Proof.
  intros H. destruct (Z_lt_le_dec a b) as [L|L]; [exact L|].
  apply pow2_le in L. lra.
Qed.

(** An integer below a power of two, as reals and as integers. *)
Lemma IZR_lt_pow2 (m k : Z) : 0 <= k -> (IZR m < pow2 k)%R <-> m < 2 ^ k.
Proof.
  intros Hk. rewrite pow2_IZR by exact Hk. split; [apply lt_IZR | apply IZR_lt].
Qed.

Lemma IZR_le_pow2 (m k : Z) : 0 <= k -> (pow2 k <= IZR m)%R <-> 2 ^ k <= m.
Proof.
  intros Hk. rewrite pow2_IZR by exact Hk. split; [apply le_IZR | apply IZR_le].
Qed.

(** *** Number of binary digits *)

Lemma digits2_pos_bounds (m : positive) :
  2 ^ (Zpos (digits2_pos m) - 1) <= Zpos m < 2 ^ Zpos (digits2_pos m).
Proof.
  induction m as [p IH|p IH|]; cbn [digits2_pos].
  - rewrite Pos2Z.inj_succ. unfold Z.succ.
    replace (Z.pos (digits2_pos p) + 1 - 1) with (Z.pos (digits2_pos p) - 1 + 1) by lia.
    rewrite !Z.pow_add_r, Z.pow_1_r by lia. lia.
  - rewrite Pos2Z.inj_succ. unfold Z.succ.
    replace (Z.pos (digits2_pos p) + 1 - 1) with (Z.pos (digits2_pos p) - 1 + 1) by lia.
    rewrite !Z.pow_add_r, Z.pow_1_r by lia. lia.
  - simpl. lia.
Qed.

Lemma Zdigits2_bounds (m : Z) :
  0 < m -> 2 ^ (Zdigits2 m - 1) <= m < 2 ^ Zdigits2 m.
Proof. destruct m as [|p|p]; try lia. intros _. apply digits2_pos_bounds. Qed.

Lemma Zdigits2_nonneg (m : Z) : 0 <= m -> 0 <= Zdigits2 m.
Proof. destruct m; simpl; lia. Qed.

Lemma Zdigits2_pos (m : Z) : 0 < m -> 0 < Zdigits2 m.
Proof. destruct m; simpl; lia. Qed.

(** The number of digits is the only [d] with [2^(d-1) <= m < 2^d]. *)
Lemma Zdigits2_unique (m d : Z) :
  0 < m -> 2 ^ (d - 1) <= m < 2 ^ d -> Zdigits2 m = d.
Proof.
  intros Hm [L U]. pose proof (Zdigits2_bounds m Hm) as [L' U'].
  pose proof (Zdigits2_pos m Hm).
  assert (0 < d).
  { destruct (Z_lt_le_dec 0 d); [assumption|].
    assert (2 ^ d <= 1); [|lia].
    destruct (Z.eq_dec d 0) as [->|]; [simpl; lia|].
    rewrite Z.pow_neg_r by lia. lia. }
  destruct (Z.lt_trichotomy (Zdigits2 m) d) as [C|[C|C]]; [|exact C|].
  - assert (2 ^ Zdigits2 m <= 2 ^ (d - 1)) by (apply Z.pow_le_mono_r; lia). lia.
  - assert (2 ^ d <= 2 ^ (Zdigits2 m - 1)) by (apply Z.pow_le_mono_r; lia). lia.
Qed.

(** *** The format *)

Lemma fexp64_eq (e : Z) : fexp64 e = Z.max (e - 53) (-1074).
Proof. reflexivity. Qed.

Lemma fexp64_mono (a b : Z) : a <= b -> fexp64 a <= fexp64 b.
Proof. rewrite !fexp64_eq. lia. Qed.

Lemma F2R_signed (s : bool) (m : positive) (e : Z) :
  F2R s m e = signed s (IZR (Zpos m) * pow2 e).
Proof.
  unfold F2R, signed, cond_Zopp. destruct s; [rewrite opp_IZR|]; lra.
Qed.

(** *** Where a real sits between two multiples of [2^e] *)

Lemma located_bounds (x : R) (e : Z) (mrs : shr_record) :
  located x e mrs ->
  (IZR (shr_m mrs) * pow2 e <= x < (IZR (shr_m mrs) + 1) * pow2 e)%R.
Proof.
  unfold located. pose proof (pow2_pos e).
  destruct (shr_r mrs), (shr_s mrs); intros; lra.
Qed.

Lemma IZR_xO (p : positive) : IZR (Zpos p~0) = (2 * IZR (Zpos p))%R.
Proof. rewrite Pos2Z.inj_xO, mult_IZR. reflexivity. Qed.

Lemma IZR_xI (p : positive) : IZR (Zpos p~1) = (2 * IZR (Zpos p) + 1)%R.
Proof. rewrite Pos2Z.inj_xI, plus_IZR, mult_IZR. reflexivity. Qed.

Lemma shr_1_located (x : R) (e : Z) (mrs : shr_record) :
  0 <= shr_m mrs -> located x e mrs ->
  0 <= shr_m (shr_1 mrs) /\ located x (e + 1) (shr_1 mrs).
Proof.
  destruct mrs as [m r s]. cbn [shr_m]. intros Hm.
  unfold located. cbn [shr_m shr_r shr_s]. rewrite pow2_succ.
  pose proof (pow2_pos e) as He.
  destruct m as [|[p|p|]|p]; try lia; cbn [shr_1 shr_m shr_r shr_s];
    try rewrite (IZR_xO p); try rewrite (IZR_xI p);
    (split; [lia|]); destruct r, s; cbn [orb]; intros; lra.
Qed.

Lemma iter_shr_1_located (n : positive) :
  forall (x : R) (e : Z) (mrs : shr_record),
    0 <= shr_m mrs -> located x e mrs ->
    0 <= shr_m (SpecFloat.iter_pos shr_1 n mrs) /\
    located x (e + Zpos n) (SpecFloat.iter_pos shr_1 n mrs).
Proof.
  induction n as [n IH|n IH|]; intros x e mrs Hm Hx; cbn [SpecFloat.iter_pos].
  - destruct (shr_1_located x e mrs Hm Hx) as [Hm1 Hx1].
    destruct (IH x (e + 1) _ Hm1 Hx1) as [Hm2 Hx2].
    destruct (IH x (e + 1 + Zpos n) _ Hm2 Hx2) as [Hm3 Hx3].
    split; [exact Hm3|]. replace (e + Zpos n~1) with (e + 1 + Zpos n + Zpos n) by lia.
    exact Hx3.
  - destruct (IH x e _ Hm Hx) as [Hm2 Hx2].
    destruct (IH x (e + Zpos n) _ Hm2 Hx2) as [Hm3 Hx3].
    split; [exact Hm3|]. replace (e + Zpos n~0) with (e + Zpos n + Zpos n) by lia.
    exact Hx3.
  - apply shr_1_located; assumption.
Qed.

Lemma shr_located (x : R) (e n : Z) (mrs : shr_record) :
  0 <= shr_m mrs -> located x e mrs -> 0 <= n ->
  0 <= shr_m (fst (shr mrs e n)) /\
  snd (shr mrs e n) = e + n /\
  located x (e + n) (fst (shr mrs e n)).
Proof.
  intros Hm Hx Hn. destruct n as [|p|p]; try lia; cbn [shr fst snd].
  - rewrite Z.add_0_r. auto.
  - destruct (iter_shr_1_located p x e mrs Hm Hx). auto.
Qed.

Lemma shr_record_of_loc_m (m : Z) (l : location) : shr_m (shr_record_of_loc m l) = m.
Proof. destruct l as [|[]]; reflexivity. Qed.

Lemma round_nearest_even_cases (m : Z) (l : location) :
  round_nearest_even m l = m \/ round_nearest_even m l = m + 1.
Proof.
  destruct l as [|[]]; cbn [round_nearest_even]; auto.
  destruct (Z.even m); auto.
Qed.

(** *** The rounding step of every operation *)

Lemma shr_nonpos (mrs : shr_record) (e n : Z) : n <= 0 -> shr mrs e n = (mrs, e).
Proof. destruct n; try lia; reflexivity. Qed.

(** The second normalisation of [binary_round_aux]: it changes the pair only
    when rounding has carried the mantissa to [2^53]. *)
Lemma shr_fexp_after_rounding (m e : Z) :
  0 <= m <= 2 ^ 53 -> -1074 <= e ->
  exists mrs e',
    shr_fexp prec emax m e loc_Exact = (mrs, e') /\
    0 <= shr_m mrs /\
    (IZR (shr_m mrs) * pow2 e' = IZR m * pow2 e)%R /\
    (e' = e \/ (e' = e + 1 /\ m = 2 ^ 53)).
Proof.
  intros [Hm0 Hm] He. unfold shr_fexp. cbn [shr_record_of_loc].
  destruct (Z.eq_dec m (2 ^ 53)) as [->|Hne].
  - change (Zdigits2 (2 ^ 53)) with 54. rewrite fexp64_eq.
    replace (Z.max (54 + e - 53) (-1074) - e) with 1 by lia.
    exists (Build_shr_record 4503599627370496 false false), (e + 1).
    split; [reflexivity|]. cbn [shr_m]. split; [lia|].
    split; [|right; split; reflexivity].
    rewrite pow2_succ. change (2 ^ 53) with 9007199254740992. lra.
  - rewrite shr_nonpos.
    + exists (Build_shr_record m false false), e. cbn [shr_m]. auto.
    + rewrite fexp64_eq. destruct (Z.eq_dec m 0) as [->|Hm1]; [simpl; lia|].
      pose proof (Zdigits2_bounds m ltac:(lia)) as [L _].
      assert (Zdigits2 m - 1 < 53); [|lia].
      apply (Z.pow_lt_mono_r_iff 2); lia.
Qed.

Lemma binary_round_aux_spec (s : bool) (mx ex : Z) (lx : location) (x : R) :
  0 <= mx ->
  located x ex (shr_record_of_loc mx lx) ->
  ex <= fexp64 (Zdigits2 mx + ex) ->
  (binary_round_aux prec emax s mx ex lx = S754_infinity s /\ (pow2 1023 <= x)%R) \/
  (exists Z, RNE x Z /\
     is_finite_SF (binary_round_aux prec emax s mx ex lx) = true /\
     SF2R (binary_round_aux prec emax s mx ex lx) = signed s Z).
Proof.
  intros Hmx Hx Hn.
  set (mag := Zdigits2 mx + ex) in *.
  (* the magnitude of x *)
  pose proof (located_bounds _ _ _ Hx) as [Hlo Hhi]. rewrite shr_record_of_loc_m in Hlo, Hhi.
  assert (Hmag : (x < pow2 mag)%R).
  { apply Rlt_le_trans with (1 := Hhi). unfold mag. rewrite pow2_add.
    apply Rmult_le_compat_r; [apply Rlt_le, pow2_pos|].
    destruct (Z.eq_dec mx 0) as [->|Hm];
      [change (Zdigits2 0) with 0; rewrite pow2_0; lra|].
    pose proof (Zdigits2_bounds mx ltac:(lia)) as [_ U].
    rewrite pow2_IZR by (apply Zdigits2_nonneg; lia).
    rewrite <- plus_IZR. apply IZR_le. lia. }
  assert (Hmag' : (pow2 (mag - 1) <= x)%R \/ mag <= -1074).
  { destruct (Z.eq_dec mx 0) as [Hm|Hm].
    - right. subst mx. unfold mag in *. simpl in *. rewrite fexp64_eq in Hn. lia.
    - left. apply Rle_trans with (2 := Hlo). unfold mag.
      replace (Zdigits2 mx + ex - 1) with (Zdigits2 mx - 1 + ex) by lia.
      rewrite pow2_add. apply Rmult_le_compat_r; [apply Rlt_le, pow2_pos|].
      pose proof (Zdigits2_bounds mx ltac:(lia)) as [L _].
      pose proof (Zdigits2_pos mx ltac:(lia)).
      rewrite pow2_IZR by lia. apply IZR_le. exact L. }
  (* the first shift *)
  remember (binary_round_aux prec emax s mx ex lx) as z eqn:Ez.
  unfold binary_round_aux, shr_fexp at 1 in Ez. fold mag in Ez.
  destruct (shr_located x ex (fexp64 mag - ex) (shr_record_of_loc mx lx))
    as (Hm' & He' & Hx'); [rewrite shr_record_of_loc_m; exact Hmx | exact Hx | lia |].
  destruct (shr (shr_record_of_loc mx lx) ex (fexp64 mag - ex)) as [mrs' e'].
  cbn [fst snd] in Hm', He', Hx'.
  replace (ex + (fexp64 mag - ex)) with (fexp64 mag) in * by lia. subst e'.
  set (m1 := round_nearest_even (shr_m mrs') (loc_of_shr_record mrs')) in *.
  pose proof (located_bounds _ _ _ Hx') as [Hlo' Hhi'].
  assert (Hfe : -1074 <= fexp64 mag) by (rewrite fexp64_eq; lia).
  assert (Hm'53 : shr_m mrs' < 2 ^ 53).
  { destruct (Z_lt_le_dec mag (fexp64 mag)) as [C|C].
    - (* x is below one unit of the scale *)
      assert (IZR (shr_m mrs') < 1)%R as H; [|apply lt_IZR in H; lia].
      apply pow2_lt in C. pose proof (pow2_pos (fexp64 mag)). nra.
    - apply Z.lt_le_trans with (2 ^ (mag - fexp64 mag)).
      + apply IZR_lt_pow2; [lia|].
        apply Rmult_lt_reg_r with (pow2 (fexp64 mag)); [apply pow2_pos|].
        rewrite <- pow2_add. replace (mag - fexp64 mag + fexp64 mag) with mag by lia. lra.
      + apply Z.pow_le_mono_r; [lia|]. rewrite fexp64_eq. lia. }
  assert (Hm1 : 0 <= m1 <= 2 ^ 53).
  { unfold m1. destruct (round_nearest_even_cases (shr_m mrs') (loc_of_shr_record mrs'))
      as [-> | ->]; lia. }
  destruct (shr_fexp_after_rounding m1 (fexp64 mag) Hm1 Hfe)
    as (mrs'' & e'' & E2 & Hm'' & Hval & He'').
  rewrite E2 in Ez.
  assert (HR : RNE x (IZR m1 * pow2 (fexp64 mag))).
  { exists mag, mrs'. auto. }
  destruct (shr_m mrs'') as [|m''|m''] eqn:Em''; [| |lia].
  - right. exists (IZR m1 * pow2 (fexp64 mag))%R. split; [exact HR|]. subst z.
    split; [reflexivity|]. cbn [SF2R]. rewrite <- Hval. unfold signed. destruct s; lra.
  - destruct (Z.leb_spec e'' (emax - prec)) as [Hle|Hgt]; subst z.
    + right. exists (IZR m1 * pow2 (fexp64 mag))%R. split; [exact HR|].
      split; [reflexivity|]. cbn [SF2R]. rewrite F2R_signed, Hval. reflexivity.
    + left. split; [reflexivity|]. change (emax - prec) with 971 in Hgt.
      assert (Hbig : 1024 <= mag) by (rewrite fexp64_eq in He''; lia).
      destruct Hmag' as [Hmag'|Hmag']; [|lia].
      apply Rle_trans with (2 := Hmag'). apply pow2_le. lia.
Qed.

(** *** Rounding is monotone and leaves the numbers of the format alone *)

Lemma RNE_nonneg (x z : R) : RNE x z -> (0 <= x /\ 0 <= z)%R.
Proof.
  intros (mag & mrs & _ & _ & Hm & Hx & ->).
  pose proof (located_bounds _ _ _ Hx) as [Hlo _].
  pose proof (pow2_pos (fexp64 mag)) as Hp.
  assert (0 <= IZR (shr_m mrs))%R by (apply IZR_le; exact Hm).
  assert (0 <= IZR (round_nearest_even (shr_m mrs) (loc_of_shr_record mrs)))%R.
  { apply IZR_le. destruct (round_nearest_even_cases (shr_m mrs) (loc_of_shr_record mrs))
      as [-> | ->]; lia. }
  split; [nra|]. apply Rmult_le_pos; lra.
Qed.

Lemma round_nearest_even_same_unit (e : Z) (x1 x2 : R) (m : Z) (r1 s1 r2 s2 : bool) :
  located x1 e (Build_shr_record m r1 s1) ->
  located x2 e (Build_shr_record m r2 s2) ->
  (x1 <= x2)%R ->
  round_nearest_even m (loc_of_shr_record (Build_shr_record m r1 s1))
  <= round_nearest_even m (loc_of_shr_record (Build_shr_record m r2 s2)).
Proof.
  unfold located. cbn [shr_m shr_r shr_s loc_of_shr_record].
  pose proof (pow2_pos e).
  destruct r1, s1, r2, s2; cbn [round_nearest_even]; intros H1 H2 Hx;
    try (exfalso; lra); try lia; destruct (Z.even m); lia.
Qed.

Theorem RNE_mono (x1 x2 z1 z2 : R) :
  RNE x1 z1 -> RNE x2 z2 -> (x1 <= x2)%R -> (z1 <= z2)%R.
Proof.
  intros (mag1 & mrs1 & Hu1 & Hl1 & Hm1 & Hx1 & ->)
         (mag2 & mrs2 & Hu2 & Hl2 & Hm2 & Hx2 & ->) Hle.
  set (e1 := fexp64 mag1) in *. set (e2 := fexp64 mag2) in *.
  pose proof (located_bounds _ _ _ Hx1) as [Hlo1 Hhi1].
  pose proof (located_bounds _ _ _ Hx2) as [Hlo2 Hhi2].
  pose proof (pow2_pos e1) as Hp1. pose proof (pow2_pos e2) as Hp2.
  set (n1 := round_nearest_even (shr_m mrs1) (loc_of_shr_record mrs1)).
  set (n2 := round_nearest_even (shr_m mrs2) (loc_of_shr_record mrs2)).
  assert (Hn1 : shr_m mrs1 <= n1 <= shr_m mrs1 + 1).
  { unfold n1. destruct (round_nearest_even_cases (shr_m mrs1) (loc_of_shr_record mrs1))
      as [-> | ->]; lia. }
  assert (Hn2 : shr_m mrs2 <= n2 <= shr_m mrs2 + 1).
  { unfold n2. destruct (round_nearest_even_cases (shr_m mrs2) (loc_of_shr_record mrs2))
      as [-> | ->]; lia. }
  assert (He : e1 <= e2).
  { destruct Hl1 as [Hl1|Hl1].
    - apply fexp64_mono. assert (mag1 - 1 < mag2); [|lia]. apply pow2_lt_inv. lra.
    - unfold e1, e2. rewrite !fexp64_eq. lia. }
  destruct (Z.eq_dec e1 e2) as [Heq|Hne].
  - (* both at the same scale *)
    rewrite <- Heq in *. apply Rmult_le_compat_r; [lra|]. apply IZR_le.
    assert (Hm : shr_m mrs1 <= shr_m mrs2).
    { assert (IZR (shr_m mrs1) < IZR (shr_m mrs2) + 1)%R as H by nra.
      rewrite <- plus_IZR in H. apply lt_IZR in H. lia. }
    destruct (Z.eq_dec (shr_m mrs1) (shr_m mrs2)) as [Hmm|Hmm]; [|lia].
    destruct mrs1 as [m r1 s1], mrs2 as [m' r2 s2]. cbn [shr_m] in *. subst m'.
    apply (round_nearest_even_same_unit e1 x1 x2); assumption.
  - (* the second number is rounded at a coarser scale *)
    assert (Hlt : e1 < e2) by lia.
    pose proof (fexp64_eq mag1) as F1. pose proof (fexp64_eq mag2) as F2.
    fold e1 in F1. fold e2 in F2.
    assert (He2 : e2 = mag2 - 53) by lia.
    assert (Hmag : mag1 < mag2).
    { destruct (Z_lt_le_dec mag1 mag2) as [C|C]; [exact C|].
      apply fexp64_mono in C. fold e1 e2 in C. lia. }
    destruct Hl2 as [Hl2|Hl2]; [|lia].
    apply Rle_trans with (pow2 (mag2 - 1)).
    + (* z1 does not pass the power of two above x1 *)
      apply Rle_trans with ((IZR (shr_m mrs1) + 1) * pow2 e1)%R.
      { apply Rmult_le_compat_r; [lra|]. rewrite <- plus_IZR. apply IZR_le. lia. }
      destruct (Z_lt_le_dec mag1 e1) as [C|C].
      * assert (IZR (shr_m mrs1) < 1)%R as H.
        { apply pow2_lt in C. nra. }
        apply lt_IZR in H. replace (shr_m mrs1) with 0 by lia.
        rewrite Rplus_0_l, Rmult_1_l. apply pow2_le. lia.
      * apply Rle_trans with (pow2 mag1); [|apply pow2_le; lia].
        replace (pow2 mag1) with (pow2 (mag1 - e1 + e1)) by (f_equal; lia). rewrite pow2_add.
        apply Rmult_le_compat_r; [lra|].
        rewrite pow2_IZR by lia. rewrite <- plus_IZR. apply IZR_le.
        assert (shr_m mrs1 < 2 ^ (mag1 - e1)); [|lia].
        apply IZR_lt_pow2; [lia|].
        apply Rmult_lt_reg_r with (pow2 e1); [exact Hp1|].
        rewrite <- pow2_add. replace (mag1 - e1 + e1) with mag1 by lia. lra.
    + (* z2 is at least the power of two below x2 *)
      apply Rle_trans with (IZR (shr_m mrs2) * pow2 e2)%R.
      * replace (mag2 - 1) with (52 + e2) by lia. rewrite pow2_add.
        apply Rmult_le_compat_r; [lra|].
        rewrite pow2_IZR by lia. apply IZR_le.
        assert (2 ^ 52 < shr_m mrs2 + 1); [|lia].
        apply lt_IZR. rewrite plus_IZR, <- pow2_IZR by lia.
        apply Rmult_lt_reg_r with (pow2 e2); [exact Hp2|].
        rewrite <- pow2_add. replace (52 + e2) with (mag2 - 1) by lia. lra.
      * apply Rmult_le_compat_r; [lra|]. apply IZR_le. lia.
Qed.

Corollary RNE_unique (x z1 z2 : R) : RNE x z1 -> RNE x z2 -> z1 = z2.
Proof.
  intros H1 H2. apply Rle_antisym; eapply RNE_mono; eauto; lra.
Qed.

(** A mantissa and an exponent in canonical form: the exponent is the one the
    format gives to numbers of that magnitude. *)
Lemma RNE_canonical (m : positive) (e : Z) :
  canonical_mantissa prec emax m e = true ->
  RNE (IZR (Zpos m) * pow2 e) (IZR (Zpos m) * pow2 e).
Proof.
  unfold canonical_mantissa. intros H. apply Z.eqb_eq in H.
  pose proof (digits2_pos_bounds m) as [L U].
  exists (Zpos (digits2_pos m) + e), (Build_shr_record (Zpos m) false false).
  rewrite H. cbn [shr_m loc_of_shr_record round_nearest_even].
  pose proof (pow2_pos e) as Hp.
  split; [|split; [|split; [lia|split; [reflexivity|reflexivity]]]].
  - rewrite pow2_add. apply Rmult_lt_compat_r; [exact Hp|].
    apply IZR_lt_pow2; lia.
  - left. replace (Zpos (digits2_pos m) + e - 1) with (Zpos (digits2_pos m) - 1 + e) by lia.
    rewrite pow2_add. apply Rmult_le_compat_r; [lra|].
    apply IZR_le_pow2; lia.
Qed.

Lemma RNE_0 : RNE 0 0.
Proof.
  exists (-1074), (Build_shr_record 0 false false).
  cbn [shr_m loc_of_shr_record round_nearest_even].
  pose proof (pow2_pos (-1074)). unfold located. cbn [shr_m shr_r shr_s].
  split; [lra|]. split; [right; lia|]. split; [lia|]. split; lra.
Qed.

(** *** Rounding signed numbers *)

Lemma RNE_0_inv (z : R) : RNE 0 z -> z = 0%R.
Proof. intros H. exact (RNE_unique 0 z 0 H RNE_0). Qed.

Lemma Rnd_sign (x z : R) : Rnd x z -> ((0 <= x -> 0 <= z) /\ (x <= 0 -> z <= 0))%R.
Proof.
  intros [[Hx H]|[Hx H]]; pose proof (RNE_nonneg _ _ H) as [_ Hz]; split; intros Hx'; try lra.
  - replace x with 0%R in H by lra. apply RNE_0_inv in H. lra.
  - replace (- x)%R with 0%R in H by lra. apply RNE_0_inv in H. lra.
Qed.

Theorem Rnd_mono (x1 x2 z1 z2 : R) :
  Rnd x1 z1 -> Rnd x2 z2 -> (x1 <= x2)%R -> (z1 <= z2)%R.
Proof.
  intros H1 H2 Hle.
  pose proof (Rnd_sign _ _ H1) as [P1 N1]. pose proof (Rnd_sign _ _ H2) as [P2 N2].
  destruct H1 as [[Hx1 H1]|[Hx1 H1]], H2 as [[Hx2 H2]|[Hx2 H2]].
  - exact (RNE_mono _ _ _ _ H1 H2 Hle).
  - assert (x1 = 0%R) by lra. assert (x2 = 0%R) by lra. subst. lra.
  - lra.
  - assert (- z2 <= - z1)%R; [|lra]. apply (RNE_mono (- x2) (- x1)); [assumption..|lra].
Qed.

Corollary Rnd_unique (x z1 z2 : R) : Rnd x z1 -> Rnd x z2 -> z1 = z2.
Proof. intros H1 H2. apply Rle_antisym; eapply Rnd_mono; eauto; lra. Qed.

Lemma Rnd_signed (s : bool) (x z : R) : RNE x z -> Rnd (signed s x) (signed s z).
Proof.
  intros H. pose proof (RNE_nonneg _ _ H) as [Hx Hz]. destruct s; cbn [signed].
  - right. rewrite !Ropp_involutive. split; [lra | exact H].
  - left. split; assumption.
Qed.

Lemma Rnd_0 : Rnd 0 0.
Proof. left. split; [lra | exact RNE_0]. Qed.

(** *** Valid floats *)

Lemma valid_finite_inv (s : bool) (m : positive) (e : Z) :
  valid (S754_finite s m e) = true ->
  canonical_mantissa prec emax m e = true /\
  e = Z.max (Zpos (digits2_pos m) + e - 53) (-1074) /\ e <= 971.
Proof.
  cbn [SpecFloat.valid_binary]. unfold bounded. intros H. apply andb_prop in H as [Hc He].
  split; [exact Hc|]. unfold canonical_mantissa in Hc. apply Z.eqb_eq in Hc.
  apply Z.leb_le in He. rewrite fexp64_eq in Hc. split; [lia | exact He].
Qed.

(** A float of the format is its own rounding. *)
Lemma Rnd_SF2R (x : spec_float) : valid x = true -> Rnd (SF2R x) (SF2R x).
Proof.
  destruct x as [s|s| |s m e]; intros Hv; cbn [SF2R]; try exact Rnd_0.
  rewrite F2R_signed. apply Rnd_signed, RNE_canonical.
  apply valid_finite_inv in Hv. tauto.
Qed.

(** Rounding does not step over a float. *)
Corollary Rnd_le_SF (x z : R) (v : spec_float) :
  Rnd x z -> valid v = true -> (x <= SF2R v)%R -> (z <= SF2R v)%R.
Proof. intros H Hv Hle. exact (Rnd_mono _ _ _ _ H (Rnd_SF2R v Hv) Hle). Qed.

Corollary Rnd_ge_SF (x z : R) (v : spec_float) :
  Rnd x z -> valid v = true -> (SF2R v <= x)%R -> (SF2R v <= z)%R.
Proof. intros H Hv Hle. exact (Rnd_mono _ _ _ _ (Rnd_SF2R v Hv) H Hle). Qed.

(** Canonical mantissas are ordered by their exponents first. *)
Lemma canonical_lt (m1 m2 : positive) (e1 e2 : Z) :
  e1 = Z.max (Zpos (digits2_pos m1) + e1 - 53) (-1074) ->
  e2 = Z.max (Zpos (digits2_pos m2) + e2 - 53) (-1074) ->
  e1 < e2 ->
  (IZR (Zpos m1) * pow2 e1 < IZR (Zpos m2) * pow2 e2)%R.
Proof.
  intros H1 H2 Hlt.
  pose proof (digits2_pos_bounds m1) as [_ U1].
  pose proof (digits2_pos_bounds m2) as [L2 _].
  assert (D2 : Zpos (digits2_pos m2) = 53) by lia. rewrite D2 in L2.
  assert (D1 : Zpos (digits2_pos m1) <= 53) by lia.
  pose proof (pow2_pos e1) as Hp1. pose proof (pow2_pos e2) as Hp2.
  apply Rlt_le_trans with (pow2 (53 + e1)).
  - rewrite pow2_add. apply Rmult_lt_compat_r; [exact Hp1|].
    apply IZR_lt_pow2; [lia|].
    apply Z.lt_le_trans with (1 := U1). apply Z.pow_le_mono_r; lia.
  - apply Rle_trans with (pow2 (52 + e2)); [apply pow2_le; lia|].
    rewrite pow2_add. apply Rmult_le_compat_r; [lra|].
    apply IZR_le_pow2; [lia|]. exact L2.
Qed.

Lemma F2R_pos (m : positive) (e : Z) : (0 < IZR (Zpos m) * pow2 e)%R.
Proof.
  apply Rmult_lt_0_compat; [apply IZR_lt; lia | apply pow2_pos].
Qed.

Lemma magnitude_compare (m1 m2 : positive) (e1 e2 : Z) :
  valid (S754_finite false m1 e1) = true ->
  valid (S754_finite false m2 e2) = true ->
  Rorder match e1 ?= e2 with
         | Lt => Lt
         | Gt => Gt
         | Eq => Pos.compare_cont Eq m1 m2
         end
         (IZR (Zpos m1) * pow2 e1) (IZR (Zpos m2) * pow2 e2).
Proof.
  intros V1 V2. apply valid_finite_inv in V1 as (_ & C1 & _).
  apply valid_finite_inv in V2 as (_ & C2 & _).
  destruct (Z.compare_spec e1 e2) as [->|Hlt|Hgt]; cbn [Rorder].
  - change (Pos.compare_cont Eq m1 m2) with (Pos.compare m1 m2).
    pose proof (pow2_pos e2) as Hp.
    destruct (Pos.compare_spec m1 m2) as [->|H|H]; cbn [Rorder].
    + reflexivity.
    + apply Rmult_lt_compat_r; [exact Hp|]. apply IZR_lt. lia.
    + apply Rmult_lt_compat_r; [exact Hp|]. apply IZR_lt. lia.
  - apply canonical_lt; assumption.
  - apply canonical_lt; assumption.
Qed.

Theorem SFcompare_spec (x y : spec_float) :
  valid x = true -> valid y = true ->
  is_finite_SF x = true -> is_finite_SF y = true ->
  exists c, SFcompare x y = Some c /\ Rorder c (SF2R x) (SF2R y).
Proof.
  intros Vx Vy Fx Fy.
  destruct x as [sx|sx| |sx mx ex], y as [sy|sy| |sy my ey]; try discriminate;
    cbn [SFcompare SF2R].
  - exists Eq. split; reflexivity.
  - pose proof (F2R_pos my ey). rewrite F2R_signed.
    destruct sy; eexists; (split; [reflexivity|]); cbn [Rorder signed]; lra.
  - pose proof (F2R_pos mx ex). rewrite F2R_signed.
    destruct sx; eexists; (split; [reflexivity|]); cbn [Rorder signed]; lra.
  - pose proof (F2R_pos mx ex). pose proof (F2R_pos my ey). rewrite !F2R_signed.
    pose proof (magnitude_compare mx my ex ey Vx Vy) as M.
    destruct sx, sy; eexists; (split; [reflexivity|]); cbn [Rorder signed]; try lra.
    + destruct (ex ?= ey); [destruct (Pos.compare_cont Eq mx my)| |];
        cbn [CompOpp Rorder] in *; lra.
    + exact M.
Qed.

(** *** The operations *)

Lemma Rabs_signed (s : bool) (x : R) : (0 <= x)%R -> Rabs (signed s x) = x.
Proof.
  intros H. destruct s; cbn [signed]; [rewrite Rabs_Ropp|]; apply Rabs_pos_eq; exact H.
Qed.

Lemma binary_round_aux_rounds_to (s : bool) (mx ex : Z) (lx : location) (x : R) :
  0 <= mx ->
  located x ex (shr_record_of_loc mx lx) ->
  ex <= fexp64 (Zdigits2 mx + ex) ->
  rounds_to (signed s x) (binary_round_aux prec emax s mx ex lx).
Proof.
  intros Hm Hx Hn.
  assert (0 <= x)%R as Hx0.
  { pose proof (located_bounds _ _ _ Hx) as [Hlo _]. rewrite shr_record_of_loc_m in Hlo.
    pose proof (pow2_pos ex). apply IZR_le in Hm. nra. }
  destruct (binary_round_aux_spec s mx ex lx x Hm Hx Hn) as [[-> Hbig]|(Z & HZ & Hf & Hv)].
  - left. split; [reflexivity|]. rewrite Rabs_signed by exact Hx0. exact Hbig.
  - right. split; [exact Hf|]. rewrite Hv. apply Rnd_signed, HZ.
Qed.

Lemma iter_xO (m d : positive) : Zpos (Pos.iter xO m d) = Zpos m * 2 ^ Zpos d.
Proof.
  induction d as [|d IH] using Pos.peano_ind.
  - cbn [Pos.iter]. rewrite Pos2Z.inj_xO. lia.
  - rewrite Pos.iter_succ, Pos2Z.inj_xO, IH, Pos2Z.inj_succ, Z.pow_succ_r by lia. lia.
Qed.

Lemma shl_align_spec (mx : positive) (ex ex' : Z) :
  snd (shl_align mx ex ex') = Z.min ex ex' /\
  Zpos (fst (shl_align mx ex ex')) = Zpos mx * 2 ^ (ex - Z.min ex ex').
Proof.
  unfold shl_align. destruct (ex' - ex) as [|d|d] eqn:E; cbn [fst snd].
  - replace (Z.min ex ex') with ex by lia. rewrite Z.sub_diag. simpl. lia.
  - replace (Z.min ex ex') with ex by lia. rewrite Z.sub_diag. simpl. lia.
  - replace (Z.min ex ex') with ex' by lia. split; [reflexivity|].
    rewrite iter_xO. f_equal. f_equal. lia.
Qed.

Lemma scaled_value (m k e : Z) :
  0 <= k -> (IZR (m * 2 ^ k) * pow2 e = IZR m * pow2 (k + e))%R.
Proof. intros Hk. rewrite mult_IZR, pow2_add, <- pow2_IZR by exact Hk. ring. Qed.

Lemma Zdigits2_scaled (m : positive) (k : Z) :
  0 <= k -> Zdigits2 (Zpos m * 2 ^ k) = Zpos (digits2_pos m) + k.
Proof.
  intros Hk. pose proof (digits2_pos_bounds m) as [L U].
  assert (0 < 2 ^ k) by (apply Z.pow_pos_nonneg; lia).
  apply Zdigits2_unique; [lia|].
  replace (Zpos (digits2_pos m) + k - 1) with (Zpos (digits2_pos m) - 1 + k) by lia.
  rewrite !Z.pow_add_r by lia. nia.
Qed.

Lemma binary_round_rounds_to (s : bool) (mx : positive) (ex : Z) :
  rounds_to (signed s (IZR (Zpos mx) * pow2 ex)) (binary_round prec emax s mx ex).
Proof.
  unfold binary_round.
  pose proof (shl_align_spec mx ex (fexp64 (Zpos (digits2_pos mx) + ex))) as [He Hm].
  destruct (shl_align mx ex (fexp64 (Zpos (digits2_pos mx) + ex))) as [mz ez].
  cbn [fst snd] in He, Hm. rewrite <- He in Hm.
  assert (Hk : 0 <= ex - ez) by lia.
  apply binary_round_aux_rounds_to; [lia | |].
  - unfold located. cbn [shr_record_of_loc shr_m shr_r shr_s].
    rewrite Hm, scaled_value by exact Hk. do 2 f_equal. lia.
  - rewrite Hm, Zdigits2_scaled by exact Hk.
    replace (Zpos (digits2_pos mx) + (ex - ez) + ez) with (Zpos (digits2_pos mx) + ex) by lia.
    lia.
Qed.

Lemma binary_normalize_rounds_to (m e : Z) (szero : bool) :
  rounds_to (IZR m * pow2 e) (binary_normalize prec emax m e szero).
Proof.
  destruct m as [|p|p]; cbn [binary_normalize].
  - right. split; [reflexivity|]. rewrite Rmult_0_l. exact Rnd_0.
  - exact (binary_round_rounds_to false p e).
  - pose proof (binary_round_rounds_to true p e) as H. cbn [signed] in H.
    replace (IZR (Zneg p) * pow2 e)%R with (- (IZR (Zpos p) * pow2 e))%R; [exact H|].
    change (Zneg p) with (- Zpos p). rewrite opp_IZR. ring.
Qed.

Lemma rounds_to_exact (x : spec_float) (X : R) :
  valid x = true -> is_finite_SF x = true -> X = SF2R x -> rounds_to X x.
Proof. intros Hv Hf ->. right. split; [exact Hf | apply Rnd_SF2R, Hv]. Qed.

Lemma aligned_value (s : bool) (m : positive) (e ez : Z) :
  ez <= e ->
  (IZR (cond_Zopp s (Zpos (fst (shl_align m e ez)))) * pow2 ez)%R = F2R s m e.
Proof.
  intros Hle. pose proof (shl_align_spec m e ez) as [_ Hm].
  replace (Z.min e ez) with ez in Hm by lia.
  assert (H : (IZR (Zpos (fst (shl_align m e ez))) * pow2 ez = IZR (Zpos m) * pow2 e)%R).
  { rewrite Hm, scaled_value by lia. do 2 f_equal. lia. }
  unfold F2R, cond_Zopp. destruct s; rewrite ?opp_IZR; lra.
Qed.

Theorem SFadd_spec (x y : spec_float) :
  valid x = true -> valid y = true ->
  is_finite_SF x = true -> is_finite_SF y = true ->
  rounds_to (SF2R x + SF2R y) (SF64add x y).
Proof.
  intros Vx Vy Fx Fy.
  destruct x as [sx|sx| |sx mx ex], y as [sy|sy| |sy my ey]; try discriminate;
    unfold SF64add; cbn [SFadd SF2R].
  - destruct sx, sy; apply rounds_to_exact; try reflexivity; cbn [SF2R]; lra.
  - apply rounds_to_exact; [assumption..|]. cbn [SF2R]. lra.
  - apply rounds_to_exact; [assumption..|]. cbn [SF2R]. lra.
  - rewrite <- (aligned_value sx mx ex (Z.min ex ey)) by lia.
    rewrite <- (aligned_value sy my ey (Z.min ex ey)) by lia.
    rewrite <- Rmult_plus_distr_r, <- plus_IZR.
    apply binary_normalize_rounds_to.
Qed.

Theorem SFsub_spec (x y : spec_float) :
  valid x = true -> valid y = true ->
  is_finite_SF x = true -> is_finite_SF y = true ->
  rounds_to (SF2R x - SF2R y) (SF64sub x y).
Proof.
  intros Vx Vy Fx Fy.
  destruct x as [sx|sx| |sx mx ex], y as [sy|sy| |sy my ey]; try discriminate;
    unfold SF64sub; cbn [SFsub SF2R].
  - destruct sx, sy; apply rounds_to_exact; try reflexivity; cbn [SF2R]; lra.
  - apply rounds_to_exact; [exact Vy | reflexivity |]. cbn [SF2R].
    rewrite !F2R_signed. destruct sy; cbn [negb signed]; lra.
  - apply rounds_to_exact; [assumption..|]. cbn [SF2R]. lra.
  - rewrite <- (aligned_value sx mx ex (Z.min ex ey)) by lia.
    rewrite <- (aligned_value sy my ey (Z.min ex ey)) by lia.
    rewrite <- Rmult_minus_distr_r, <- minus_IZR.
    apply binary_normalize_rounds_to.
Qed.

Lemma Zdigits2_mul_ge (mx my : positive) :
  Zpos (digits2_pos mx) + Zpos (digits2_pos my) - 1 <= Zdigits2 (Zpos (mx * my)).
Proof.
  pose proof (digits2_pos_bounds mx) as [Lx _].
  pose proof (digits2_pos_bounds my) as [Ly _].
  pose proof (digits2_pos_bounds (mx * my)) as [_ U]. cbn [Zdigits2].
  assert (2 ^ (Zpos (digits2_pos mx) - 1 + (Zpos (digits2_pos my) - 1))
          < 2 ^ Zpos (digits2_pos (mx * my))) as H.
  { rewrite Z.pow_add_r by lia. rewrite Pos2Z.inj_mul in U.
    assert (0 < 2 ^ (Zpos (digits2_pos mx) - 1)) by (apply Z.pow_pos_nonneg; lia).
    assert (0 < 2 ^ (Zpos (digits2_pos my) - 1)) by (apply Z.pow_pos_nonneg; lia).
    nia. }
  apply Z.pow_lt_mono_r_iff in H; lia.
Qed.

Theorem SFmul_spec (x y : spec_float) :
  valid x = true -> valid y = true ->
  is_finite_SF x = true -> is_finite_SF y = true ->
  rounds_to (SF2R x * SF2R y) (SF64mul x y).
Proof.
  intros Vx Vy Fx Fy.
  destruct x as [sx|sx| |sx mx ex], y as [sy|sy| |sy my ey]; try discriminate;
    unfold SF64mul; cbn [SFmul SF2R].
  - apply rounds_to_exact; try reflexivity. cbn [SF2R]. lra.
  - apply rounds_to_exact; try reflexivity. cbn [SF2R]. lra.
  - apply rounds_to_exact; try reflexivity. cbn [SF2R]. lra.
  - replace (F2R sx mx ex * F2R sy my ey)%R
      with (signed (xorb sx sy) (IZR (Zpos (mx * my)) * pow2 (ex + ey))).
    + apply binary_round_aux_rounds_to; [lia|reflexivity|].
      apply valid_finite_inv in Vx as (_ & Cx & _).
      apply valid_finite_inv in Vy as (_ & Cy & _).
      pose proof (Zdigits2_mul_ge mx my). rewrite fexp64_eq.
      assert (0 < Zpos (digits2_pos mx)) by lia. assert (0 < Zpos (digits2_pos my)) by lia.
      lia.
    + rewrite !F2R_signed, Pos2Z.inj_mul, mult_IZR, pow2_add.
      destruct sx, sy; cbn [xorb signed]; ring.
Qed.

(** *** Division *)

Lemma new_location_spec (n k : Z) :
  0 <= k < n ->
  match new_location n k with
  | loc_Exact => k = 0
  | loc_Inexact Lt => 0 < k /\ 2 * k < n
  | loc_Inexact Eq => 2 * k = n
  | loc_Inexact Gt => n < 2 * k
  end.
Proof.
  intros Hk. unfold new_location, new_location_even, new_location_odd.
  destruct (Z.even n) eqn:En; destruct (Z.eqb_spec k 0) as [H0|H0]; try exact H0.
  - destruct (Z.compare_spec (2 * k) n); lia.
  - destruct (Z.compare_spec (2 * k + 1) n) as [H|H|H]; try lia.
    assert (2 * k <> n); [|lia].
    intros <-. rewrite Z.even_mul in En. discriminate.
Qed.

Lemma located_quotient (q r d e : Z) (x : R) :
  0 < d -> 0 <= r < d ->
  x = ((IZR q + IZR r / IZR d) * pow2 e)%R ->
  located x e (shr_record_of_loc q (new_location d r)).
Proof.
  intros Hd Hr ->. pose proof (new_location_spec d r Hr) as H.
  pose proof (pow2_pos e) as Hp.
  assert (0 < IZR d)%R as Hd' by (apply IZR_lt; exact Hd).
  set (t := (IZR r / IZR d)%R).
  assert (Ht : (t * IZR d = IZR r)%R) by (unfold t; field; lra).
  unfold located. rewrite shr_record_of_loc_m.
  destruct (new_location d r) as [|[| |]]; cbn [shr_record_of_loc shr_r shr_s].
  - subst r. assert (t = 0%R) as -> by nra. lra.
  - assert (t = (1 / 2)%R) as ->; [|lra].
    apply (f_equal IZR) in H. rewrite mult_IZR in H. nra.
  - assert (0 < t < 1 / 2)%R; [|nra].
    destruct H as [H1 H2]. apply IZR_lt in H1, H2. rewrite mult_IZR in H2. split; nra.
  - assert (1 / 2 < t < 1)%R; [|nra].
    destruct Hr as [_ Hr]. apply IZR_lt in H, Hr. rewrite mult_IZR in H. split; nra.
Qed.

Lemma SFdiv_core_binary_spec (mx my : positive) (ex ey : Z) :
  exists q e l,
    SFdiv_core_binary prec emax (Zpos mx) ex (Zpos my) ey = (q, e, l) /\
    0 <= q /\
    located (IZR (Zpos mx) * pow2 ex / (IZR (Zpos my) * pow2 ey)) e (shr_record_of_loc q l) /\
    e <= fexp64 (Zdigits2 q + e).
Proof.
  unfold SFdiv_core_binary. cbn [Zdigits2].
  set (d1 := Zpos (digits2_pos mx)). set (d2 := Zpos (digits2_pos my)).
  set (e' := Z.min (fexp64 (d1 + ex - (d2 + ey))) (ex - ey)).
  set (s := ex - ey - e').
  assert (Hs : 0 <= s) by (unfold s, e'; lia).
  set (m' := match s with Zpos _ => Z.shiftl (Zpos mx) s | 0 => Zpos mx | Zneg _ => 0 end).
  assert (Hm' : m' = Zpos mx * 2 ^ s).
  { unfold m'. destruct s as [|p|p] eqn:Es; [simpl; lia | | lia].
    apply Z.shiftl_mul_pow2. lia. }
  pose proof (Z_div_mod m' (Zpos my) ltac:(lia)) as Hdiv.
  destruct (Z.div_eucl m' (Zpos my)) as [q r]. destruct Hdiv as [Hqr Hr].
  pose proof (digits2_pos_bounds mx) as [L1 U1]. fold d1 in L1, U1.
  pose proof (digits2_pos_bounds my) as [L2 U2]. fold d2 in L2, U2.
  assert (Hpow : 0 < 2 ^ s) by (apply Z.pow_pos_nonneg; lia).
  assert (Hq : 0 <= q) by nia.
  exists q, e', (new_location (Zpos my) r). split; [reflexivity|]. split; [exact Hq|]. split.
  - apply located_quotient; [lia | exact Hr |].
    pose proof (pow2_pos ey). pose proof (pow2_pos e').
    assert (0 < IZR (Zpos my))%R by (apply IZR_lt; lia).
    replace (pow2 ex) with (pow2 (s + e' + ey)) by (f_equal; unfold s; lia).
    rewrite !pow2_add.
    replace (IZR q + IZR r / IZR (Zpos my))%R with (IZR m' / IZR (Zpos my))%R.
    + rewrite Hm', mult_IZR, <- pow2_IZR by exact Hs. field. split; lra.
    + rewrite Hqr, plus_IZR, mult_IZR. field. lra.
  - rewrite fexp64_eq. destruct (Z_le_gt_dec e' (-1074)) as [C|C]; [lia|].
    assert (He' : e' <= d1 + ex - (d2 + ey) - 53).
    { unfold e' in *. rewrite fexp64_eq in *. lia. }
    assert (Hbig : 2 ^ 52 <= q).
    { assert (2 ^ (52 + d2) <= m') as Hm52.
      { rewrite Hm'. apply Z.le_trans with (2 ^ (d1 - 1) * 2 ^ s); [|nia].
        rewrite <- Z.pow_add_r by lia. apply Z.pow_le_mono_r; unfold s; lia. }
      rewrite Z.pow_add_r in Hm52 by lia.
      assert (0 < 2 ^ d2) by (apply Z.pow_pos_nonneg; lia).
      assert (0 < 2 ^ 52) by reflexivity. nia. }
    pose proof (Zdigits2_bounds q ltac:(lia)) as [_ Uq].
    assert (52 < Zdigits2 q); [|lia].
    apply (Z.pow_lt_mono_r_iff 2); [lia | | lia].
    apply Zdigits2_nonneg; lia.
Qed.

Theorem SFdiv_spec (x : spec_float) (sy : bool) (my : positive) (ey : Z) :
  valid x = true -> is_finite_SF x = true ->
  rounds_to (SF2R x / F2R sy my ey) (SF64div x (S754_finite sy my ey)).
Proof.
  intros Vx Fx. pose proof (F2R_pos my ey) as Hy.
  destruct x as [sx|sx| |sx mx ex]; try discriminate; unfold SF64div; cbn [SFdiv SF2R].
  - apply rounds_to_exact; try reflexivity. cbn [SF2R]. unfold Rdiv. lra.
  - destruct (SFdiv_core_binary_spec mx my ex ey) as (q & e & l & -> & Hq & Hloc & Hn).
    replace (F2R sx mx ex / F2R sy my ey)%R
      with (signed (xorb sx sy) (IZR (Zpos mx) * pow2 ex / (IZR (Zpos my) * pow2 ey))).
    + apply binary_round_aux_rounds_to; assumption.
    + rewrite !F2R_signed. pose proof (pow2_pos ey).
      assert (0 < IZR (Zpos my))%R by (apply IZR_lt; lia).
      destruct sx, sy; cbn [xorb signed]; field; split; lra.
Qed.

(** *** Primitive floats *)

Lemma F2R_integer (k : Z) (m : positive) (e : Z) :
  e <= 0 -> Zpos m = k * 2 ^ (- e) -> F2R false m e = IZR k.
Proof.
  intros He Hm. unfold F2R, cond_Zopp. rewrite Hm, scaled_value by lia.
  replace (- e + e) with 0 by lia. rewrite pow2_0. ring.
Qed.

Ltac float_const :=
  unfold FR, finite;
  match goal with
  | |- context [Prim2SF ?c] =>
      let v := eval vm_compute in (Prim2SF c) in
      change (Prim2SF c) with v
  end;
  cbn [SF2R is_finite_SF];
  first [ reflexivity | apply F2R_integer; [lia | reflexivity] ].

Lemma FR_0 : FR 0 = 0%R. Proof. float_const. Qed.
Lemma FR_1 : FR 1 = 1%R. Proof. float_const. Qed.
Lemma FR_60 : FR 60 = 60%R. Proof. float_const. Qed.
Lemma FR_120 : FR 120 = 120%R. Proof. float_const. Qed.
Lemma FR_240 : FR 240 = 240%R. Proof. float_const. Qed.
Lemma FR_360 : FR 360 = 360%R. Proof. float_const. Qed.
Lemma finite_0 : finite 0. Proof. float_const. Qed.
Lemma finite_1 : finite 1. Proof. float_const. Qed.
Lemma finite_60 : finite 60. Proof. float_const. Qed.
Lemma finite_360 : finite 360. Proof. float_const. Qed.

Lemma pow2_1023_large : (1000 < pow2 1023)%R.
Proof.
  apply Rlt_le_trans with (pow2 10); [|apply pow2_le; lia].
  rewrite pow2_IZR by lia. apply IZR_lt. reflexivity.
Qed.

(** Comparisons *)

Lemma compare_R (x y : float) :
  finite x -> finite y ->
  exists c, SFcompare (Prim2SF x) (Prim2SF y) = Some c /\ Rorder c (FR x) (FR y).
Proof. intros Fx Fy. apply SFcompare_spec; auto using Prim2SF_valid. Qed.

Lemma ltb_R (x y : float) :
  finite x -> finite y -> ((x <? y)%float = true <-> (FR x < FR y)%R).
Proof.
  intros Fx Fy. rewrite FloatAxioms.ltb_spec. unfold SFltb.
  destruct (compare_R x y Fx Fy) as (c & -> & Hc).
  destruct c; cbn [Rorder] in Hc; split; intros H; try discriminate; try reflexivity; lra.
Qed.

Lemma leb_R (x y : float) :
  finite x -> finite y -> ((x <=? y)%float = true <-> (FR x <= FR y)%R).
Proof.
  intros Fx Fy. rewrite FloatAxioms.leb_spec. unfold SFleb.
  destruct (compare_R x y Fx Fy) as (c & -> & Hc).
  destruct c; cbn [Rorder] in Hc; split; intros H; try discriminate; try reflexivity; lra.
Qed.

Lemma eqb_R (x y : float) :
  finite x -> finite y -> ((x =? y)%float = true <-> FR x = FR y).
Proof.
  intros Fx Fy. rewrite FloatAxioms.eqb_spec. unfold SFeqb.
  destruct (compare_R x y Fx Fy) as (c & -> & Hc).
  destruct c; cbn [Rorder] in Hc; split; intros H; try discriminate; try reflexivity; lra.
Qed.

Lemma ltb_R_false (x y : float) :
  finite x -> finite y -> ((x <? y)%float = false <-> (FR y <= FR x)%R).
Proof.
  intros Fx Fy. pose proof (ltb_R x y Fx Fy) as H.
  destruct (x <? y)%float; split; intros H'; try discriminate; try reflexivity.
  - assert (FR x < FR y)%R by (apply H; reflexivity). lra.
  - destruct (Rlt_le_dec (FR x) (FR y)) as [C|C]; [|exact C].
    apply H in C. discriminate.
Qed.

(** A float between two finite floats is finite. *)
Lemma finite_between (a x b : float) :
  finite a -> finite b ->
  (a <=? x)%float = true -> (x <=? b)%float = true -> finite x.
Proof.
  unfold finite. rewrite !FloatAxioms.leb_spec. unfold SFleb.
  destruct (Prim2SF a) as [sa|sa| |sa ma ea], (Prim2SF b) as [sb|sb| |sb mb eb],
    (Prim2SF x) as [sx|[|]| |sx mx ex]; cbn [SFcompare is_finite_SF];
    try discriminate; try reflexivity;
    repeat match goal with s : bool |- _ => destruct s end; discriminate.
Qed.

(** Operations *)

Lemma rounds_to_finite (X : R) (z : spec_float) :
  rounds_to X z -> (Rabs X < pow2 1023)%R ->
  is_finite_SF z = true /\ Rnd X (SF2R z).
Proof. intros [[_ H]|H] Hb; [lra | exact H]. Qed.

Lemma add_R (x y : float) :
  finite x -> finite y -> (Rabs (FR x + FR y) < pow2 1023)%R ->
  finite (x + y) /\ Rnd (FR x + FR y) (FR (x + y)).
Proof.
  intros Fx Fy Hb. unfold finite, FR. rewrite add_spec.
  apply rounds_to_finite; [|exact Hb].
  apply SFadd_spec; auto using Prim2SF_valid.
Qed.

Lemma sub_R (x y : float) :
  finite x -> finite y -> (Rabs (FR x - FR y) < pow2 1023)%R ->
  finite (x - y) /\ Rnd (FR x - FR y) (FR (x - y)).
Proof.
  intros Fx Fy Hb. unfold finite, FR. rewrite sub_spec.
  apply rounds_to_finite; [|exact Hb].
  apply SFsub_spec; auto using Prim2SF_valid.
Qed.

Lemma mul_R (x y : float) :
  finite x -> finite y -> (Rabs (FR x * FR y) < pow2 1023)%R ->
  finite (x * y) /\ Rnd (FR x * FR y) (FR (x * y)).
Proof.
  intros Fx Fy Hb. unfold finite, FR. rewrite mul_spec.
  apply rounds_to_finite; [|exact Hb].
  apply SFmul_spec; auto using Prim2SF_valid.
Qed.

Lemma div_R (x y : float) :
  finite x -> finite y -> FR y <> 0%R -> (Rabs (FR x / FR y) < pow2 1023)%R ->
  finite (x / y) /\ Rnd (FR x / FR y) (FR (x / y)).
Proof.
  intros Fx Fy Hy Hb. unfold finite, FR in *. rewrite div_spec.
  apply rounds_to_finite; [|exact Hb].
  destruct (Prim2SF y) as [sy|sy| |sy my ey] eqn:Ey; try discriminate;
    cbn [SF2R] in *; [congruence|].
  apply SFdiv_spec; auto using Prim2SF_valid.
Qed.

(** Rounding against floats *)

Lemma Rnd_le (x z : R) (v : float) : Rnd x z -> (x <= FR v)%R -> (z <= FR v)%R.
Proof. intros H. apply Rnd_le_SF; [exact H | apply Prim2SF_valid]. Qed.

Lemma Rnd_ge (x z : R) (v : float) : Rnd x z -> (FR v <= x)%R -> (FR v <= z)%R.
Proof. intros H. apply Rnd_ge_SF; [exact H | apply Prim2SF_valid]. Qed.

Lemma Rnd_opp (x z : R) : Rnd x z -> Rnd (- x) (- z).
Proof.
  intros [[Hx H]|[Hx H]]; [right | left].
  - rewrite !Ropp_involutive. split; [lra | exact H].
  - split; [lra | exact H].
Qed.

Lemma Rnd_abs_le (x z : R) (v : float) :
  Rnd x z -> (Rabs x <= FR v)%R -> (Rabs z <= FR v)%R.
Proof.
  intros H Hb. apply Rabs_le.
  assert (- FR v <= x <= FR v)%R as [Hlo Hhi]
    by (unfold Rabs in Hb; destruct (Rcase_abs x); lra).
  split.
  - pose proof (Rnd_le _ _ v (Rnd_opp _ _ H)). lra.
  - apply (Rnd_le _ _ v H). exact Hhi.
Qed.

End Binary64.
Import Binary64.

(** * Properties *)

(** ** The embedding on small inputs *)

Example parseFloat_negative_zero : get_sign (parseFloat (-0)) = false.
Proof. reflexivity. Qed.

Example Math_max_of_zeros : get_sign (Math_max [-0; 0]) = false.
Proof. reflexivity. Qed.

Example Math_min_of_zeros : get_sign (Math_min [0; -0]) = true.
Proof. reflexivity. Qed.

Example Math_max_with_NaN : is_nan (Math_max [1; nan; 2]) = true.
Proof. reflexivity. Qed.

Example Math_max_of_nothing : Math_max [] = neg_infinity.
Proof. reflexivity. Qed.

Example hue_of_red : hue (hsvOf (mkColor 1 0 0)) = 0.
Proof. reflexivity. Qed.

Example hue_of_green : hue (hsvOf (mkColor 0 1 0)) = 120.
Proof. reflexivity. Qed.

Example hue_of_blue : hue (hsvOf (mkColor 0 0 1)) = 240.
Proof. reflexivity. Qed.

Example hue_of_magenta : hue (hsvOf (mkColor 1 0 1)) = 300.
Proof. reflexivity. Qed.

Example luma_of_white : luma (hsvOf (mkColor 1 1 1)) = 0.3 + 0.59 + 0.11.
Proof. reflexivity. Qed.

Example filter_keeps_shapes_only :
  getLayersWithBackgroundColor symbolScene [1; 2; 3; 4]%positive = Ok [4%positive].
Proof. reflexivity. Qed.

(** ** Small facts about the error monad and the heap *)

Lemma deref_Some (h : heap) (r : ref) (l : MSLayer) :
  h !! r = Some l -> deref h r = Ok l.
Proof. intros E. unfold deref. rewrite E. reflexivity. Qed.

(** ** The number helpers on finite floats *)

Lemma finite_not_nan (x : float) : finite x -> is_nan x = false.
Proof.
  unfold finite, is_nan. rewrite FloatAxioms.eqb_spec. unfold SFeqb.
  generalize (Prim2SF_valid x).
  destruct (Prim2SF x) as [s|s| |s m e]; cbn [is_finite_SF]; try discriminate.
  - destruct s; reflexivity.
  - intros _ _. cbn [SFcompare].
    destruct s; rewrite Z.compare_refl, Pos.compare_cont_refl; reflexivity.
Qed.

Lemma parseFloat_R (x : float) :
  finite x -> finite (parseFloat x) /\ FR (parseFloat x) = FR x.
Proof.
  intros Fx. unfold parseFloat, is_zero. destruct (x =? zero) eqn:E.
  - split; [exact finite_0|]. apply (eqb_R x 0 Fx finite_0) in E. rewrite E. reflexivity.
  - auto.
Qed.

Lemma ltb_neg_infinity (x : float) : finite x -> (neg_infinity <? x) = true.
Proof.
  unfold finite. rewrite FloatAxioms.ltb_spec.
  change (Prim2SF neg_infinity) with (S754_infinity true).
  destruct (Prim2SF x) as [s|s| |s m e]; try discriminate; reflexivity.
Qed.

Lemma ltb_infinity (x : float) : finite x -> (x <? infinity) = true.
Proof.
  unfold finite. rewrite FloatAxioms.ltb_spec.
  change (Prim2SF infinity) with (S754_infinity false).
  destruct (Prim2SF x) as [s|s| |s m e]; try discriminate; reflexivity.
Qed.

Lemma max2_R (a b : float) :
  finite a -> finite b ->
  (max2 a b = a \/ max2 a b = b) /\
  (FR a <= FR (max2 a b))%R /\ (FR b <= FR (max2 a b))%R.
Proof.
  intros Fa Fb. unfold max2.
  destruct (is_zero b && is_zero a && get_sign a && negb (get_sign b)) eqn:E.
  - apply andb_prop in E as [E _]. apply andb_prop in E as [E _].
    apply andb_prop in E as [Eb Ea]. unfold is_zero in *.
    apply (eqb_R _ _ Fb finite_0) in Eb. apply (eqb_R _ _ Fa finite_0) in Ea.
    split; [right; reflexivity|]. lra.
  - destruct (a <? b) eqn:L.
    + apply (ltb_R a b Fa Fb) in L. split; [right; reflexivity|]. lra.
    + apply (ltb_R_false a b Fa Fb) in L. split; [left; reflexivity|]. lra.
Qed.

Lemma min2_R (a b : float) :
  finite a -> finite b ->
  (min2 a b = a \/ min2 a b = b) /\
  (FR (min2 a b) <= FR a)%R /\ (FR (min2 a b) <= FR b)%R.
Proof.
  intros Fa Fb. unfold min2.
  destruct (is_zero b && is_zero a && negb (get_sign a) && get_sign b) eqn:E.
  - apply andb_prop in E as [E _]. apply andb_prop in E as [E _].
    apply andb_prop in E as [Eb Ea]. unfold is_zero in *.
    apply (eqb_R _ _ Fb finite_0) in Eb. apply (eqb_R _ _ Fa finite_0) in Ea.
    split; [right; reflexivity|]. lra.
  - destruct (b <? a) eqn:L.
    + apply (ltb_R b a Fb Fa) in L. split; [right; reflexivity|]. lra.
    + apply (ltb_R_false b a Fb Fa) in L. split; [left; reflexivity|]. lra.
Qed.

Lemma Math_max_R (r g b : float) :
  finite r -> finite g -> finite b ->
  let m := Math_max [r; g; b] in
  (m = r \/ m = g \/ m = b) /\
  (FR r <= FR m)%R /\ (FR g <= FR m)%R /\ (FR b <= FR m)%R.
Proof.
  intros Fr Fg Fb. unfold Math_max. cbn [existsb fold_left].
  rewrite !finite_not_nan by assumption. cbn [orb].
  assert (E : max2 neg_infinity r = r).
  { unfold max2. rewrite (ltb_neg_infinity r Fr).
    change (is_zero neg_infinity) with false. rewrite andb_false_r. reflexivity. }
  rewrite E.
  destruct (max2_R r g Fr Fg) as (H1 & L1 & L2).
  assert (F1 : finite (max2 r g)) by (destruct H1 as [-> | ->]; assumption).
  destruct (max2_R (max2 r g) b F1 Fb) as (H2 & L3 & L4).
  cbv zeta. split; [|repeat split; lra].
  destruct H2 as [-> | ->]; [destruct H1 as [-> | ->]|]; auto.
Qed.

Lemma Math_min_R (r g b : float) :
  finite r -> finite g -> finite b ->
  let m := Math_min [r; g; b] in
  (m = r \/ m = g \/ m = b) /\
  (FR m <= FR r)%R /\ (FR m <= FR g)%R /\ (FR m <= FR b)%R.
Proof.
  intros Fr Fg Fb. unfold Math_min. cbn [existsb fold_left].
  rewrite !finite_not_nan by assumption. cbn [orb].
  assert (E : min2 infinity r = r).
  { unfold min2. rewrite (ltb_infinity r Fr).
    change (is_zero infinity) with false. rewrite andb_false_r. reflexivity. }
  rewrite E.
  destruct (min2_R r g Fr Fg) as (H1 & L1 & L2).
  assert (F1 : finite (min2 r g)) by (destruct H1 as [-> | ->]; assumption).
  destruct (min2_R (min2 r g) b F1 Fb) as (H2 & L3 & L4).
  cbv zeta. split; [|repeat split; lra].
  destruct H2 as [-> | ->]; [destruct H1 as [-> | ->]|]; auto.
Qed.

(** ** Colour model *)

(** *** The tie between red and green *)

(** C2, counterexample: at (1, 1, 0.5) the hue is not 0. *)
Lemma C2_counterexample_hue_not_zero : hue (hsvOf paleYellow) <> 0.
Proof.
  intros H.
  assert (E : (hue (hsvOf paleYellow) =? 0) = false) by (vm_compute; reflexivity).
  rewrite H in E. vm_compute in E. discriminate.
Qed.

(** C2, as amended: at (1, 1, 0.5) the red and the green channel both equal
    the maximum, the red arm is the one that fires, and the hue is 60. *)
Theorem C2_tie_resolves_by_red_arm :
  let r := parseFloat (red paleYellow) in
  let g := parseFloat (green paleYellow) in
  let b := parseFloat (blue paleYellow) in
  let max := Math_max [r; g; b] in
  let min := Math_min [r; g; b] in
  (r =? max) = true /\ (g =? max) = true /\
  hue (hsvOf paleYellow) = hueR g b min (max - min) /\
  hue (hsvOf paleYellow) = 60.
Proof. vm_compute. repeat split; reflexivity. Qed.

(** *** The hue stays between 0 and 360 *)

Lemma channel_R (x : float) : channel x -> finite x /\ (0 <= FR x <= 1)%R.
Proof.
  intros [H0 H1].
  assert (Fx : finite x) by exact (finite_between 0 x 1 finite_0 finite_1 H0 H1).
  split; [exact Fx|].
  apply (leb_R 0 x finite_0 Fx) in H0. apply (leb_R x 1 Fx finite_1) in H1.
  rewrite FR_0 in H0. rewrite FR_1 in H1. lra.
Qed.

Lemma Rabs_small (x : R) : (Rabs x <= 1000)%R -> (Rabs x < pow2 1023)%R.
Proof. pose proof pow2_1023_large. lra. Qed.

(** The part the three arms share: [60 * ((u - min - (v - min)) / chr)] for
    two channels [u] and [v] between [min] and [max]. *)
Lemma scaled_difference_R (u v min chr : float) (M : R) :
  finite u -> finite v -> finite min -> finite chr ->
  (0 <= FR min)%R -> (M <= 1)%R ->
  (FR min <= FR u <= M)%R -> (FR min <= FR v <= M)%R ->
  Rnd (M - FR min) (FR chr) -> (0 < FR chr)%R ->
  finite (60 * ((u - min - (v - min)) / chr)) /\
  (Rabs (FR (60 * ((u - min - (v - min)) / chr))) <= 60)%R.
Proof.
  intros Fu Fv Fm Fc Hm HM Hu Hv Hchr Hpos.
  assert (Hc1 : (FR chr <= 1)%R).
  { rewrite <- FR_1. apply (Rnd_le _ _ 1 Hchr). rewrite FR_1. lra. }
  (* a = u - min and c = v - min lie between 0 and chr *)
  destruct (sub_R u min Fu Fm) as [Fa Ra]; [apply Rabs_small, Rabs_le; lra|].
  destruct (sub_R v min Fv Fm) as [Fb Rb]; [apply Rabs_small, Rabs_le; lra|].
  set (a := u - min) in *. set (c := v - min) in *.
  assert (Ha : (0 <= FR a <= FR chr)%R).
  { split; [apply (Rnd_sign _ _ Ra); lra|]. apply (Rnd_mono _ _ _ _ Ra Hchr). lra. }
  assert (Hb : (0 <= FR c <= FR chr)%R).
  { split; [apply (Rnd_sign _ _ Rb); lra|]. apply (Rnd_mono _ _ _ _ Rb Hchr). lra. }
  (* d = a - c lies between -chr and chr *)
  destruct (sub_R a c Fa Fb) as [Fd Rd]; [apply Rabs_small, Rabs_le; lra|].
  set (d := a - c) in *.
  assert (Hd : (Rabs (FR d) <= FR chr)%R).
  { apply (Rnd_abs_le _ _ chr Rd). apply Rabs_le. lra. }
  (* q = d / chr lies between -1 and 1 *)
  assert (Hq0 : (Rabs (FR d / FR chr) <= 1)%R).
  { unfold Rdiv. rewrite Rabs_mult, (Rabs_pos_eq (/ FR chr)).
    - apply Rmult_le_reg_r with (FR chr); [exact Hpos|].
      rewrite Rmult_assoc, Rinv_l by lra. lra.
    - apply Rlt_le, Rinv_0_lt_compat, Hpos. }
  destruct (div_R d chr Fd Fc) as [Fq Rq]; [lra | apply Rabs_small; lra |].
  set (q := d / chr) in *.
  assert (Hq : (Rabs (FR q) <= 1)%R).
  { rewrite <- FR_1. apply (Rnd_abs_le _ _ 1 Rq). rewrite FR_1. exact Hq0. }
  (* 60 * q lies between -60 and 60 *)
  assert (Hh0 : (Rabs (FR 60 * FR q) <= 60)%R).
  { rewrite FR_60, Rabs_mult, (Rabs_pos_eq 60) by lra. lra. }
  destruct (mul_R 60 q finite_60 Fq) as [Fh Rh]; [apply Rabs_small; lra|].
  split; [exact Fh|].
  apply (Rle_trans _ (FR 60)); [|rewrite FR_60; lra].
  apply (Rnd_abs_le _ _ 60 Rh). apply (Rle_trans _ 60); [exact Hh0 | rewrite FR_60; lra].
Qed.

Lemma in_hue_range (x : float) :
  finite x -> (0 <= FR x <= 360)%R -> (0 <=? x) = true /\ (x <=? 360) = true.
Proof.
  intros Fx H. split.
  - apply (leb_R 0 x finite_0 Fx). rewrite FR_0. lra.
  - apply (leb_R x 360 Fx finite_360). rewrite FR_360. lra.
Qed.

Lemma offset_hue_R (base h : float) (B : R) :
  finite base -> FR base = B -> (60 <= B <= 300)%R ->
  finite h -> (Rabs (FR h) <= 60)%R ->
  finite (base + h) /\ (0 <= FR (base + h) <= 360)%R.
Proof.
  intros Fb Eb HB Fh Hh.
  assert (- 60 <= FR h <= 60)%R as Hh'
    by (unfold Rabs in Hh; destruct (Rcase_abs (FR h)); lra).
  destruct (add_R base h Fb Fh) as [F Rn]; [apply Rabs_small, Rabs_le; lra|].
  split; [exact F|]. split.
  - rewrite <- FR_0. apply (Rnd_ge _ _ 0 Rn). rewrite FR_0. lra.
  - rewrite <- FR_360. apply (Rnd_le _ _ 360 Rn). rewrite FR_360. lra.
Qed.

Lemma finite_120 : finite 120. Proof. float_const. Qed.
Lemma finite_240 : finite 240. Proof. float_const. Qed.

Lemma hueR_R (g b min chr : float) (M : R) :
  finite g -> finite b -> finite min -> finite chr ->
  (0 <= FR min)%R -> (M <= 1)%R ->
  (FR min <= FR g <= M)%R -> (FR min <= FR b <= M)%R ->
  Rnd (M - FR min) (FR chr) -> (0 < FR chr)%R ->
  finite (hueR g b min chr) /\ (0 <= FR (hueR g b min chr) <= 360)%R.
Proof.
  intros Fg Fb Fm Fc Hm HM Hg Hb Hchr Hpos.
  destruct (scaled_difference_R g b min chr M) as [Fh Hh]; try assumption.
  unfold hueR. set (h := 60 * ((g - min - (b - min)) / chr)) in *.
  assert (- 60 <= FR h <= 60)%R as Hh'
    by (unfold Rabs in Hh; destruct (Rcase_abs (FR h)); lra).
  destruct (h <? 0) eqn:E.
  - apply (ltb_R h 0 Fh finite_0) in E. rewrite FR_0 in E.
    destruct (add_R h 360 Fh finite_360) as [F Rn];
      [rewrite FR_360; apply Rabs_small, Rabs_le; lra|].
    rewrite FR_360 in Rn. split; [exact F|]. split.
    + rewrite <- FR_0. apply (Rnd_ge _ _ 0 Rn). rewrite FR_0. lra.
    + rewrite <- FR_360. apply (Rnd_le _ _ 360 Rn). rewrite FR_360. lra.
  - apply (ltb_R_false h 0 Fh finite_0) in E. rewrite FR_0 in E.
    split; [exact Fh|]. lra.
Qed.

Lemma hueG_R (r b min chr : float) (M : R) :
  finite r -> finite b -> finite min -> finite chr ->
  (0 <= FR min)%R -> (M <= 1)%R ->
  (FR min <= FR r <= M)%R -> (FR min <= FR b <= M)%R ->
  Rnd (M - FR min) (FR chr) -> (0 < FR chr)%R ->
  finite (hueG r b min chr) /\ (0 <= FR (hueG r b min chr) <= 360)%R.
Proof.
  intros Fr Fb Fm Fc Hm HM Hr Hb Hchr Hpos.
  destruct (scaled_difference_R b r min chr M) as [Fh Hh]; try assumption.
  unfold hueG. apply (offset_hue_R 120 _ 120); try assumption.
  - exact finite_120.
  - exact FR_120.
  - lra.
Qed.

Lemma hueB_R (r g min chr : float) (M : R) :
  finite r -> finite g -> finite min -> finite chr ->
  (0 <= FR min)%R -> (M <= 1)%R ->
  (FR min <= FR r <= M)%R -> (FR min <= FR g <= M)%R ->
  Rnd (M - FR min) (FR chr) -> (0 < FR chr)%R ->
  finite (hueB r g min chr) /\ (0 <= FR (hueB r g min chr) <= 360)%R.
Proof.
  intros Fr Fg Fm Fc Hm HM Hr Hg Hchr Hpos.
  destruct (scaled_difference_R r g min chr M) as [Fh Hh]; try assumption.
  unfold hueB. apply (offset_hue_R 240 _ 240); try assumption.
  - exact finite_240.
  - exact FR_240.
  - lra.
Qed.

Theorem hsvOf_hue_R (c : MSColor) :
  inGamut c -> finite (hue (hsvOf c)) /\ (0 <= FR (hue (hsvOf c)) <= 360)%R.
Proof.
  intros (Hr & Hg & Hb).
  apply channel_R in Hr as [Fr0 Rr0]. apply channel_R in Hg as [Fg0 Rg0].
  apply channel_R in Hb as [Fb0 Rb0].
  destruct (parseFloat_R _ Fr0) as [Fr Er]. destruct (parseFloat_R _ Fg0) as [Fg Eg].
  destruct (parseFloat_R _ Fb0) as [Fb Eb].
  unfold hsvOf. cbn [hue].
  set (r := parseFloat (red c)) in *. set (g := parseFloat (green c)) in *.
  set (b := parseFloat (blue c)) in *.
  rewrite <- Er in Rr0. rewrite <- Eg in Rg0. rewrite <- Eb in Rb0.
  pose proof (Math_max_R r g b Fr Fg Fb) as (Hmax & M1 & M2 & M3).
  pose proof (Math_min_R r g b Fr Fg Fb) as (Hmin & m1 & m2 & m3).
  set (max := Math_max [r; g; b]) in *. set (min := Math_min [r; g; b]) in *.
  assert (Fmax : finite max) by (destruct Hmax as [-> | [-> | ->]]; assumption).
  assert (Fmin : finite min) by (destruct Hmin as [-> | [-> | ->]]; assumption).
  assert (Rmax : (0 <= FR max <= 1)%R) by (destruct Hmax as [-> | [-> | ->]]; lra).
  assert (Rmin : (0 <= FR min <= 1)%R) by (destruct Hmin as [-> | [-> | ->]]; lra).
  assert (trivial : finite 0 /\ (0 <= FR 0 <= 360)%R)
    by (split; [exact finite_0 | rewrite FR_0; lra]).
  destruct (0 <? max) eqn:Eval; [|exact trivial].
  apply (ltb_R 0 max finite_0 Fmax) in Eval. rewrite FR_0 in Eval.
  destruct (sub_R max min Fmax Fmin) as [Fchr Rchr]; [apply Rabs_small, Rabs_le; lra|].
  set (chr := max - min) in *.
  assert (Hchr : (0 <= FR chr <= FR max)%R).
  { split; [apply (Rnd_sign _ _ Rchr); lra|]. apply (Rnd_le _ _ max Rchr). lra. }
  destruct (div_R chr max Fchr Fmax) as [Fsat Rsat]; [lra | |].
  { apply Rabs_small. apply (Rle_trans _ 1); [|lra].
    unfold Rdiv. rewrite Rabs_mult, (Rabs_pos_eq (FR chr)), (Rabs_pos_eq (/ FR max)).
    - apply Rmult_le_reg_r with (FR max); [exact Eval|].
      rewrite Rmult_assoc, Rinv_l by lra. lra.
    - apply Rlt_le, Rinv_0_lt_compat, Eval.
    - lra. }
  destruct (0 <? chr / max) eqn:Esat; [|exact trivial].
  apply (ltb_R 0 _ finite_0 Fsat) in Esat. rewrite FR_0 in Esat.
  assert (Hpos : (0 < FR chr)%R).
  { destruct (Rle_lt_dec (FR chr) 0) as [C|C]; [|exact C].
    assert (FR chr = 0%R) as E0 by lra. rewrite E0 in Rsat.
    unfold Rdiv in Rsat. rewrite Rmult_0_l in Rsat.
    pose proof (Rnd_unique _ _ _ Rsat Rnd_0). lra. }
  destruct (r =? max); [|destruct (g =? max); [|destruct (b =? max); [|exact trivial]]].
  - apply (hueR_R g b min chr (FR max)); try assumption; lra.
  - apply (hueG_R r b min chr (FR max)); try assumption; lra.
  - apply (hueB_R r g min chr (FR max)); try assumption; lra.
Qed.

(** C6, counterexample: at a red with a trace of blue, (1, 0, 1e-20), the
    saturation is positive and the hue before the wrap-around is about
    -6e-19; adding 360 rounds to 360 itself. *)
Lemma C6_counterexample_hue_360 :
  (0 <? sat (hsvOf nearlyRed)) = true /\
  hue (hsvOf nearlyRed) = 360 /\
  (hue (hsvOf nearlyRed) <? 360) = false.
Proof. vm_compute. repeat split; reflexivity. Qed.

(** C6, as amended: for every colour with its channels between 0 and 1 the
    hue lies in the closed interval from 0 to 360. *)
Theorem C6_hue_between_0_and_360 (c : MSColor) :
  inGamut c ->
  (0 <=? hue (hsvOf c)) = true /\ (hue (hsvOf c) <=? 360) = true.
Proof.
  intros H. destruct (hsvOf_hue_R c H) as [F R]. apply in_hue_range; assumption.
Qed.

(** At the colour where the bound 360 is reached. *)
Lemma C6_hue_between_0_and_360_witness :
  (0 <=? hue (hsvOf nearlyRed)) = true /\ (hue (hsvOf nearlyRed) <=? 360) = true.
Proof.
  apply (C6_hue_between_0_and_360 nearlyRed).
  unfold inGamut, channel. repeat split; reflexivity.
Defined.

(** *** Greys *)

Lemma is_nan_spec (x : float) : is_nan x = true -> x = nan.
Proof.
  unfold is_nan. rewrite FloatAxioms.eqb_spec. unfold SFeqb. intros H.
  apply Prim2SF_inj. change (Prim2SF nan) with S754_nan.
  generalize (Prim2SF_valid x). revert H.
  destruct (Prim2SF x) as [s|s| |s m e]; cbn [SFcompare].
  - destruct s; discriminate.
  - destruct s; discriminate.
  - reflexivity.
  - destruct s; rewrite Z.compare_refl, Pos.compare_cont_refl; discriminate.
Qed.

Lemma ltb_irrefl (x : float) : (x <? x) = false.
Proof.
  rewrite FloatAxioms.ltb_spec. unfold SFltb.
  destruct (Prim2SF x) as [s|s| |s m e]; cbn [SFcompare]; try reflexivity.
  - destruct s; reflexivity.
  - destruct s; rewrite Z.compare_refl, Pos.compare_cont_refl; reflexivity.
Qed.

Lemma not_above_neg_infinity (x : float) :
  is_nan x = false -> (neg_infinity <? x) = false -> x = neg_infinity.
Proof.
  intros Hn H. apply Prim2SF_inj. change (Prim2SF neg_infinity) with (S754_infinity true).
  revert H. rewrite FloatAxioms.ltb_spec.
  change (Prim2SF neg_infinity) with (S754_infinity true). unfold SFltb.
  destruct (Prim2SF x) as [s|s| |s m e] eqn:E; cbn [SFcompare]; try discriminate.
  - destruct s; [reflexivity | discriminate].
  - intros _. assert (is_nan x = true); [|congruence].
    unfold is_nan. rewrite FloatAxioms.eqb_spec, E. reflexivity.
Qed.

Lemma not_below_infinity (x : float) :
  is_nan x = false -> (x <? infinity) = false -> x = infinity.
Proof.
  intros Hn H. apply Prim2SF_inj. change (Prim2SF infinity) with (S754_infinity false).
  revert H. rewrite FloatAxioms.ltb_spec.
  change (Prim2SF infinity) with (S754_infinity false). unfold SFltb.
  destruct (Prim2SF x) as [s|s| |s m e] eqn:E; cbn [SFcompare]; try discriminate.
  - destruct s; [discriminate | reflexivity].
  - intros _. assert (is_nan x = true); [|congruence].
    unfold is_nan. rewrite FloatAxioms.eqb_spec, E. reflexivity.
Qed.

Lemma max2_same (x : float) : max2 x x = x.
Proof.
  unfold max2. rewrite ltb_irrefl.
  destruct (is_zero x && is_zero x && get_sign x && negb (get_sign x)); reflexivity.
Qed.

Lemma min2_same (x : float) : min2 x x = x.
Proof.
  unfold min2. rewrite ltb_irrefl.
  destruct (is_zero x && is_zero x && negb (get_sign x) && get_sign x); reflexivity.
Qed.

Lemma Math_max_same (x : float) : Math_max [x; x; x] = x.
Proof.
  unfold Math_max. cbn [existsb fold_left].
  destruct (is_nan x) eqn:En; cbn [orb].
  - symmetry. apply is_nan_spec, En.
  - assert (E : max2 neg_infinity x = x).
    { unfold max2. change (is_zero neg_infinity) with false.
      rewrite andb_false_r. cbn [andb].
      destruct (neg_infinity <? x) eqn:L; [reflexivity|].
      symmetry. apply not_above_neg_infinity; assumption. }
    rewrite E, !max2_same. reflexivity.
Qed.

Lemma Math_min_same (x : float) : Math_min [x; x; x] = x.
Proof.
  unfold Math_min. cbn [existsb fold_left].
  destruct (is_nan x) eqn:En; cbn [orb].
  - symmetry. apply is_nan_spec, En.
  - assert (E : min2 infinity x = x).
    { unfold min2. change (is_zero infinity) with false.
      rewrite andb_false_r. cbn [andb].
      destruct (x <? infinity) eqn:L; [reflexivity|].
      symmetry. apply not_below_infinity; assumption. }
    rewrite E, !min2_same. reflexivity.
Qed.

(** A positive number that is not the infinity: dividing its difference with
    itself by it gives the positive zero. *)
Lemma zero_chroma_over_value (y : float) :
  (0 <? y) = true -> y <> infinity -> (y - y) / y = 0.
Proof.
  intros Hpos Hinf. apply Prim2SF_inj. rewrite div_spec, sub_spec.
  change (Prim2SF 0) with (S754_zero false).
  revert Hpos. rewrite FloatAxioms.ltb_spec. change (Prim2SF 0) with (S754_zero false).
  unfold SFltb.
  destruct (Prim2SF y) as [s|s| |s m e] eqn:E; cbn [SFcompare]; try discriminate.
  - destruct s; [discriminate|]. intros _. exfalso. apply Hinf.
    apply Prim2SF_inj. rewrite E. reflexivity.
  - destruct s; [discriminate|]. intros _.
    unfold SF64sub, SF64div. cbn [SFsub cond_Zopp]. rewrite Z.sub_diag. reflexivity.
Qed.

Lemma parseFloat_not_infinity (x : float) : x <> infinity -> parseFloat x <> infinity.
Proof.
  unfold parseFloat. destruct (is_zero x); [|auto].
  intros _ H. apply (f_equal Prim2SF) in H. discriminate H.
Qed.

Theorem hsvOf_grey (x : float) :
  x <> infinity ->
  sat (hsvOf (mkColor x x x)) = 0 /\ hue (hsvOf (mkColor x x x)) = 0.
Proof.
  intros Hx. apply parseFloat_not_infinity in Hx.
  unfold hsvOf. cbn [red green blue sat hue].
  set (y := parseFloat x) in *. rewrite Math_max_same, Math_min_same.
  destruct (0 <? y) eqn:E; [|split; reflexivity].
  rewrite (zero_chroma_over_value y E Hx). split; reflexivity.
Qed.

(** C7: a colour with three equal channels, black included, has saturation 0
    and hue 0; and once the background colour of a layer has been read,
    [constructLayerColor] returns its descriptor without throwing, whatever
    the colour.  The channel is any float but the infinity, which is no
    colour: there the chroma [Infinity - Infinity] is [NaN]. *)
Theorem C7_grey_has_no_hue (x : float) (h : heap) (layer : ref) (c : MSColor) :
  x <> infinity ->
  getLayerBackground h layer = Ok (Some c) ->
  sat (hsvOf (mkColor x x x)) = 0 /\
  hue (hsvOf (mkColor x x x)) = 0 /\
  constructLayerColor h layer = Ok (Some (hsvOf c)).
Proof.
  intros Hx Hc. destruct (hsvOf_grey x Hx) as [Hs Hh].
  split; [exact Hs|]. split; [exact Hh|].
  unfold constructLayerColor. rewrite Hc. reflexivity.
Qed.

(** At black, and at the red shape of [fourHues]. *)
Lemma C7_grey_has_no_hue_witness :
  sat (hsvOf (mkColor 0 0 0)) = 0 /\
  hue (hsvOf (mkColor 0 0 0)) = 0 /\
  constructLayerColor fourHues 2%positive = Ok (Some (hsvOf (mkColor 1 0 0))).
Proof.
  apply (C7_grey_has_no_hue 0 fourHues 2%positive (mkColor 1 0 0)).
  - intros H. apply (f_equal Prim2SF) in H. discriminate H.
  - reflexivity.
Defined.

(** ** Background extractor *)

Lemma Array_forEach_unit {A B} (f : A -> result B) (l : list A) :
  Array_forEach f l = Ok tt \/ exists e, Array_forEach f l = Throw e.
Proof.
  induction l as [|x l IH]; simpl; [now left|].
  destruct (f x) as [b|e]; simpl; [exact IH | right; eauto].
Qed.

(** Whatever the children are, the symbol cases never hand a colour back. *)
Lemma getLayerBackground_symbol_no_color (h : heap) (layer : ref) (l : MSLayer) :
  h !! layer = Some l ->
  kind l = MSSymbolInstance \/ kind l = MSSymbolMaster ->
  forall c, getLayerBackground h layer <> Ok (Some c).
Proof.
  intros Hl Hk c. unfold getLayerBackground. rewrite (deref_Some _ _ _ Hl). simpl.
  unfold isKindOfClass.
  destruct Hk as [Hk|Hk]; rewrite Hk; simpl.
  - destruct (symbolMaster l) as [m|]; [|discriminate].
    destruct (deref h m) as [M|e]; simpl; [|discriminate].
    destruct (Array_forEach_unit (shapeChildColor h) (children M)) as [-> | [e ->]];
      simpl; discriminate.
  - destruct (Array_forEach_unit (shapeChildColor h) (children l)) as [-> | [e ->]];
      simpl; discriminate.
Qed.

(** C1 (the code departs from the claim): on a symbol instance whose master
    has the children [text layer; shape filled with red], the extractor
    answers [null], not the red of the shape: the [return] of line 109 leaves
    the arrow function, not [getLayerBackground]. *)
Theorem C1_symbol_instance_background_is_null :
  getLayerBackground symbolScene 1%positive = Ok None /\
  shapeChildColor symbolScene 4%positive = Ok (Some (mkColor 1 0 0)).
Proof. split; vm_compute; reflexivity. Qed.

(** C3, counterexample: a shape without fills makes the extractor throw; it
    does not answer [null]. *)
Lemma C3_counterexample_empty_fills_throw :
  getLayerBackground emptyShapeScene 1%positive = Throw TypeError /\
  getLayerBackground emptyShapeScene 1%positive <> Ok None.
Proof. split; [vm_compute; reflexivity | vm_compute; discriminate]. Qed.

(** C3, as amended: on a shape the extractor returns the colour of the first
    fill when there is one, and throws a [TypeError] when the fill list is
    empty: the access [fills()[0].color()] is not guarded. *)
Theorem C3_shape_background (h : heap) (layer : ref) (l : MSLayer) :
  h !! layer = Some l ->
  kind l = MSShapeGroup ->
  getLayerBackground h layer =
    match fills l with
    | c :: _ => Ok (Some c)
    | [] => Throw TypeError
    end.
Proof.
  intros Hl Hk. unfold getLayerBackground, isKindOfClass, firstFillColor.
  rewrite (deref_Some _ _ _ Hl). simpl. rewrite Hk. simpl.
  destruct (fills l); reflexivity.
Qed.

(** At the red shape of [symbolScene] and at the shape without fills. *)
Lemma C3_shape_background_witness :
  getLayerBackground symbolScene 4%positive = Ok (Some (mkColor 1 0 0)) /\
  getLayerBackground emptyShapeScene 1%positive = Throw TypeError.
Proof.
  split.
  - apply (C3_shape_background symbolScene 4%positive
             (mkLayer MSShapeGroup "background" (mkRect 0 0 40 20) [mkColor 1 0 0] [] None));
      reflexivity.
  - apply (C3_shape_background emptyShapeScene 1%positive
             (mkLayer MSShapeGroup "bare" (mkRect 0 0 40 20) [] [] None));
      reflexivity.
Defined.

(** ** Hue sorter *)

(** The finite floats sit on the grid of the multiples of [2^-1074]. *)
Lemma SF2R_grid (x : spec_float) :
  valid x = true -> exists k : Z, SF2R x = (IZR k * pow2 (-1074))%R.
Proof.
  destruct x as [s|s| |s m e]; intros Hv; cbn [SF2R]; try (exists 0%Z; lra).
  apply valid_finite_inv in Hv as (_ & He & _).
  exists (cond_Zopp s (Zpos m) * 2 ^ (e + 1074))%Z.
  rewrite scaled_value by lia. unfold F2R. do 2 f_equal. lia.
Qed.

(** The sign of a difference of two floats is the sign of the difference of
    the reals: a non-zero difference is never rounded to zero. *)
Lemma sub_positive (x y : float) :
  finite x -> finite y -> (Rabs (FR x - FR y) <= 1000)%R ->
  (0 <? x - y) = true <-> (FR y < FR x)%R.
Proof.
  intros Fx Fy Hb.
  destruct (sub_R x y Fx Fy) as [Fd Rd]; [apply Rabs_small, Hb|].
  rewrite (ltb_R 0 (x - y) finite_0 Fd), FR_0. split; intros H.
  - destruct (Rle_lt_dec (FR x - FR y) 0) as [C|C]; [|lra].
    pose proof (proj2 (Rnd_sign _ _ Rd) C). lra.
  - destruct (SF2R_grid (Prim2SF x) (Prim2SF_valid x)) as [kx Ex].
    destruct (SF2R_grid (Prim2SF y) (Prim2SF_valid y)) as [ky Ey].
    fold (FR x) in Ex. fold (FR y) in Ey.
    pose proof (pow2_pos (-1074)) as Hp.
    assert (Hk : (ky < kx)%Z).
    { apply lt_IZR. rewrite Ex, Ey in H. nra. }
    assert (Hstep : (SF2R (S754_finite false 1 (-1074)) <= FR x - FR y)%R).
    { cbn [SF2R]. unfold F2R, cond_Zopp. rewrite Ex, Ey, <- Rmult_minus_distr_r, <- minus_IZR.
      apply Rmult_le_compat_r; [lra|]. apply IZR_le. lia. }
    apply (Rnd_ge_SF _ _ _ Rd) in Hstep; [|reflexivity].
    cbn [SF2R] in Hstep. unfold F2R, cond_Zopp in Hstep. lra.
Qed.

(** Whatever the comparator answers, a sort that returns has only moved the
    elements. *)
Lemma sort_insert_permutation {A : Type} (compareFn : A -> A -> result float)
    (x : A) (l out : list A) :
  sort_insert compareFn x l = Ok out -> x :: l ≡ₚ out.
Proof.
  revert out. induction l as [|y l IH]; intros out; cbn [sort_insert].
  - intros [= <-]. reflexivity.
  - destruct (compareFn x y) as [v|e]; cbn [mbind result_bind]; [|discriminate].
    destruct (0 <? v).
    + destruct (sort_insert compareFn x l) as [r|e]; cbn [mbind result_bind];
        [|discriminate].
      intros [= <-]. rewrite <- (IH r eq_refl). apply Permutation_swap.
    + intros [= <-]. reflexivity.
Qed.

Lemma Array_sort_permutation {A : Type} (compareFn : A -> A -> result float)
    (l out : list A) :
  Array_sort compareFn l = Ok out -> l ≡ₚ out.
Proof.
  revert out. induction l as [|x l IH]; intros out; cbn [Array_sort].
  - intros [= <-]. reflexivity.
  - destruct (Array_sort compareFn l) as [s|e]; cbn [mbind result_bind]; [|discriminate].
    intros H. apply sort_insert_permutation in H. rewrite <- H.
    constructor. apply IH. reflexivity.
Qed.

Corollary sortLayersByHue_permutation (h : heap) (ls out : list ref) :
  sortLayersByHue h ls = Ok out -> ls ≡ₚ out.
Proof. apply Array_sort_permutation. Qed.

Section SortCorrect.
Context {A : Type} (compareFn : A -> A -> result float) (key : A -> R).

(** On the elements that satisfy [ok] the comparator answers, and its
    answer is positive exactly when the first key is the larger one. *)
Variable ok : A -> Prop.
Hypothesis compare_ok : forall x y, ok x -> ok y ->
  exists v, compareFn x y = Ok v /\ ((0 <? v) = true <-> (key y < key x)%R).

Lemma sort_insert_correct (x : A) (l : list A) :
  ok x -> Forall ok l -> Sorted (key_le key) l ->
  exists l', sort_insert compareFn x l = Ok l' /\
    x :: l ≡ₚ l' /\ Sorted (key_le key) l' /\
    (forall a, HdRel (key_le key) a l -> key_le key a x -> HdRel (key_le key) a l').
Proof.
  intros Hx Hl. induction l as [|y l IH]; intros Hs.
  - exists [x]. cbn [sort_insert]. repeat split; auto.
  - apply Forall_cons in Hl as [Hy Hl].
    destruct (compare_ok x y Hx Hy) as (v & Ev & Hv).
    cbn [sort_insert]. rewrite Ev. cbn [mbind result_bind].
    destruct (0 <? v) eqn:E.
    + assert (key y < key x)%R as Hlt by (apply Hv; reflexivity).
      apply Sorted_inv in Hs as [Hs Hhd].
      destruct (IH Hl Hs) as (l' & -> & Hp & Hs' & Hh).
      exists (y :: l'). cbn [mbind result_bind]. split; [reflexivity|].
      split; [rewrite <- Hp; apply Permutation_swap|].
      split.
      * constructor; [exact Hs'|]. apply Hh; [exact Hhd|]. unfold key_le. lra.
      * intros a Ha _. apply HdRel_inv in Ha. constructor. exact Ha.
    + assert (key x <= key y)%R as Hle.
      { destruct (Rle_lt_dec (key x) (key y)) as [C|C]; [exact C|].
        apply Hv in C. congruence. }
      exists (x :: y :: l). split; [reflexivity|]. split; [reflexivity|].
      split.
      * constructor; [exact Hs|]. constructor. exact Hle.
      * intros a _ Ha. constructor. exact Ha.
Qed.

Lemma Array_sort_correct (l : list A) :
  Forall ok l ->
  exists l', Array_sort compareFn l = Ok l' /\ l ≡ₚ l' /\ Sorted (key_le key) l'.
Proof.
  induction l as [|x l IH]; intros Hl.
  - exists []. repeat split; auto.
  - apply Forall_cons in Hl as [Hx Hl].
    destruct (IH Hl) as (s & Es & Hp & Hs).
    assert (Forall ok s) as Hoks by (rewrite <- Hp; exact Hl).
    destruct (sort_insert_correct x s Hx Hoks Hs) as (l' & E & Hp' & Hs' & _).
    exists l'. cbn [Array_sort]. rewrite Es. cbn [mbind result_bind].
    split; [exact E|]. split; [|exact Hs'].
    rewrite <- Hp'. constructor. exact Hp.
Qed.

Lemma key_le_trans : Relations_1.Transitive (key_le key).
Proof. intros a b c. unfold key_le. lra. Qed.
End SortCorrect.

Lemma getLayerHue_readable (h : heap) (r : ref) :
  readable h r ->
  exists k, getLayerHue h r = Ok k /\ finite k /\ (0 <= FR k <= 360)%R.
Proof.
  intros (bg & E & Hbg). unfold getLayerHue, constructLayerColor. rewrite E.
  destruct bg as [c|]; cbn [mbind result_bind from_option] in *.
  - exists (hue (hsvOf c)). split; [reflexivity|]. apply hsvOf_hue_R, Hbg.
  - exists 0. split; [reflexivity|]. split; [exact finite_0|]. rewrite FR_0. lra.
Qed.

Lemma hueComparator_readable (h : heap) (x y : ref) :
  readable h x -> readable h y ->
  exists v, hueComparator h x y = Ok v /\
    ((0 <? v) = true <-> (FR (hueKey h y) < FR (hueKey h x))%R).
Proof.
  intros Hx Hy.
  destruct (getLayerHue_readable h x Hx) as (kx & Ex & Fx & Rx).
  destruct (getLayerHue_readable h y Hy) as (ky & Ey & Fy & Ry).
  unfold hueComparator, hueKey. rewrite Ex, Ey. cbn [mbind result_bind].
  exists (kx - ky). split; [reflexivity|].
  apply sub_positive; [assumption..|]. apply Rabs_le. lra.
Qed.

Lemma StronglySorted_hue_le (h : heap) (l : list ref) :
  Forall (readable h) l ->
  StronglySorted (key_le (fun r => FR (hueKey h r))) l ->
  StronglySorted (hue_le h) l.
Proof.
  intros Hl Hs. induction Hs as [|a l Hs IH Ha]; [constructor|].
  apply Forall_cons in Hl as [Hra Hl]. constructor; [apply IH, Hl|].
  destruct (getLayerHue_readable h a Hra) as (ka & Ea & Fa & _).
  rewrite Forall_forall in Ha, Hl. apply Forall_forall. intros b Hb.
  destruct (getLayerHue_readable h b (Hl b Hb)) as (kb & Eb & Fb & _).
  exists ka, kb. split; [exact Ea|]. split; [exact Eb|].
  apply (leb_R ka kb Fa Fb). specialize (Ha b Hb). unfold key_le, hueKey in Ha.
  rewrite Ea, Eb in Ha. exact Ha.
Qed.

(** C10, counterexample: with a shape without fills in the list the sort
    throws, where the claim promises a permutation with the key 0 for it. *)
Lemma C10_counterexample_unfilled_shape :
  sortLayersByHue bareShapeScene [1; 2]%positive = Throw TypeError /\
  ~ exists out, sortLayersByHue bareShapeScene [1; 2]%positive = Ok out.
Proof.
  split; [vm_compute; reflexivity|]. intros [out H]. vm_compute in H. discriminate.
Qed.

(** C10, as amended: on a list of layers whose hue can be read (every shape
    has a first fill, every symbol instance its master, and the colours have
    their channels between 0 and 1) [sortLayersByHue] returns a permutation
    of the list in which the hue keys, 0 for a layer without colour, never
    decrease. *)
Theorem C10_sort_is_sorted_permutation (h : heap) (ls : list ref) :
  (forall r, r ∈ ls -> readable h r) ->
  exists out, sortLayersByHue h ls = Ok out /\
    ls ≡ₚ out /\
    StronglySorted (hue_le h) out.
Proof.
  intros Hls. apply Forall_forall in Hls.
  destruct (Array_sort_correct (hueComparator h) (fun r => FR (hueKey h r)) (readable h)
              (hueComparator_readable h) ls Hls) as (out & E & Hp & Hs).
  exists out. split; [exact E|]. split; [exact Hp|].
  apply StronglySorted_hue_le; [rewrite <- Hp; exact Hls|].
  apply Sorted_StronglySorted; [apply key_le_trans | exact Hs].
Qed.

(** At the three shapes and the text layer of [fourHues]. *)
Lemma C10_sort_is_sorted_permutation_witness :
  exists out, sortLayersByHue fourHues [1; 2; 3; 4]%positive = Ok out /\
    [1; 2; 3; 4]%positive ≡ₚ out /\
    StronglySorted (hue_le fourHues) out.
Proof.
  apply (C10_sort_is_sorted_permutation fourHues [1; 2; 3; 4]%positive).
  intros r Hr. unfold readable, inGamut, channel.
  repeat (apply elem_of_cons in Hr as [-> | Hr];
          [eexists; split; [vm_compute; reflexivity | cbn; repeat split; reflexivity]|]).
  inversion Hr.
Defined.

(** The red shape and the text layer, both of key 0, keep their order; the
    azure (210) and the rose (330) follow. *)
Example sort_fourHues :
  sortLayersByHue fourHues [1; 2; 3; 4]%positive = Ok [2; 4; 1; 3]%positive.
Proof. vm_compute. reflexivity. Qed.

(** ** Layout engine *)

Lemma frameOf_Some (h : heap) (r : ref) (l : MSLayer) :
  h !! r = Some l -> frameOf h r = Ok (frame l).
Proof. intros E. unfold frameOf. rewrite (deref_Some _ _ _ E). reflexivity. Qed.

Lemma setFrame_Some (g : MSRect -> MSRect) (h : heap) (r : ref) (l : MSLayer) :
  h !! r = Some l -> setFrame g r h = Ok (<[r := with_frame g l]> h).
Proof. intros E. unfold setFrame. rewrite (deref_Some _ _ _ E). reflexivity. Qed.

Lemma positionLayer_first (p : ref) (h : heap) (ht : float) (layer : ref) (L : MSLayer) :
  h !! layer = Some L ->
  positionLayer p (mkLayoutState h ht None) layer
    = Ok (mkLayoutState (<[layer := moveTo 5 5 L]> h) ht (Some layer)).
Proof.
  intros HL. unfold positionLayer. cbn [ls_heap ls_height lastFrame].
  rewrite (setFrame_Some _ _ _ _ HL). cbn [mbind result_bind].
  erewrite setFrame_Some by apply lookup_insert_eq. cbn [mbind result_bind].
  rewrite insert_insert_eq. reflexivity.
Qed.

(** A later layer, when its frame is neither the frame placed before nor the
    frame of the artboard. *)
Lemma positionLayer_next (p : ref) (h : heap) (ht : float) (last layer : ref)
    (P LF L : MSLayer) :
  last <> layer ->
  h !! p = Some P -> h !! last = Some LF -> h !! layer = Some L ->
  positionLayer p (mkLayoutState h ht (Some last)) layer =
    Ok (if width (frame P) - 10 <? left (frame LF) + width (frame LF) + 5 + width (frame L)
        then mkLayoutState
               (<[layer := moveTo 5 (top (frame LF) + height (frame LF) + 5) L]> h)
               (ht + (height (frame L) + 5)) (Some layer)
        else mkLayoutState
               (<[layer := moveTo (left (frame LF) + width (frame LF) + 5) (top (frame LF)) L]> h)
               ht (Some layer)).
Proof.
  intros Hne HP HLF HL. unfold positionLayer. cbn [ls_heap ls_height lastFrame].
  rewrite (frameOf_Some _ _ _ HLF), (frameOf_Some _ _ _ HL), (frameOf_Some _ _ _ HP).
  cbn [mbind result_bind].
  destruct (width (frame P) - 10 <? _).
  - rewrite (setFrame_Some _ _ _ _ HL). cbn [mbind result_bind].
    erewrite frameOf_Some by (rewrite lookup_insert_ne by congruence; exact HLF).
    cbn [mbind result_bind].
    erewrite setFrame_Some by apply lookup_insert_eq. cbn [mbind result_bind].
    erewrite frameOf_Some by apply lookup_insert_eq. cbn [mbind result_bind].
    rewrite insert_insert_eq. reflexivity.
  - rewrite (setFrame_Some _ _ _ _ HL). cbn [mbind result_bind].
    erewrite frameOf_Some by (rewrite lookup_insert_ne by congruence; exact HLF).
    cbn [mbind result_bind].
    erewrite setFrame_Some by apply lookup_insert_eq. cbn [mbind result_bind].
    rewrite insert_insert_eq. reflexivity.
Qed.

(** Decide a comparison between two float expressions without variables. *)
Ltac float_decide :=
  match goal with
  | |- context [ltb ?a ?b] =>
      let v := eval vm_compute in (ltb a b) in
      change (ltb a b) with v; cbv iota
  end.

(** C5: in an artboard 100 wide, three layers 40 wide and 20 high land at
    (5, 5), (50, 5) and, on a second row, (5, 30); the artboard ends 55 high. *)
Theorem C5_three_layers_in_a_narrow_artboard
    (h : heap) (a l1 l2 l3 : ref) (A L1 L2 L3 : MSLayer) :
  NoDup [a; l1; l2; l3] ->
  h !! a = Some A -> h !! l1 = Some L1 -> h !! l2 = Some L2 -> h !! l3 = Some L3 ->
  width (frame A) = 100 ->
  width (frame L1) = 40 -> height (frame L1) = 20 ->
  width (frame L2) = 40 -> height (frame L2) = 20 ->
  width (frame L3) = 40 -> height (frame L3) = 20 ->
  exists h', layout a [l1; l2; l3] h = Ok h' /\
    (frame <$> h' !! l1) = Some (mkRect 5 5 40 20) /\
    (frame <$> h' !! l2) = Some (mkRect 50 5 40 20) /\
    (frame <$> h' !! l3) = Some (mkRect 5 30 40 20) /\
    (frame <$> h' !! a) = Some (set_height 55 (frame A)).
Proof.
  intros ND HA H1 H2 H3 WA W1 T1 W2 T2 W3 T3.
  apply NoDup_cons in ND as [Na ND]. apply NoDup_cons in ND as [N1 ND].
  apply NoDup_cons in ND as [N2 _].
  assert (a <> l1 /\ a <> l2 /\ a <> l3 /\ l1 <> l2 /\ l1 <> l3 /\ l2 <> l3)
    as (?&?&?&?&?&?) by set_solver.
  unfold layout. rewrite (frameOf_Some _ _ _ HA), (frameOf_Some _ _ _ H1).
  cbn [mbind result_bind layoutLoop].
  rewrite (positionLayer_first _ _ _ _ _ H1). cbn [mbind result_bind].
  erewrite (positionLayer_next a _ _ l1 l2 A (moveTo 5 5 L1) L2); try done;
    [| by simplify_map_eq | by simplify_map_eq | by simplify_map_eq].
  cbn [moveTo with_frame frame left top width height]. rewrite WA, W1, W2, T1.
  float_decide. cbn [mbind result_bind].
  erewrite (positionLayer_next a _ _ l2 l3 A _ L3); try done;
    [| by simplify_map_eq | by simplify_map_eq | by simplify_map_eq].
  cbn [moveTo with_frame frame left top width height]. rewrite WA, W2, W3, T3, T2.
  float_decide. cbn [mbind result_bind ls_heap ls_height].
  erewrite setFrame_Some by (simplify_map_eq; reflexivity).
  eexists. split; [reflexivity|].
  simplify_map_eq. 
  cbn [with_frame frame set_height left top width height moveTo].
  rewrite W1, T1, W2, T2, W3, T3.
  repeat split; reflexivity.
Qed.

(** At [narrowArtboard], whose frame starts at (7, 8). *)
Lemma C5_three_layers_in_a_narrow_artboard_witness :
  exists h', layout 1%positive [2; 3; 4]%positive narrowArtboard = Ok h' /\
    (frame <$> h' !! 2%positive) = Some (mkRect 5 5 40 20) /\
    (frame <$> h' !! 3%positive) = Some (mkRect 50 5 40 20) /\
    (frame <$> h' !! 4%positive) = Some (mkRect 5 30 40 20) /\
    (frame <$> h' !! 1%positive) = Some (mkRect 7 8 100 55).
Proof.
  refine (C5_three_layers_in_a_narrow_artboard narrowArtboard 1%positive 2%positive 3%positive 4%positive _ _ _ _ _
            eq_refl eq_refl eq_refl eq_refl eq_refl eq_refl eq_refl eq_refl eq_refl
            eq_refl eq_refl).
  apply (bool_decide_unpack _). vm_compute. exact I.
Defined.

Lemma positionLayer_effect (p : ref) (st : LayoutState) (layer : ref) :
  is_Some (ls_heap st !! p) ->
  is_Some (ls_heap st !! layer) ->
  (forall last, lastFrame st = Some last -> is_Some (ls_heap st !! last)) ->
  exists st' L x y,
    positionLayer p st layer = Ok st' /\
    ls_heap st !! layer = Some L /\
    ls_heap st' = <[layer := moveTo x y L]> (ls_heap st) /\
    lastFrame st' = Some layer.
Proof.
  intros [P HP] [L HL] Hlast. destruct st as [h ht [last|]]; cbn [ls_heap lastFrame] in *.
  - destruct (Hlast last eq_refl) as [LF HLF].
    unfold positionLayer. cbn [ls_heap ls_height lastFrame].
    rewrite (frameOf_Some _ _ _ HLF), (frameOf_Some _ _ _ HL), (frameOf_Some _ _ _ HP).
    cbn [mbind result_bind].
    destruct (width (frame P) - 10 <? _).
    + rewrite (setFrame_Some _ _ _ _ HL). cbn [mbind result_bind].
      assert (is_Some (<[layer:=with_frame (set_left 5) L]> h !! last)) as [LF1 HLF1].
      { rewrite lookup_insert. destruct (decide (layer = last)); eauto. }
      rewrite (frameOf_Some _ _ _ HLF1). cbn [mbind result_bind].
      erewrite setFrame_Some by apply lookup_insert_eq. cbn [mbind result_bind].
      erewrite frameOf_Some by apply lookup_insert_eq. cbn [mbind result_bind].
      rewrite insert_insert_eq.
      eexists _, L, _, _. split; [reflexivity|]. split; [exact HL|]. split; reflexivity.
    + rewrite (setFrame_Some _ _ _ _ HL). cbn [mbind result_bind].
      assert (is_Some (<[layer:=with_frame (set_left (left (frame LF) + width (frame LF) + 5)) L]> h !! last))
        as [LF1 HLF1].
      { rewrite lookup_insert. destruct (decide (layer = last)); eauto. }
      rewrite (frameOf_Some _ _ _ HLF1). cbn [mbind result_bind].
      erewrite setFrame_Some by apply lookup_insert_eq. cbn [mbind result_bind].
      rewrite insert_insert_eq.
      eexists _, L, _, _. split; [reflexivity|]. split; [exact HL|]. split; reflexivity.
  - rewrite (positionLayer_first _ _ _ _ _ HL).
    eexists _, L, _, _. split; [reflexivity|]. split; [exact HL|]. split; reflexivity.
Qed.

(** The loop as a whole: it runs to its end, every layer it was given is
    where it was or moved, and no other object is touched. *)
Lemma layoutLoop_effect (p : ref) (ls : list ref) :
  forall st,
    is_Some (ls_heap st !! p) ->
    (forall r, r ∈ ls -> is_Some (ls_heap st !! r)) ->
    (forall last, lastFrame st = Some last -> is_Some (ls_heap st !! last)) ->
    exists st',
      layoutLoop p st ls = Ok st' /\
      (forall r, r ∉ ls -> ls_heap st' !! r = ls_heap st !! r) /\
      (forall r L, ls_heap st !! r = Some L ->
         exists L', ls_heap st' !! r = Some L' /\ repositioned L L').
Proof.
  induction ls as [|layer ls IH]; intros st Hp Hls Hlast.
  - exists st. split; [reflexivity|]. split; [reflexivity|].
    intros r L HL. exists L. split; [exact HL|].
    exists (left (frame L)), (top (frame L)). destruct L as [? ? [? ? ? ?] ? ? ?]. reflexivity.
  - destruct (positionLayer_effect p st layer Hp) as (st1 & L & x & y & E & HL & Hh & Hl);
      [apply Hls, list_elem_of_here | exact Hlast |].
    destruct (IH st1) as (st' & E' & Hout & Hin).
    + rewrite Hh, lookup_insert. destruct (decide (layer = p)); eauto.
    + intros r Hr. rewrite Hh, lookup_insert. destruct (decide (layer = r)); eauto.
      apply Hls. now apply list_elem_of_further.
    + intros last Hlast'. rewrite Hl in Hlast'. injection Hlast' as <-.
      rewrite Hh, lookup_insert_eq. eauto.
    + exists st'. cbn [layoutLoop]. rewrite E. cbn [mbind result_bind].
      split; [exact E'|]. split.
      * intros r Hr. apply not_elem_of_cons in Hr as [Hne Hr].
        rewrite (Hout r Hr), Hh. now apply lookup_insert_ne.
      * intros r L0 HL0. destruct (decide (layer = r)) as [<-|Hne].
        -- rewrite HL in HL0. injection HL0 as <-.
           destruct (Hin layer (moveTo x y L)) as (L' & HL' & x' & y' & ->).
           { rewrite Hh. apply lookup_insert_eq. }
           exists (moveTo x' y' (moveTo x y L)). split; [exact HL'|].
           exists x', y'. reflexivity.
        -- apply Hin. rewrite Hh, lookup_insert_ne by exact Hne. exact HL0.
Qed.

(** C9: the layout runs to its end on a non-empty list of layers of an
    artboard; each of these layers keeps everything but the position of its
    frame, width and height included; the artboard keeps everything but the
    height of its frame, width, left and top included; no other object
    changes. *)
Theorem C9_layout_frame_effect (h : heap) (a : ref) (ls : list ref) (A : MSLayer) :
  ls <> [] ->
  a ∉ ls ->
  h !! a = Some A ->
  (forall r, r ∈ ls -> is_Some (h !! r)) ->
  exists h',
    layout a ls h = Ok h' /\
    (forall r L, r ∈ ls -> h !! r = Some L ->
       exists L', h' !! r = Some L' /\ repositioned L L' /\
         width (frame L') = width (frame L) /\ height (frame L') = height (frame L)) /\
    (exists A', h' !! a = Some A' /\ resized A A' /\
       width (frame A') = width (frame A) /\ left (frame A') = left (frame A) /\
       top (frame A') = top (frame A)) /\
    (forall r, r ∉ ls -> r <> a -> h' !! r = h !! r).
Proof.
  intros Hne Ha HA Hls.
  destruct ls as [|l0 ls0] eqn:Els; [congruence|]. rewrite <- Els in *. clear Hne.
  destruct (Hls l0) as [L0 HL0]; [rewrite Els; apply list_elem_of_here|].
  destruct (layoutLoop_effect a ls (mkLayoutState h (height (frame L0) + 10) None))
    as (st' & E & Hout & Hin); cbn [ls_heap lastFrame]; eauto; [discriminate|].
  cbn [ls_heap] in Hout, Hin.
  assert (HA' : ls_heap st' !! a = Some A) by (rewrite (Hout a Ha); exact HA).
  exists (<[a := with_frame (set_height (ls_height st')) A]> (ls_heap st')).
  split.
  - unfold layout. rewrite (frameOf_Some _ _ _ HA). cbn [mbind result_bind].
    rewrite Els at 1. rewrite (frameOf_Some _ _ _ HL0). cbn [mbind result_bind].
    rewrite E. cbn [mbind result_bind]. apply setFrame_Some, HA'.
  - split; [|split].
    + intros r L Hr HL. destruct (Hin r L HL) as (L' & HL' & x & y & ->).
      exists (moveTo x y L). split; [|split; [exists x, y; reflexivity | split; reflexivity]].
      rewrite lookup_insert_ne; [exact HL'|]. intros ->. contradiction.
    + exists (with_frame (set_height (ls_height st')) A).
      split; [apply lookup_insert_eq|]. split; [eexists; reflexivity|]. repeat split.
    + intros r Hr Hra. rewrite lookup_insert_ne by congruence. apply Hout, Hr.
Qed.

(** At [narrowArtboard] and its three shapes. *)
Lemma C9_layout_frame_effect_witness :
  exists h',
    layout 1%positive [2; 3; 4]%positive narrowArtboard = Ok h' /\
    (forall r L, r ∈ [2; 3; 4]%positive -> narrowArtboard !! r = Some L ->
       exists L', h' !! r = Some L' /\ repositioned L L' /\
         width (frame L') = width (frame L) /\ height (frame L') = height (frame L)) /\
    (exists A', h' !! 1%positive = Some A' /\
       resized (mkLayer MSArtboardGroup "Artboard" (mkRect 7 8 100 600) [] [2; 3; 4]%positive None) A' /\
       width (frame A') = 100 /\ left (frame A') = 7 /\ top (frame A') = 8) /\
    (forall r, r ∉ [2; 3; 4]%positive -> r <> 1%positive -> h' !! r = narrowArtboard !! r).
Proof.
  refine (C9_layout_frame_effect narrowArtboard 1%positive [2; 3; 4]%positive _ _ _ eq_refl _).
  - discriminate.
  - apply (bool_decide_unpack _). vm_compute. exact I.
  - intros r Hr.
    repeat (apply elem_of_cons in Hr as [-> | Hr]; [eexists; reflexivity|]).
    inversion Hr.
Defined.

(** ** Orchestrator *)

(** C8: with an empty selection the plugin shows "No layers selected!" and
    returns; the heap of layers and the page are what they were. *)
Theorem C8_empty_selection (d : Document) :
  exists d', sortByHue [] d = Ok d' /\
    messages d' = messages d ++ ["No layers selected!"%string] /\
    doc_heap d' = doc_heap d /\
    pageLayers d' = pageLayers d.
Proof. eexists. split; [reflexivity|]. repeat split. Qed.

Lemma getLayersWithBackgroundColor_none (h : heap) (ls : list ref) :
  (forall c, c ∈ ls -> getLayerBackground h c = Ok None) ->
  getLayersWithBackgroundColor h ls = Ok [].
Proof.
  induction ls as [|x ls IH]; intros H; simpl; [reflexivity|].
  rewrite (H x) by apply list_elem_of_here. simpl.
  rewrite IH; [reflexivity|].
  intros c Hc. apply H. now apply list_elem_of_further.
Qed.





(** The whole plugin on a selected artboard: the three shapes of
    [narrowArtboard] are sorted red, green, blue and laid out as in C5. *)
Example sortByHue_on_a_selected_artboard :
  exists d', sortByHue [1%positive] (mkDocument narrowArtboard [1%positive] []) = Ok d' /\
    messages d' = [] /\
    (frame <$> doc_heap d' !! 2%positive) = Some (mkRect 5 5 40 20) /\
    (frame <$> doc_heap d' !! 3%positive) = Some (mkRect 50 5 40 20) /\
    (frame <$> doc_heap d' !! 4%positive) = Some (mkRect 5 30 40 20) /\
    (frame <$> doc_heap d' !! 1%positive) = Some (mkRect 7 8 100 55).
Proof. eexists. split; [vm_compute; reflexivity|]. repeat split. Qed.

(** * Further properties

    What the functions of [plugin.js] do on the inputs and along the paths
    that the properties above leave out: the extractor on symbols, the
    filter, the other fields of the colour descriptor, the comparator, the
    layout whenever it returns, and the path that creates the artboard. *)

(** ** Background extractor, the remaining cases *)

Lemma Throw_TypeError {A : Type} (e : JSError) : @Throw A e = Throw TypeError.
Proof. destruct e. reflexivity. Qed.

Lemma shapeChildColor_scannable (h : heap) (c : ref) :
  (if scannable h c then exists v, shapeChildColor h c = Ok v
   else shapeChildColor h c = Throw TypeError).
Proof.
  unfold scannable, shapeChildColor, deref, firstFillColor.
  destruct (h !! c) as [C|]; cbn [mbind result_bind]; [|reflexivity].
  destruct (isKindOfClass C MSShapeGroup); cbn [negb orb]; [|eauto].
  destruct (fills C); cbn [mbind result_bind]; eauto.
Qed.

(** The scan of the children of a symbol: its only outcome is to end or to
    throw, and it throws at the first child that is missing or is a shape
    without fills. *)
Lemma Array_forEach_scan (h : heap) (cs : list ref) :
  Array_forEach (shapeChildColor h) cs =
    if forallb (scannable h) cs then Ok tt else Throw TypeError.
Proof.
  induction cs as [|c cs IH]; cbn [Array_forEach forallb]; [reflexivity|].
  pose proof (shapeChildColor_scannable h c) as H.
  destruct (scannable h c); cbn [andb].
  - destruct H as [v ->]. cbn [mbind result_bind]. exact IH.
  - rewrite H. reflexivity.
Qed.

(** A colour comes from a shape group only. *)
Lemma getLayerBackground_Some (h : heap) (layer : ref) (c : MSColor) :
  getLayerBackground h layer = Ok (Some c) ->
  exists l rest, h !! layer = Some l /\ kind l = MSShapeGroup /\ fills l = c :: rest.
Proof.
  unfold getLayerBackground, deref.
  destruct (h !! layer) as [l|] eqn:El; cbn [mbind result_bind]; [|discriminate].
  unfold isKindOfClass.
  destruct (decide (kind l = MSShapeGroup)) as [Hk|Hk].
  - rewrite (bool_decide_eq_true_2 _ Hk). unfold firstFillColor.
    destruct (fills l) as [|c0 rest] eqn:Ef; cbn [mbind result_bind]; [discriminate|].
    intros [= <-]. exists l, rest. auto.
  - rewrite (bool_decide_eq_false_2 _ Hk).
    destruct (bool_decide (kind l = MSSymbolInstance)).
    + destruct (symbolMaster l) as [m|]; [|discriminate].
      destruct (h !! m) as [M|]; cbn [mbind result_bind]; [|discriminate].
      rewrite Array_forEach_scan.
      destruct (forallb _ _); cbn [mbind result_bind]; discriminate.
    + destruct (bool_decide (kind l = MSSymbolMaster)); [|discriminate].
      rewrite Array_forEach_scan.
      destruct (forallb _ _); cbn [mbind result_bind]; discriminate.
Qed.

(** X1: the extractor hands a colour back exactly for a shape group with a
    first fill, and the colour is the one of that fill; a text layer, an
    artboard, a symbol instance and a symbol master never yield one. *)
Theorem getLayerBackground_color_iff (h : heap) (layer : ref) (c : MSColor) :
  getLayerBackground h layer = Ok (Some c) <->
  exists l rest, h !! layer = Some l /\ kind l = MSShapeGroup /\ fills l = c :: rest.
Proof.
  split; [apply getLayerBackground_Some|].
  intros (l & rest & Hl & Hk & Hf).
  unfold getLayerBackground, isKindOfClass, firstFillColor.
  rewrite (deref_Some _ _ _ Hl). cbn [mbind result_bind]. rewrite Hk, Hf. reflexivity.
Qed.

(** X2: on a symbol master the extractor scans every child and then answers
    [null]: no colour comes back, and a child that is a shape without fills
    makes the whole call throw. *)
Theorem getLayerBackground_symbol_master (h : heap) (layer : ref) (l : MSLayer) :
  h !! layer = Some l ->
  kind l = MSSymbolMaster ->
  getLayerBackground h layer =
    if forallb (scannable h) (children l) then Ok None else Throw TypeError.
Proof.
  intros Hl Hk. unfold getLayerBackground. rewrite (deref_Some _ _ _ Hl).
  cbn [mbind result_bind]. unfold isKindOfClass. rewrite Hk.
  cbn [bool_decide decide_rel]. rewrite Array_forEach_scan.
  destruct (forallb _ _); reflexivity.
Qed.

(** At the master of [symbolScene], which holds a red shape, and at the
    master of [brokenSymbolScene], which holds a shape without fills. *)
Lemma getLayerBackground_symbol_master_witness :
  getLayerBackground symbolScene 2%positive = Ok None /\
  getLayerBackground brokenSymbolScene 1%positive = Throw TypeError.
Proof.
  split.
  - apply (getLayerBackground_symbol_master symbolScene 2%positive
             (mkLayer MSSymbolMaster "master" (mkRect 0 0 40 20) [] [3; 4]%positive None));
      reflexivity.
  - apply (getLayerBackground_symbol_master brokenSymbolScene 1%positive
             (mkLayer MSSymbolMaster "master" (mkRect 0 0 40 20) [] [2%positive] None));
      reflexivity.
Defined.

(** X3: on a symbol instance the extractor throws when the instance has no
    master, and otherwise scans the children of the master as it scans the
    children of a master that is selected itself. *)
Theorem getLayerBackground_symbol_instance (h : heap) (layer : ref) (l : MSLayer) :
  h !! layer = Some l ->
  kind l = MSSymbolInstance ->
  getLayerBackground h layer =
    match symbolMaster l ≫= (h !!.) with
    | Some m => if forallb (scannable h) (children m) then Ok None else Throw TypeError
    | None => Throw TypeError
    end.
Proof.
  intros Hl Hk. unfold getLayerBackground. rewrite (deref_Some _ _ _ Hl).
  cbn [mbind result_bind]. unfold isKindOfClass. rewrite Hk.
  cbn [bool_decide decide_rel].
  destruct (symbolMaster l) as [m|]; cbn [mbind option_bind]; [|reflexivity].
  unfold deref. destruct (h !! m) as [M|]; cbn [mbind result_bind]; [|reflexivity].
  rewrite Array_forEach_scan. destruct (forallb _ _); reflexivity.
Qed.

(** At the three instances of [brokenSymbolScene]. *)
Lemma getLayerBackground_symbol_instance_witness :
  getLayerBackground brokenSymbolScene 3%positive = Throw TypeError /\
  getLayerBackground brokenSymbolScene 4%positive = Throw TypeError /\
  getLayerBackground brokenSymbolScene 5%positive = Ok None.
Proof.
  split; [|split].
  - apply (getLayerBackground_symbol_instance brokenSymbolScene 3%positive
             (mkLayer MSSymbolInstance "instance" (mkRect 0 0 40 20) [] [] (Some 1%positive)));
      reflexivity.
  - apply (getLayerBackground_symbol_instance brokenSymbolScene 4%positive
             (mkLayer MSSymbolInstance "orphan" (mkRect 0 0 40 20) [] [] None));
      reflexivity.
  - apply (getLayerBackground_symbol_instance brokenSymbolScene 5%positive
             (mkLayer MSSymbolInstance "label instance" (mkRect 0 0 40 20) [] [] (Some 6%positive)));
      reflexivity.
Defined.

(** What the extractor answers on a layer decides whether the filter keeps
    it. *)
Lemma getLayerBackground_isShapeGroup (h : heap) (r : ref) (bg : option MSColor) :
  getLayerBackground h r = Ok bg -> isShapeGroup h r = bool_decide (is_Some bg).
Proof.
  intros E. destruct bg as [c|].
  - destruct (getLayerBackground_Some _ _ _ E) as (l & rest & Hl & Hk & _).
    unfold isShapeGroup, isKindOfClass. rewrite Hl, Hk. reflexivity.
  - unfold isShapeGroup. revert E. unfold getLayerBackground, deref.
    destruct (h !! r) as [l|]; cbn [mbind result_bind]; [|discriminate].
    destruct (isKindOfClass l MSShapeGroup); [|reflexivity].
    destruct (firstFillColor l); cbn [mbind result_bind]; discriminate.
Qed.

Lemma getLayersWithBackgroundColor_Ok (h : heap) (ls out : list ref) :
  getLayersWithBackgroundColor h ls = Ok out ->
  out = List.filter (isShapeGroup h) ls /\
  Forall (fun r => exists bg, getLayerBackground h r = Ok bg) ls.
Proof.
  revert out. induction ls as [|r ls IH]; intros out; cbn [getLayersWithBackgroundColor].
  - intros [= <-]. split; [reflexivity | constructor].
  - destruct (getLayerBackground h r) as [bg|e] eqn:E; cbn [mbind result_bind];
      [|discriminate].
    destruct (getLayersWithBackgroundColor h ls) as [out'|e]; cbn [mbind result_bind];
      [|discriminate].
    destruct (IH out' eq_refl) as [-> HF]. intros [= <-].
    split; [|constructor; eauto].
    cbn [List.filter]. rewrite (getLayerBackground_isShapeGroup _ _ _ E).
    destruct bg; reflexivity.
Qed.

Lemma getLayersWithBackgroundColor_readable (h : heap) (ls : list ref) :
  Forall (fun r => exists bg, getLayerBackground h r = Ok bg) ls ->
  getLayersWithBackgroundColor h ls = Ok (List.filter (isShapeGroup h) ls).
Proof.
  induction 1 as [|r ls [bg E] _ IH]; cbn [getLayersWithBackgroundColor List.filter];
    [reflexivity|].
  rewrite E, IH. cbn [mbind result_bind].
  rewrite (getLayerBackground_isShapeGroup _ _ _ E). destruct bg; reflexivity.
Qed.

(** X4: when the filter returns, it has kept exactly the shape groups of the
    list, in the order of the list, and each of them has a first fill. *)
Theorem getLayersWithBackgroundColor_keeps_shapes (h : heap) (ls out : list ref) :
  getLayersWithBackgroundColor h ls = Ok out ->
  out = List.filter (isShapeGroup h) ls /\
  forall r, r ∈ out ->
    exists l c rest, h !! r = Some l /\ kind l = MSShapeGroup /\ fills l = c :: rest /\
      getLayerBackground h r = Ok (Some c).
Proof.
  intros E. destruct (getLayersWithBackgroundColor_Ok _ _ _ E) as [-> HF].
  split; [reflexivity|]. intros r Hr.
  apply list_elem_of_In, filter_In in Hr as [Hin Hs].
  rewrite Forall_forall in HF. destruct (HF r) as [bg Hbg]; [now apply list_elem_of_In|].
  rewrite (getLayerBackground_isShapeGroup _ _ _ Hbg) in Hs.
  destruct bg as [c|]; [|discriminate].
  destruct (getLayerBackground_Some _ _ _ Hbg) as (l & rest & Hl & Hk & Hf).
  exists l, c, rest. auto.
Qed.

(** At the four layers of [symbolScene]. *)
Lemma getLayersWithBackgroundColor_keeps_shapes_witness :
  [4%positive] = List.filter (isShapeGroup symbolScene) [1; 2; 3; 4]%positive /\
  forall r, r ∈ [4%positive] ->
    exists l c rest, symbolScene !! r = Some l /\ kind l = MSShapeGroup /\
      fills l = c :: rest /\ getLayerBackground symbolScene r = Ok (Some c).
Proof.
  apply (getLayersWithBackgroundColor_keeps_shapes symbolScene [1; 2; 3; 4]%positive).
  reflexivity.
Defined.

Lemma filter_twice {A : Type} (f : A -> bool) (l : list A) :
  List.filter f (List.filter f l) = List.filter f l.
Proof.
  induction l as [|x l IH]; [reflexivity|]. cbn [List.filter].
  destruct (f x) eqn:E; [|exact IH]. cbn [List.filter]. rewrite E, IH. reflexivity.
Qed.

(** X5: filtering the result of the filter again gives the same list. *)
Theorem getLayersWithBackgroundColor_idempotent (h : heap) (ls out : list ref) :
  getLayersWithBackgroundColor h ls = Ok out ->
  getLayersWithBackgroundColor h out = Ok out.
Proof.
  intros E. destruct (getLayersWithBackgroundColor_Ok _ _ _ E) as [-> HF].
  rewrite getLayersWithBackgroundColor_readable.
  - f_equal. apply filter_twice.
  - rewrite Forall_forall in *. intros r Hr.
    apply list_elem_of_In, filter_In in Hr as [Hin _]. apply HF. now apply list_elem_of_In.
Qed.

(** At the four layers of [symbolScene]. *)
Lemma getLayersWithBackgroundColor_idempotent_witness :
  getLayersWithBackgroundColor symbolScene [4%positive] = Ok [4%positive].
Proof.
  apply (getLayersWithBackgroundColor_idempotent symbolScene [1; 2; 3; 4]%positive).
  reflexivity.
Defined.

(** X6: the filter throws exactly when the extractor throws on one of the
    layers: no layer is skipped, and no exception is caught. *)
Theorem getLayersWithBackgroundColor_throws (h : heap) (ls : list ref) :
  getLayersWithBackgroundColor h ls = Throw TypeError <->
  exists r, r ∈ ls /\ getLayerBackground h r = Throw TypeError.
Proof.
  induction ls as [|r ls IH]; cbn [getLayersWithBackgroundColor].
  - split; [discriminate|]. intros (r & Hr & _). inversion Hr.
  - destruct (getLayerBackground h r) as [bg|e] eqn:E; cbn [mbind result_bind].
    + destruct (getLayersWithBackgroundColor h ls) as [out|e]; cbn [mbind result_bind].
      * split; [discriminate|]. intros (r' & Hr' & E').
        apply elem_of_cons in Hr' as [-> | Hr']; [congruence|].
        assert (Ok out = Throw TypeError :> result (list ref)) by (apply IH; eauto).
        discriminate.
      * split; intros _; [|apply Throw_TypeError].
        destruct (proj1 IH (Throw_TypeError e)) as (r' & Hr' & E').
        exists r'. split; [now apply list_elem_of_further | exact E'].
    + split; intros _; [|apply Throw_TypeError].
      exists r. split; [apply list_elem_of_here|]. rewrite E. apply Throw_TypeError.
Qed.
(** ** Colour descriptor, the remaining fields *)

Lemma FR_180 : FR 180 = 180%R. Proof. float_const. Qed.
Lemma FR_300 : FR 300 = 300%R. Proof. float_const. Qed.
Lemma finite_180 : finite 180. Proof. float_const. Qed.
Lemma finite_300 : finite 300. Proof. float_const. Qed.

Lemma Rabs_bounds (x b : R) : (Rabs x <= b)%R -> (- b <= x <= b)%R.
Proof. intros H. unfold Rabs in H. destruct (Rcase_abs x); lra. Qed.

(** What holds of the three parsed channels of a colour of the data model,
    stated once for the lemmas of this part. *)
Section Channels.
Variables r g b : float.
Hypothesis Fr : finite r.
Hypothesis Fg : finite g.
Hypothesis Fb : finite b.
Hypothesis Rr : (0 <= FR r <= 1)%R.
Hypothesis Rg : (0 <= FR g <= 1)%R.
Hypothesis Rb : (0 <= FR b <= 1)%R.

Lemma max_channel_R :
  finite (Math_max [r; g; b]) /\ (0 <= FR (Math_max [r; g; b]) <= 1)%R.
Proof using Fr Fg Fb Rr Rg Rb.
  pose proof (Math_max_R r g b Fr Fg Fb) as (Hmax & _).
  cbv zeta in Hmax. destruct Hmax as [-> | [-> | ->]]; auto.
Qed.

Lemma min_channel_R :
  finite (Math_min [r; g; b]) /\ (0 <= FR (Math_min [r; g; b]) <= 1)%R.
Proof using Fr Fg Fb Rr Rg Rb.
  pose proof (Math_min_R r g b Fr Fg Fb) as (Hmin & _).
  cbv zeta in Hmin. destruct Hmin as [-> | [-> | ->]]; auto.
Qed.

Lemma min_le_max_R : (FR (Math_min [r; g; b]) <= FR (Math_max [r; g; b]))%R.
Proof using Fr Fg Fb.
  pose proof (Math_max_R r g b Fr Fg Fb) as (_ & M1 & _).
  pose proof (Math_min_R r g b Fr Fg Fb) as (_ & m1 & _).
  cbv zeta in *. lra.
Qed.

(** The chroma: the rounded difference of the largest and the smallest
    channel, between 0 and the largest channel. *)
Lemma chroma_R :
  let max := Math_max [r; g; b] in
  let min := Math_min [r; g; b] in
  finite (max - min) /\ Rnd (FR max - FR min) (FR (max - min)) /\
  (0 <= FR (max - min) <= FR max)%R.
Proof using Fr Fg Fb Rr Rg Rb.
  intros max min.
  destruct max_channel_R as [Fmax Rmax]. destruct min_channel_R as [Fmin Rmin].
  pose proof min_le_max_R as Hle. fold max min in Fmax, Rmax, Fmin, Rmin, Hle.
  destruct (sub_R max min Fmax Fmin) as [Fchr Rchr]; [apply Rabs_small, Rabs_le; lra|].
  split; [exact Fchr|]. split; [exact Rchr|].
  split; [apply (Rnd_sign _ _ Rchr); lra|]. apply (Rnd_le _ _ max Rchr). lra.
Qed.

(** The chroma is positive exactly when the channels are not all equal. *)
Lemma chroma_positive :
  let max := Math_max [r; g; b] in
  let min := Math_min [r; g; b] in
  (0 < FR (max - min))%R <-> (FR min < FR max)%R.
Proof using Fr Fg Fb Rr Rg Rb.
  intros max min.
  destruct max_channel_R as [Fmax Rmax]. destruct min_channel_R as [Fmin Rmin].
  fold max min in Fmax, Rmax, Fmin, Rmin.
  destruct chroma_R as (Fchr & _). fold max min in Fchr.
  rewrite <- (sub_positive max min Fmax Fmin) by (apply Rabs_le; lra).
  rewrite (ltb_R 0 _ finite_0 Fchr), FR_0. reflexivity.
Qed.

(** The saturation, when the largest channel is positive: the rounded
    quotient of chroma and value, between 0 and 1, and positive as soon as
    the chroma is: the quotient of two channels never underflows to zero. *)
Lemma saturation_R :
  let max := Math_max [r; g; b] in
  let min := Math_min [r; g; b] in
  (0 < FR max)%R ->
  finite ((max - min) / max) /\
  (0 <= FR ((max - min) / max) <= 1)%R /\
  ((0 < FR ((max - min) / max))%R <-> (0 < FR (max - min))%R).
Proof using Fr Fg Fb Rr Rg Rb.
  intros max min Hpos.
  destruct max_channel_R as [Fmax Rmax]. fold max in Fmax, Rmax.
  destruct chroma_R as (Fchr & Rchr & Hchr). fold max min in Fchr, Rchr, Hchr.
  assert (Hq : (0 <= FR (max - min) / FR max <= 1)%R).
  { split.
    - apply Rmult_le_pos; [lra|]. apply Rlt_le, Rinv_0_lt_compat, Hpos.
    - apply Rmult_le_reg_r with (FR max); [exact Hpos|].
      unfold Rdiv. rewrite Rmult_assoc, Rinv_l by lra. lra. }
  destruct (div_R (max - min) max Fchr Fmax) as [Fsat Rsat];
    [lra | apply Rabs_small, Rabs_le; lra |].
  split; [exact Fsat|]. split; [split|split].
  - apply (Rnd_sign _ _ Rsat). lra.
  - rewrite <- FR_1. apply (Rnd_le _ _ 1 Rsat). rewrite FR_1. lra.
  - intros Hs. destruct (Rle_lt_dec (FR (max - min)) 0) as [C|C]; [|exact C].
    assert (FR (max - min) = 0%R) as E0 by lra. rewrite E0 in Rsat.
    unfold Rdiv in Rsat. rewrite Rmult_0_l in Rsat.
    pose proof (Rnd_unique _ _ _ Rsat Rnd_0). lra.
  - intros Hc.
    destruct (SF2R_grid (Prim2SF (max - min)) (Prim2SF_valid _)) as [k Ek].
    fold (FR (max - min)) in Ek.
    pose proof (pow2_pos (-1074)) as Hp.
    assert (Hk : (0 < k)%Z).
    { apply lt_IZR. rewrite Ek in Hc. nra. }
    assert (Hstep : (SF2R (S754_finite false 1 (-1074)) <= FR (max - min) / FR max)%R).
    { cbn [SF2R]. unfold F2R, cond_Zopp.
      apply (Rle_trans _ (FR (max - min))).
      - rewrite Ek. apply Rmult_le_compat_r; [lra|]. apply IZR_le. lia.
      - apply Rmult_le_reg_r with (FR max); [exact Hpos|].
        unfold Rdiv. rewrite Rmult_assoc, Rinv_l by lra. nra. }
    apply (Rnd_ge_SF _ _ _ Rsat) in Hstep; [|reflexivity].
    cbn [SF2R] in Hstep. unfold F2R, cond_Zopp in Hstep. lra.
Qed.

End Channels.

(** The facts about the channels of a colour of the data model that the
    section above starts from. *)
Lemma inGamut_channels (c : MSColor) :
  inGamut c ->
  let r := parseFloat (red c) in
  let g := parseFloat (green c) in
  let b := parseFloat (blue c) in
  (finite r /\ finite g /\ finite b) /\
  (FR r = FR (red c) /\ FR g = FR (green c) /\ FR b = FR (blue c)) /\
  (finite (red c) /\ finite (green c) /\ finite (blue c)) /\
  ((0 <= FR r <= 1)%R /\ (0 <= FR g <= 1)%R /\ (0 <= FR b <= 1)%R).
Proof.
  intros (Hr & Hg & Hb).
  apply channel_R in Hr as [Fr0 Rr0]. apply channel_R in Hg as [Fg0 Rg0].
  apply channel_R in Hb as [Fb0 Rb0].
  destruct (parseFloat_R _ Fr0) as [Fr Er]. destruct (parseFloat_R _ Fg0) as [Fg Eg].
  destruct (parseFloat_R _ Fb0) as [Fb Eb].
  cbv zeta. rewrite Er, Eg, Eb. repeat split; assumption || lra.
Qed.

(** X7: for a colour of the data model, the value is a channel between 0 and
    1, the chroma lies between 0 and the value, and the saturation between 0
    and 1. *)
Theorem hsvOf_ranges (c : MSColor) :
  inGamut c ->
  let d := hsvOf c in
  ((0 <=? val d) = true /\ (val d <=? 1) = true) /\
  ((0 <=? chroma d) = true /\ (chroma d <=? val d) = true) /\
  ((0 <=? sat d) = true /\ (sat d <=? 1) = true).
Proof.
  intros H. destruct (inGamut_channels c H) as ((Fr & Fg & Fb) & _ & _ & (Rr & Rg & Rb)).
  cbv zeta in *. unfold hsvOf. cbn [val chroma sat].
  set (r := parseFloat (red c)) in *. set (g := parseFloat (green c)) in *.
  set (b := parseFloat (blue c)) in *.
  destruct (max_channel_R r g b Fr Fg Fb Rr Rg Rb) as [Fmax Rmax].
  destruct (chroma_R r g b Fr Fg Fb Rr Rg Rb) as (Fchr & _ & Hchr).
  pose proof (saturation_R r g b Fr Fg Fb Rr Rg Rb) as Hsat. cbv zeta in Hsat.
  set (max := Math_max [r; g; b]) in *. set (min := Math_min [r; g; b]) in *.
  split; [|split].
  - split; [apply (leb_R 0 max finite_0 Fmax) | apply (leb_R max 1 Fmax finite_1)];
      rewrite ?FR_0, ?FR_1; lra.
  - split; [apply (leb_R 0 _ finite_0 Fchr) | apply (leb_R _ max Fchr Fmax)];
      rewrite ?FR_0; lra.
  - destruct (0 <? max) eqn:E; [|split; reflexivity].
    apply (ltb_R 0 max finite_0 Fmax) in E. rewrite FR_0 in E.
    destruct (Hsat E) as (Fsat & Rsat & _).
    split; [apply (leb_R 0 _ finite_0 Fsat) | apply (leb_R _ 1 Fsat finite_1)];
      rewrite ?FR_0, ?FR_1; lra.
Qed.

(** At the red with a trace of blue. *)
Lemma hsvOf_ranges_witness :
  let d := hsvOf nearlyRed in
  ((0 <=? val d) = true /\ (val d <=? 1) = true) /\
  ((0 <=? chroma d) = true /\ (chroma d <=? val d) = true) /\
  ((0 <=? sat d) = true /\ (sat d <=? 1) = true).
Proof.
  apply (hsvOf_ranges nearlyRed).
  unfold inGamut, channel. repeat split; reflexivity.
Defined.

(** X8: for a colour of the data model the saturation is positive exactly
    when the three channels are not all equal; no difference between two
    channels is small enough to be lost in the subtraction or the division. *)
Theorem saturation_positive_iff (c : MSColor) :
  inGamut c ->
  (0 <? sat (hsvOf c)) = negb ((red c =? green c) && (green c =? blue c)).
Proof.
  intros H.
  destruct (inGamut_channels c H)
    as ((Fr & Fg & Fb) & (Er & Eg & Eb) & (Fr0 & Fg0 & Fb0) & (Rr & Rg & Rb)).
  cbv zeta in *. unfold hsvOf. cbn [sat].
  set (r := parseFloat (red c)) in *. set (g := parseFloat (green c)) in *.
  set (b := parseFloat (blue c)) in *.
  destruct (max_channel_R r g b Fr Fg Fb Rr Rg Rb) as [Fmax Rmax].
  pose proof (chroma_positive r g b Fr Fg Fb Rr Rg Rb) as Hchr. cbv zeta in Hchr.
  pose proof (saturation_R r g b Fr Fg Fb Rr Rg Rb) as Hsat. cbv zeta in Hsat.
  pose proof (Math_max_R r g b Fr Fg Fb) as (Hmax & M1 & M2 & M3).
  pose proof (Math_min_R r g b Fr Fg Fb) as (Hmin & m1 & m2 & m3).
  cbv zeta in Hmax, M1, M2, M3, Hmin, m1, m2, m3.
  set (max := Math_max [r; g; b]) in *. set (min := Math_min [r; g; b]) in *.
  (* the right-hand side over the reals *)
  assert (Hgrey : ((red c =? green c) && (green c =? blue c) = true
                   <-> FR r = FR g /\ FR g = FR b)).
  { rewrite andb_true_iff, (eqb_R _ _ Fr0 Fg0), (eqb_R _ _ Fg0 Fb0), Er, Eg, Eb.
    reflexivity. }
  assert (Hspread : (FR min < FR max)%R <-> ~ (FR r = FR g /\ FR g = FR b)).
  { split.
    - intros Hlt [E1 E2].
      assert (FR max = FR r) by (destruct Hmax as [-> | [-> | ->]]; lra).
      assert (FR min = FR r) by (destruct Hmin as [-> | [-> | ->]]; lra).
      lra.
    - intros Hne. destruct (Rlt_le_dec (FR min) (FR max)) as [C|C]; [exact C|].
      exfalso. apply Hne. lra. }
  destruct (0 <? max) eqn:E.
  - apply (ltb_R 0 max finite_0 Fmax) in E. rewrite FR_0 in E.
    destruct (Hsat E) as (Fsat & _ & Hpos).
    apply eq_true_iff_eq. rewrite (ltb_R 0 _ finite_0 Fsat), FR_0, Hpos, Hchr, Hspread.
    rewrite negb_true_iff, <- not_true_iff_false, Hgrey. reflexivity.
  - apply (ltb_R_false 0 max finite_0 Fmax) in E. rewrite FR_0 in E.
    rewrite ltb_irrefl. symmetry. apply negb_false_iff, Hgrey. lra.
Qed.

(** At the red with a trace of blue. *)
Lemma saturation_positive_iff_witness :
  (0 <? sat (hsvOf nearlyRed)) =
    negb ((red nearlyRed =? green nearlyRed) && (green nearlyRed =? blue nearlyRed)).
Proof.
  apply (saturation_positive_iff nearlyRed).
  unfold inGamut, channel. repeat split; reflexivity.
Defined.

(** *** The sector of the hue *)

(** A negative float is at most the largest negative float, and rounding
    does not move a real past that float. *)
Lemma negative_float_step (x : float) :
  (FR x < 0)%R -> (FR x <= - pow2 (-1074))%R.
Proof.
  intros H. destruct (SF2R_grid (Prim2SF x) (Prim2SF_valid x)) as [k Ek].
  fold (FR x) in Ek. pose proof (pow2_pos (-1074)) as Hp.
  assert (Hk : (k < 0)%Z) by (apply lt_IZR; rewrite Ek in H; nra).
  rewrite Ek. replace (- pow2 (-1074))%R with (IZR (-1) * pow2 (-1074))%R by lra.
  apply Rmult_le_compat_r; [lra|]. apply IZR_le. lia.
Qed.

Lemma Rnd_negative_step (x z : R) :
  Rnd x z -> (x <= - pow2 (-1074))%R -> (z <= - pow2 (-1074))%R.
Proof.
  intros H Hx.
  assert (E : SF2R (S754_finite true 1 (-1074)) = (- pow2 (-1074))%R).
  { cbn [SF2R]. unfold F2R, cond_Zopp. rewrite opp_IZR. lra. }
  rewrite <- E in *. apply (Rnd_le_SF _ _ _ H); [reflexivity | exact Hx].
Qed.

(** The sign of [60 * ((u - min - (v - min)) / chr)] is the sign of [u - v];
    when [u] is the smallest channel and [v] is larger the result is
    negative, not a zero. *)
Lemma scaled_difference_sign (u v min chr : float) (M : R) :
  finite u -> finite v -> finite min -> finite chr ->
  (0 <= FR min)%R -> (M <= 1)%R ->
  (FR min <= FR u <= M)%R -> (FR min <= FR v <= M)%R ->
  Rnd (M - FR min) (FR chr) -> (0 < FR chr)%R ->
  let h := 60 * ((u - min - (v - min)) / chr) in
  ((FR v <= FR u)%R -> (0 <= FR h)%R) /\
  ((FR u <= FR v)%R -> (FR h <= 0)%R) /\
  (FR u = FR min -> (FR u < FR v)%R -> (FR h < 0)%R).
Proof.
  intros Fu Fv Fm Fc Hm HM Hu Hv Hchr Hpos h.
  assert (Hc1 : (FR chr <= 1)%R).
  { rewrite <- FR_1. apply (Rnd_le _ _ 1 Hchr). rewrite FR_1. lra. }
  destruct (sub_R u min Fu Fm) as [Fa Ra]; [apply Rabs_small, Rabs_le; lra|].
  destruct (sub_R v min Fv Fm) as [Fb Rb]; [apply Rabs_small, Rabs_le; lra|].
  assert (Ha : (0 <= FR (u - min) <= FR chr)%R).
  { split; [apply (Rnd_sign _ _ Ra); lra|]. apply (Rnd_mono _ _ _ _ Ra Hchr). lra. }
  assert (Hb : (0 <= FR (v - min) <= FR chr)%R).
  { split; [apply (Rnd_sign _ _ Rb); lra|]. apply (Rnd_mono _ _ _ _ Rb Hchr). lra. }
  destruct (sub_R (u - min) (v - min) Fa Fb) as [Fd Rd]; [apply Rabs_small, Rabs_le; lra|].
  assert (Hd : (Rabs (FR (u - min - (v - min))) <= FR chr)%R).
  { apply (Rnd_abs_le _ _ chr Rd). apply Rabs_le. lra. }
  apply Rabs_bounds in Hd.
  assert (Hinv : (0 < / FR chr)%R) by apply Rinv_0_lt_compat, Hpos.
  assert (Hq0 : (Rabs (FR (u - min - (v - min)) / FR chr) <= 1)%R).
  { apply Rabs_le. split.
    - apply Rmult_le_reg_r with (FR chr); [exact Hpos|].
      unfold Rdiv. rewrite Rmult_assoc, Rinv_l by lra. lra.
    - apply Rmult_le_reg_r with (FR chr); [exact Hpos|].
      unfold Rdiv. rewrite Rmult_assoc, Rinv_l by lra. lra. }
  destruct (div_R (u - min - (v - min)) chr Fd Fc) as [Fq Rq]; [lra | apply Rabs_small; lra |].
  assert (Hq : (Rabs (FR ((u - min - (v - min)) / chr)) <= 1)%R).
  { rewrite <- FR_1. apply (Rnd_abs_le _ _ 1 Rq). rewrite FR_1. exact Hq0. }
  apply Rabs_bounds in Hq.
  destruct (mul_R 60 ((u - min - (v - min)) / chr) finite_60 Fq) as [Fh Rh].
  { rewrite FR_60. apply Rabs_small, Rabs_le. lra. }
  rewrite FR_60 in Rh. fold h in Fh, Rh.
  set (a := u - min) in *. set (c := v - min) in *.
  set (d := a - c) in *. set (q := d / chr) in *.
  split; [|split].
  - intros Hvu.
    assert (FR c <= FR a)%R by (apply (Rnd_mono _ _ _ _ Rb Ra); lra).
    assert (0 <= FR d)%R by (apply (Rnd_sign _ _ Rd); lra).
    assert (0 <= FR q)%R.
    { apply (Rnd_sign _ _ Rq). apply Rmult_le_pos; lra. }
    apply (Rnd_sign _ _ Rh). lra.
  - intros Huv.
    assert (FR a <= FR c)%R by (apply (Rnd_mono _ _ _ _ Ra Rb); lra).
    assert (FR d <= 0)%R by (apply (Rnd_sign _ _ Rd); lra).
    assert (FR q <= 0)%R.
    { apply (Rnd_sign _ _ Rq). unfold Rdiv.
      replace (FR d * / FR chr)%R with (- ((- FR d) * / FR chr))%R by ring.
      assert (0 <= (- FR d) * / FR chr)%R by (apply Rmult_le_pos; lra). lra. }
    apply (Rnd_sign _ _ Rh). lra.
  - intros Emin Hlt.
    assert (Ea : FR a = 0%R).
    { replace (FR u - FR min)%R with 0%R in Ra by lra.
      exact (Rnd_unique _ _ _ Ra Rnd_0). }
    assert (Hc : (0 < FR c)%R).
    { rewrite <- FR_0. apply (ltb_R 0 c finite_0 Fb).
      apply (sub_positive v min Fv Fm); [apply Rabs_le; lra | lra]. }
    assert (Ed : FR d = (- FR c)%R).
    { apply (Rnd_unique (FR a - FR c)); [exact Rd|].
      rewrite Ea. replace (0 - FR c)%R with (- FR c)%R by ring.
      apply Rnd_opp, Rnd_SF2R, Prim2SF_valid. }
    pose proof (pow2_pos (-1074)) as Hp.
    assert (Hd' : (FR d <= - pow2 (-1074))%R) by (apply negative_float_step; lra).
    assert (Hq' : (FR q <= - pow2 (-1074))%R).
    { apply (Rnd_negative_step _ _ Rq). apply (Rle_trans _ (FR d)); [|exact Hd'].
      apply Rmult_le_reg_r with (FR chr); [exact Hpos|].
      unfold Rdiv. rewrite Rmult_assoc, Rinv_l by lra. nra. }
    assert (Hh' : (FR h <= - pow2 (-1074))%R).
    { apply (Rnd_negative_step _ _ Rh). lra. }
    lra.
Qed.

(** Adding the offset of an arm to a part of known sign. *)
Lemma offset_hue_sector (base h : float) (B : R) (lo hi : float) :
  finite base -> FR base = B -> (60 <= B <= 300)%R ->
  finite h -> (Rabs (FR h) <= 60)%R ->
  finite lo -> finite hi ->
  (FR lo <= B + FR h <= FR hi)%R ->
  (lo <=? base + h) = true /\ (base + h <=? hi) = true.
Proof.
  intros Fb Eb HB Fh Hh Flo Fhi Hin. apply Rabs_bounds in Hh.
  destruct (add_R base h Fb Fh) as [F Rn]; [apply Rabs_small, Rabs_le; lra|].
  rewrite Eb in Rn. split.
  - apply (leb_R lo _ Flo F). apply (Rnd_ge _ _ lo Rn). lra.
  - apply (leb_R _ hi F Fhi). apply (Rnd_le _ _ hi Rn). lra.
Qed.

Lemma leb_R_false (x y : float) :
  finite x -> finite y -> ((x <=? y) = false <-> (FR y < FR x)%R).
Proof.
  intros Fx Fy. pose proof (leb_R x y Fx Fy) as H.
  destruct (x <=? y); split; intros H'; try discriminate; try reflexivity.
  - assert (FR x <= FR y)%R by (apply H; reflexivity). lra.
  - destruct (Rle_lt_dec (FR x) (FR y)) as [C|C]; [|exact C].
    apply H in C. discriminate.
Qed.

Lemma eqb_R_false (x y : float) :
  finite x -> finite y -> FR x <> FR y -> (x =? y) = false.
Proof.
  intros Fx Fy H. apply not_true_iff_false. intros E.
  apply (eqb_R x y Fx Fy) in E. contradiction.
Qed.

(** X9: for a colour of the data model with a positive saturation, the hue
    lies in the sixth of the colour wheel given by the order of the three
    channels. *)
Theorem hue_in_sector (c : MSColor) :
  inGamut c ->
  (0 <? sat (hsvOf c)) = true ->
  (fst (hueSector c) <=? hue (hsvOf c)) = true /\
  (hue (hsvOf c) <=? snd (hueSector c)) = true.
Proof.
  intros H.
  destruct (inGamut_channels c H)
    as ((Fr & Fg & Fb) & (Er & Eg & Eb) & (Fr0 & Fg0 & Fb0) & (Rr & Rg & Rb)).
  cbv zeta in *. unfold hsvOf, hueSector. cbn [sat hue].
  set (r := parseFloat (red c)) in *. set (g := parseFloat (green c)) in *.
  set (b := parseFloat (blue c)) in *.
  destruct (max_channel_R r g b Fr Fg Fb Rr Rg Rb) as [Fmax Rmax].
  destruct (min_channel_R r g b Fr Fg Fb Rr Rg Rb) as [Fmin Rmin].
  destruct (chroma_R r g b Fr Fg Fb Rr Rg Rb) as (Fchr & Rchr & Hchr).
  pose proof (saturation_R r g b Fr Fg Fb Rr Rg Rb) as Hsat. cbv zeta in Hsat.
  pose proof (Math_max_R r g b Fr Fg Fb) as (Hmax & M1 & M2 & M3).
  pose proof (Math_min_R r g b Fr Fg Fb) as (Hmin & m1 & m2 & m3).
  cbv zeta in Hmax, M1, M2, M3, Hmin, m1, m2, m3.
  set (max := Math_max [r; g; b]) in *. set (min := Math_min [r; g; b]) in *.
  set (chr := max - min) in *.
  destruct (0 <? max) eqn:E; [|rewrite ltb_irrefl; discriminate].
  apply (ltb_R 0 max finite_0 Fmax) in E. rewrite FR_0 in E.
  destruct (Hsat E) as (Fsat & _ & Hpos). intros Hs. rewrite Hs.
  apply (ltb_R 0 _ finite_0 Fsat) in Hs. rewrite FR_0 in Hs. apply Hpos in Hs.
  assert (HM : (FR max <= 1)%R) by lra.
  assert (Hm : (0 <= FR min)%R) by lra.
  assert (Fmax' : FR max = FR r \/ FR max = FR g \/ FR max = FR b)
    by (destruct Hmax as [-> | [-> | ->]]; auto).
  assert (Fmin' : FR min = FR r \/ FR min = FR g \/ FR min = FR b)
    by (destruct Hmin as [-> | [-> | ->]]; auto).
  destruct ((green c <=? red c) && (blue c <=? red c)) eqn:Ered.
  - (* the red channel is the largest *)
    apply andb_prop in Ered as [Hgr Hbr].
    apply (leb_R _ _ Fg0 Fr0) in Hgr. apply (leb_R _ _ Fb0 Fr0) in Hbr.
    rewrite <- Er, <- Eg in Hgr. rewrite <- Er, <- Eb in Hbr.
    assert (Hr : (r =? max) = true) by (apply (eqb_R r max Fr Fmax); lra).
    rewrite Hr. unfold hueR.
    destruct (scaled_difference_R g b min chr (FR max)) as [Fh Hh]; try assumption; try lra.
    destruct (scaled_difference_sign g b min chr (FR max)) as (Hge & Hle & Hlt);
      try assumption; try lra.
    cbv zeta in Hge, Hle, Hlt. apply Rabs_bounds in Hh.
    set (h := 60 * ((g - min - (b - min)) / chr)) in *.
    destruct (blue c <=? green c) eqn:Ebg; cbn [fst snd].
    + apply (leb_R _ _ Fb0 Fg0) in Ebg. rewrite <- Eb, <- Eg in Ebg.
      specialize (Hge Ebg).
      assert (Hw : (h <? 0) = false) by (apply (ltb_R_false h 0 Fh finite_0); rewrite FR_0; lra).
      rewrite Hw. split.
      * apply (leb_R 0 h finite_0 Fh). rewrite FR_0. lra.
      * apply (leb_R h 60 Fh finite_60). rewrite FR_60. lra.
    + apply (leb_R_false _ _ Fb0 Fg0) in Ebg. rewrite <- Eb, <- Eg in Ebg.
      assert (Hmg : FR g = FR min) by lra.
      specialize (Hlt Hmg Ebg).
      assert (Hw : (h <? 0) = true) by (apply (ltb_R h 0 Fh finite_0); rewrite FR_0; lra).
      rewrite Hw.
      destruct (add_R h 360 Fh finite_360) as [F Rn];
        [rewrite FR_360; apply Rabs_small, Rabs_le; lra|].
      rewrite FR_360 in Rn. split.
      * apply (leb_R 300 _ finite_300 F). apply (Rnd_ge _ _ 300 Rn). rewrite FR_300. lra.
      * apply (leb_R _ 360 F finite_360). apply (Rnd_le _ _ 360 Rn). rewrite FR_360. lra.
  - assert (Hnr : (FR r < FR g)%R \/ (FR r < FR b)%R).
    { apply andb_false_iff in Ered as [Hx|Hx];
        [apply (leb_R_false _ _ Fg0 Fr0) in Hx | apply (leb_R_false _ _ Fb0 Fr0) in Hx];
        rewrite <- ?Er, <- ?Eg, <- ?Eb in Hx; auto. }
    assert (Hr : (r =? max) = false) by (apply (eqb_R_false r max Fr Fmax); lra).
    rewrite Hr.
    destruct (blue c <=? green c) eqn:Ebg.
    + (* the green channel is the largest *)
      apply (leb_R _ _ Fb0 Fg0) in Ebg. rewrite <- Eb, <- Eg in Ebg.
      assert (Hg : (g =? max) = true) by (apply (eqb_R g max Fg Fmax); lra).
      rewrite Hg. unfold hueG.
      destruct (scaled_difference_R b r min chr (FR max)) as [Fh Hh]; try assumption; try lra.
      destruct (scaled_difference_sign b r min chr (FR max)) as (Hge & Hle & _);
        try assumption; try lra.
      cbv zeta in Hge, Hle. pose proof (Rabs_bounds _ _ Hh) as Hh'.
      destruct (red c <=? blue c) eqn:Erb; cbn [fst snd].
      * apply (leb_R _ _ Fr0 Fb0) in Erb. rewrite <- Er, <- Eb in Erb.
        specialize (Hge Erb).
        apply (offset_hue_sector 120 _ 120); auto using finite_120, FR_120, finite_180.
        -- lra.
        -- rewrite FR_120, FR_180. lra.
      * apply (leb_R_false _ _ Fr0 Fb0) in Erb. rewrite <- Er, <- Eb in Erb.
        assert (Hrb : (FR b <= FR r)%R) by lra. specialize (Hle Hrb).
        apply (offset_hue_sector 120 _ 120); auto using finite_120, FR_120, finite_60.
        -- lra.
        -- rewrite FR_60, FR_120. lra.
    + (* the blue channel is the largest *)
      apply (leb_R_false _ _ Fb0 Fg0) in Ebg. rewrite <- Eb, <- Eg in Ebg.
      assert (Hg : (g =? max) = false) by (apply (eqb_R_false g max Fg Fmax); lra).
      assert (Hb : (b =? max) = true) by (apply (eqb_R b max Fb Fmax); lra).
      rewrite Hg, Hb. unfold hueB.
      destruct (scaled_difference_R r g min chr (FR max)) as [Fh Hh]; try assumption; try lra.
      destruct (scaled_difference_sign r g min chr (FR max)) as (Hge & Hle & _);
        try assumption; try lra.
      cbv zeta in Hge, Hle. pose proof (Rabs_bounds _ _ Hh) as Hh'.
      destruct (green c <=? red c) eqn:Egr; cbn [fst snd].
      * apply (leb_R _ _ Fg0 Fr0) in Egr. rewrite <- Er, <- Eg in Egr.
        specialize (Hge Egr).
        apply (offset_hue_sector 240 _ 240); auto using finite_240, FR_240, finite_300.
        -- lra.
        -- rewrite FR_240, FR_300. lra.
      * apply (leb_R_false _ _ Fg0 Fr0) in Egr. rewrite <- Er, <- Eg in Egr.
        assert (Hrg : (FR r <= FR g)%R) by lra. specialize (Hle Hrg).
        apply (offset_hue_sector 240 _ 240); auto using finite_240, FR_240, finite_180.
        -- lra.
        -- rewrite FR_180, FR_240. lra.
Qed.

(** At the red with a trace of blue, whose hue is the upper bound 360 of the
    last sector. *)
Lemma hue_in_sector_witness :
  (300 <=? hue (hsvOf nearlyRed)) = true /\ (hue (hsvOf nearlyRed) <=? 360) = true.
Proof.
  apply (hue_in_sector nearlyRed).
  - unfold inGamut, channel. repeat split; reflexivity.
  - reflexivity.
Defined.

(** *** The luma *)

(** A weight between 0 and 1 times a channel: the product grows with the
    channel. *)
Lemma weighted_channel_R (k x y : float) :
  finite k -> finite x -> finite y ->
  (0 <= FR k <= 1)%R -> (0 <= FR x <= FR y)%R -> (FR y <= 1)%R ->
  finite (k * x) /\ finite (k * y) /\
  (0 <= FR (k * x) <= FR (k * y))%R /\ (FR (k * y) <= 1)%R.
Proof.
  intros Fk Fx Fy Hk Hx Hy.
  assert (0 <= FR k * FR x <= FR k * FR y)%R by nra.
  assert (FR k * FR y <= 1)%R by nra.
  destruct (mul_R k x Fk Fx) as [Fkx Rkx]; [apply Rabs_small, Rabs_le; lra|].
  destruct (mul_R k y Fk Fy) as [Fky Rky]; [apply Rabs_small, Rabs_le; lra|].
  split; [exact Fkx|]. split; [exact Fky|]. split; [split|].
  - apply (Rnd_sign _ _ Rkx). lra.
  - apply (Rnd_mono _ _ _ _ Rkx Rky). lra.
  - rewrite <- FR_1. apply (Rnd_le _ _ 1 Rky). rewrite FR_1. lra.
Qed.

(** A sum of two bounded terms grows with each of them. *)
Lemma sum_R (x x' y y' : float) :
  finite x -> finite x' -> finite y -> finite y' ->
  (0 <= FR x <= FR x')%R -> (FR x' <= 3)%R ->
  (0 <= FR y <= FR y')%R -> (FR y' <= 3)%R ->
  finite (x + y) /\ finite (x' + y') /\ (0 <= FR (x + y) <= FR (x' + y'))%R.
Proof.
  intros Fx Fx' Fy Fy' Hx Hx' Hy Hy'.
  destruct (add_R x y Fx Fy) as [F R1]; [apply Rabs_small, Rabs_le; lra|].
  destruct (add_R x' y' Fx' Fy') as [F' R2]; [apply Rabs_small, Rabs_le; lra|].
  split; [exact F|]. split; [exact F'|]. split.
  - apply (Rnd_sign _ _ R1). lra.
  - apply (Rnd_mono _ _ _ _ R1 R2). lra.
Qed.

Lemma luma_weight (k : float) :
  (0 <=? k) = true -> (k <=? 1) = true -> finite k /\ (0 <= FR k <= 1)%R.
Proof. intros H0 H1. apply channel_R. split; assumption. Qed.

(** X10: for a colour of the data model the luma is at least 0 and stays
    below 1: it grows with each channel, and at white the three rounded
    weights add up to the float just below 1. *)
Theorem luma_between_0_and_1 (c : MSColor) :
  inGamut c ->
  (0 <=? luma (hsvOf c)) = true /\
  (luma (hsvOf c) <=? luma (hsvOf (mkColor 1 1 1))) = true /\
  (luma (hsvOf c) <? 1) = true.
Proof.
  intros H. destruct (inGamut_channels c H) as ((Fr & Fg & Fb) & _ & _ & (Rr & Rg & Rb)).
  cbv zeta in *. unfold hsvOf at 1 2 4. cbn [luma].
  change (luma (hsvOf (mkColor 1 1 1))) with (0.3 * 1 + 0.59 * 1 + 0.11 * 1).
  set (r := parseFloat (red c)) in *. set (g := parseFloat (green c)) in *.
  set (b := parseFloat (blue c)) in *.
  destruct (luma_weight 0.3 eq_refl eq_refl) as [F3 R3].
  destruct (luma_weight 0.59 eq_refl eq_refl) as [F59 R59].
  destruct (luma_weight 0.11 eq_refl eq_refl) as [F11 R11].
  pose proof FR_1 as E1. pose proof finite_1 as F1.
  destruct (weighted_channel_R 0.3 r 1 F3 Fr F1) as (Fa & Fa' & Ha & Ha'); try lra.
  destruct (weighted_channel_R 0.59 g 1 F59 Fg F1) as (Fb' & Fb'' & Hb & Hb'); try lra.
  destruct (weighted_channel_R 0.11 b 1 F11 Fb F1) as (Fc & Fc' & Hc & Hc'); try lra.
  destruct (sum_R (0.3 * r) (0.3 * 1) (0.59 * g) (0.59 * 1)) as (Fs & Fs' & Hs);
    try assumption; try lra.
  assert (Hs' : (FR (0.3 * 1 + 0.59 * 1) <= 3)%R).
  { assert (E : (0.3 * 1 + 0.59 * 1 <=? 1) = true) by reflexivity.
    apply (leb_R _ _ Fs' F1) in E. lra. }
  destruct (sum_R (0.3 * r + 0.59 * g) (0.3 * 1 + 0.59 * 1) (0.11 * b) (0.11 * 1))
    as (Fl & Fl' & Hl); try assumption; try lra.
  assert (Hw : (FR (0.3 * 1 + 0.59 * 1 + 0.11 * 1) < 1)%R).
  { assert (E : (0.3 * 1 + 0.59 * 1 + 0.11 * 1 <? 1) = true) by reflexivity.
    apply (ltb_R _ _ Fl' F1) in E. lra. }
  split; [|split].
  - apply (leb_R 0 _ finite_0 Fl). rewrite FR_0. lra.
  - apply (leb_R _ _ Fl Fl'). lra.
  - apply (ltb_R _ 1 Fl F1). lra.
Qed.

(** At white. *)
Lemma luma_between_0_and_1_witness :
  (0 <=? luma (hsvOf (mkColor 1 1 1))) = true /\
  (luma (hsvOf (mkColor 1 1 1)) <=? luma (hsvOf (mkColor 1 1 1))) = true /\
  (luma (hsvOf (mkColor 1 1 1)) <? 1) = true.
Proof.
  apply (luma_between_0_and_1 (mkColor 1 1 1)).
  unfold inGamut, channel. repeat split; reflexivity.
Defined.

(** ** Hue of a layer and the comparator *)

(** X11: the sort key of a layer whose hue can be read is a number between
    0 and 360, never [NaN]. *)
Theorem getLayerHue_in_range (h : heap) (r : ref) :
  readable h r ->
  exists k, getLayerHue h r = Ok k /\ (0 <=? k) = true /\ (k <=? 360) = true.
Proof.
  intros Hr. destruct (getLayerHue_readable h r Hr) as (k & E & Fk & Rk).
  exists k. split; [exact E|]. apply in_hue_range; assumption.
Qed.

(** At the rose shape of [fourHues]. *)
Lemma getLayerHue_in_range_witness :
  exists k, getLayerHue fourHues 3%positive = Ok k /\
    (0 <=? k) = true /\ (k <=? 360) = true.
Proof.
  apply (getLayerHue_in_range fourHues 3%positive).
  eexists. split; [vm_compute; reflexivity|].
  unfold inGamut, channel. cbn. repeat split; reflexivity.
Defined.

(** X12: only a shape group has a sort key other than 0. *)
Theorem getLayerHue_nonzero_shape (h : heap) (r : ref) (k : float) :
  getLayerHue h r = Ok k ->
  k <> 0 ->
  isShapeGroup h r = true.
Proof.
  unfold getLayerHue, constructLayerColor.
  destruct (getLayerBackground h r) as [[c|]|e] eqn:E; cbn [mbind result_bind];
    try discriminate.
  - intros _ _. rewrite (getLayerBackground_isShapeGroup _ _ _ E). reflexivity.
  - intros [= <-] Hk. contradiction.
Qed.

(** At the azure shape of [fourHues], of hue 210. *)
Lemma getLayerHue_nonzero_shape_witness : isShapeGroup fourHues 1%positive = true.
Proof.
  apply (getLayerHue_nonzero_shape fourHues 1%positive 210).
  - vm_compute. reflexivity.
  - intros H. apply (f_equal Prim2SF) in H. vm_compute in H. discriminate.
Defined.




(** ** Hue sorter, when it returns and when it throws *)

Lemma getLayerHue_Ok_iff (h : heap) (r : ref) :
  (exists k, getLayerHue h r = Ok k) <-> (exists bg, getLayerBackground h r = Ok bg).
Proof.
  unfold getLayerHue, constructLayerColor.
  destruct (getLayerBackground h r) as [[c|]|e]; cbn [mbind result_bind].
  - split; eauto.
  - split; eauto.
  - split; intros [? ?]; discriminate.
Qed.

Lemma result_cases {A : Type} (m : result A) : (exists a, m = Ok a) \/ m = Throw TypeError.
Proof. destruct m as [a|[]]; eauto. Qed.

Section SortReturns.
Context {A : Type} (compareFn : A -> A -> result float) (ok : A -> Prop).
Hypothesis compare_ok : forall x y, ok x -> ok y -> exists v, compareFn x y = Ok v.
Hypothesis compare_inv : forall x y v, compareFn x y = Ok v -> ok x /\ ok y.

Lemma sort_insert_returns (x : A) (l : list A) :
  ok x -> Forall ok l -> exists out, sort_insert compareFn x l = Ok out.
Proof using compare_ok.
  intros Hx Hl. induction Hl as [|y l Hy Hl IH]; cbn [sort_insert]; [eauto|].
  destruct (compare_ok x y Hx Hy) as [v ->]. cbn [mbind result_bind].
  destruct (0 <? v); [|eauto].
  destruct IH as [out ->]. cbn [mbind result_bind]. eauto.
Qed.

Lemma Array_sort_returns (l : list A) :
  Forall ok l -> exists out, Array_sort compareFn l = Ok out.
Proof using compare_ok.
  intros Hl. induction Hl as [|x l Hx Hl IH]; cbn [Array_sort]; [eauto|].
  destruct IH as [s Es]. rewrite Es. cbn [mbind result_bind].
  apply sort_insert_returns; [exact Hx|].
  rewrite <- (Array_sort_permutation _ _ _ Es). exact Hl.
Qed.

(** With two elements or more every element meets the comparator, so a sort
    that returns has found the comparator defined on all of them. *)
Lemma Array_sort_Ok_inv (l out : list A) :
  Array_sort compareFn l = Ok out -> (2 <= length l)%nat -> Forall ok l.
Proof using compare_inv.
  revert out. induction l as [|x l IH]; intros out; cbn [length Array_sort]; [lia|].
  destruct (Array_sort compareFn l) as [s|e] eqn:Es; cbn [mbind result_bind];
    [|discriminate].
  intros E Hlen.
  pose proof (Array_sort_permutation _ _ _ Es) as Hp.
  destruct s as [|y s].
  { apply Permutation_length in Hp. cbn [length] in Hp. lia. }
  cbn [sort_insert] in E.
  destruct (compareFn x y) as [v|e] eqn:Ev; cbn [mbind result_bind] in E; [|discriminate].
  destruct (compare_inv _ _ _ Ev) as [Hx Hy].
  constructor; [exact Hx|].
  destruct l as [|z [|z' l]].
  - constructor.
  - apply Permutation_length in Hp as Hl. destruct s; [|discriminate Hl].
    apply Permutation_singleton_l in Hp. injection Hp as ->.
    constructor; [exact Hy | constructor].
  - apply (IH (y :: s)); [reflexivity | cbn [length]; lia].
Qed.
End SortReturns.

Lemma hueComparator_Ok (h : heap) (x y : ref) :
  (exists kx, getLayerHue h x = Ok kx) -> (exists ky, getLayerHue h y = Ok ky) ->
  exists v, hueComparator h x y = Ok v.
Proof.
  intros [kx Ex] [ky Ey]. unfold hueComparator. rewrite Ex, Ey.
  cbn [mbind result_bind]. eauto.
Qed.

Lemma hueComparator_Ok_inv (h : heap) (x y : ref) (v : float) :
  hueComparator h x y = Ok v ->
  (exists kx, getLayerHue h x = Ok kx) /\ (exists ky, getLayerHue h y = Ok ky).
Proof.
  unfold hueComparator.
  destruct (getLayerHue h x) as [kx|e]; cbn [mbind result_bind]; [|discriminate].
  destruct (getLayerHue h y) as [ky|e]; cbn [mbind result_bind]; [|discriminate].
  eauto.
Qed.

Lemma sortLayersByHue_returns_perm (h : heap) (ls : list ref) :
  Forall (fun r => exists bg, getLayerBackground h r = Ok bg) ls ->
  exists out, sortLayersByHue h ls = Ok out /\ ls ≡ₚ out.
Proof.
  intros Hls.
  destruct (Array_sort_returns (hueComparator h) (fun r => exists k, getLayerHue h r = Ok k)
              (hueComparator_Ok h) ls) as [out E].
  { eapply Forall_impl; [exact Hls|]. intros r Hr. apply getLayerHue_Ok_iff, Hr. }
  exists out. split; [exact E|]. apply (Array_sort_permutation _ _ _ E).
Qed.

(** The hue of the shape whose blue channel is [-Infinity]. *)
Example hue_of_unbounded_is_NaN :
  (x ← getLayerHue unboundedScene 1%positive; Ok (is_nan x)) = Ok true.
Proof. vm_compute. reflexivity. Qed.

(** X14: when the extractor answers on every layer of the list, the sort
    returns a permutation of the list, whatever the colours are: a hue that
    is [NaN] for a colour outside the data model does not stop it. *)
Theorem sortLayersByHue_returns (h : heap) (ls : list ref) :
  (forall r, r ∈ ls -> exists bg, getLayerBackground h r = Ok bg) ->
  exists out, sortLayersByHue h ls = Ok out /\ ls ≡ₚ out.
Proof. intros Hls. apply sortLayersByHue_returns_perm, Forall_forall, Hls. Qed.

(** At the two layers of a scene with a colour outside the data model, whose
    hue is [NaN]. *)
Lemma sortLayersByHue_returns_witness :
  exists out, sortLayersByHue unboundedScene [1; 2]%positive = Ok out /\
    [1; 2]%positive ≡ₚ out.
Proof.
  apply (sortLayersByHue_returns unboundedScene [1; 2]%positive).
  intros r Hr.
  repeat (apply elem_of_cons in Hr as [-> | Hr]; [eexists; vm_compute; reflexivity|]).
  inversion Hr.
Defined.

Lemma getLayerHue_cases (h : heap) (ls : list ref) :
  Forall (fun r => exists k, getLayerHue h r = Ok k) ls \/
  exists r, r ∈ ls /\ getLayerHue h r = Throw TypeError.
Proof.
  induction ls as [|r ls [IH|(r' & Hr' & E')]].
  - left. constructor.
  - destruct (result_cases (getLayerHue h r)) as [Hr|Hr].
    + left. constructor; assumption.
    + right. exists r. split; [apply list_elem_of_here | exact Hr].
  - right. exists r'. split; [now apply list_elem_of_further | exact E'].
Qed.

(** X15: the sort throws exactly when the list has two layers or more and
    the hue of one of them cannot be read; a list of fewer than two layers
    comes back as it is, whether the hue of its layer can be read or not. *)
Theorem sortLayersByHue_throws (h : heap) (ls : list ref) :
  (sortLayersByHue h ls = Throw TypeError <->
   (2 <= length ls)%nat /\ exists r, r ∈ ls /\ getLayerHue h r = Throw TypeError) /\
  ((length ls < 2)%nat -> sortLayersByHue h ls = Ok ls).
Proof.
  split; [split|].
  - intros E. split.
    + destruct ls as [|x [|y ls]]; cbn [length]; [discriminate E | discriminate E | lia].
    + destruct (getLayerHue_cases h ls) as [Hok|Hex]; [|exact Hex].
      destruct (Array_sort_returns (hueComparator h) _ (hueComparator_Ok h) ls Hok)
        as [out E'].
      unfold sortLayersByHue in E. congruence.
  - intros [Hlen (r & Hr & Er)].
    destruct (result_cases (sortLayersByHue h ls)) as [[out E]|E]; [|exact E].
    pose proof (Array_sort_Ok_inv (hueComparator h) _ (hueComparator_Ok_inv h) ls out E Hlen)
      as Hok.
    rewrite Forall_forall in Hok. destruct (Hok r Hr) as [k Ek]. congruence.
  - intros Hlen. destruct ls as [|x [|y ls]]; [reflexivity | reflexivity |].
    cbn [length] in Hlen. lia.
Qed.

(** At the shape without fills of [bareShapeScene], alone and next to the
    red shape. *)
Lemma sortLayersByHue_throws_witness :
  sortLayersByHue bareShapeScene [1%positive] = Ok [1%positive] /\
  sortLayersByHue bareShapeScene [1; 2]%positive = Throw TypeError.
Proof.
  split.
  - apply (proj2 (sortLayersByHue_throws bareShapeScene [1%positive])).
    cbn [length]. lia.
  - apply (proj1 (sortLayersByHue_throws bareShapeScene [1; 2]%positive)).
    split; [cbn [length]; lia|].
    exists 1%positive. split; [apply list_elem_of_here | vm_compute; reflexivity].
Defined.

(** ** Layout engine, whenever it returns *)

Lemma repositioned_refl (L : MSLayer) : repositioned L L.
Proof.
  exists (left (frame L)), (top (frame L)). destruct L as [? ? [? ? ? ?] ? ? ?]. reflexivity.
Qed.

Lemma repositioned_trans (L1 L2 L3 : MSLayer) :
  repositioned L1 L2 -> repositioned L2 L3 -> repositioned L1 L3.
Proof. intros (x & y & ->) (x' & y' & ->). exists x', y'. reflexivity. Qed.

Lemma repositioned_sameButFrame (L L' : MSLayer) :
  repositioned L L' ->
  sameButFrame L L' /\ width (frame L') = width (frame L) /\
  height (frame L') = height (frame L).
Proof. intros (x & y & ->). repeat split. Qed.

Lemma frameOf_None (h : heap) (r : ref) : h !! r = None -> frameOf h r = Throw TypeError.
Proof. intros E. unfold frameOf, deref. rewrite E. reflexivity. Qed.

Lemma setFrame_None (g : MSRect -> MSRect) (h : heap) (r : ref) :
  h !! r = None -> setFrame g r h = Throw TypeError.
Proof. intros E. unfold setFrame, deref. rewrite E. reflexivity. Qed.

(** One step of the loop that returns has found the layer and moved it. *)
Lemma positionLayer_Ok_inv (p : ref) (st st' : LayoutState) (layer : ref) :
  positionLayer p st layer = Ok st' ->
  exists L x y,
    ls_heap st !! layer = Some L /\
    ls_heap st' = <[layer := moveTo x y L]> (ls_heap st) /\
    lastFrame st' = Some layer.
Proof.
  destruct st as [h ht [last|]]; unfold positionLayer; cbn [ls_heap ls_height lastFrame].
  - destruct (h !! last) as [LF|] eqn:HLF;
      [rewrite (frameOf_Some _ _ _ HLF) | rewrite (frameOf_None _ _ HLF)];
      cbn [mbind result_bind]; [|discriminate].
    destruct (h !! layer) as [L|] eqn:HL;
      [rewrite (frameOf_Some _ _ _ HL) | rewrite (frameOf_None _ _ HL)];
      cbn [mbind result_bind]; [|discriminate].
    destruct (h !! p) as [P|] eqn:HP;
      [rewrite (frameOf_Some _ _ _ HP) | rewrite (frameOf_None _ _ HP)];
      cbn [mbind result_bind]; [|discriminate].
    destruct (width (frame P) - 10 <? _).
    + rewrite (setFrame_Some _ _ _ _ HL). cbn [mbind result_bind].
      assert (is_Some (<[layer:=with_frame (set_left 5) L]> h !! last)) as [LF1 HLF1].
      { rewrite lookup_insert. destruct (decide (layer = last)); eauto. }
      rewrite (frameOf_Some _ _ _ HLF1). cbn [mbind result_bind].
      erewrite setFrame_Some by apply lookup_insert_eq. cbn [mbind result_bind].
      erewrite frameOf_Some by apply lookup_insert_eq. cbn [mbind result_bind].
      rewrite insert_insert_eq. intros [= <-].
      eexists L, _, _. split; [reflexivity|]. split; reflexivity.
    + rewrite (setFrame_Some _ _ _ _ HL). cbn [mbind result_bind].
      assert (is_Some (<[layer:=with_frame (set_left (left (frame LF) + width (frame LF) + 5)) L]> h !! last))
        as [LF1 HLF1].
      { rewrite lookup_insert. destruct (decide (layer = last)); eauto. }
      rewrite (frameOf_Some _ _ _ HLF1). cbn [mbind result_bind].
      erewrite setFrame_Some by apply lookup_insert_eq. cbn [mbind result_bind].
      rewrite insert_insert_eq. intros [= <-].
      eexists L, _, _. split; [reflexivity|]. split; reflexivity.
  - destruct (h !! layer) as [L|] eqn:HL.
    + fold (positionLayer p (mkLayoutState h ht None) layer).
      rewrite (setFrame_Some _ _ _ _ HL). cbn [mbind result_bind].
      erewrite setFrame_Some by apply lookup_insert_eq. cbn [mbind result_bind].
      rewrite insert_insert_eq. intros [= <-].
      eexists L, _, _. split; [reflexivity|]. split; reflexivity.
    + rewrite (setFrame_None _ _ _ HL). discriminate.
Qed.

(** The loop that returns has found every layer of the list, has left
    alone every object outside the list, and has at most moved the others. *)
Lemma layoutLoop_Ok_inv (p : ref) (ls : list ref) :
  forall st st',
    layoutLoop p st ls = Ok st' ->
    (forall r, r ∈ ls -> is_Some (ls_heap st !! r)) /\
    (forall r, r ∉ ls -> ls_heap st' !! r = ls_heap st !! r) /\
    (forall r, option_Forall2 repositioned (ls_heap st !! r) (ls_heap st' !! r)).
Proof.
  induction ls as [|layer ls IH]; intros st st'; cbn [layoutLoop].
  - intros [= <-]. split; [intros r Hr; inversion Hr|]. split; [reflexivity|].
    intros r. destruct (ls_heap st !! r); constructor. apply repositioned_refl.
  - destruct (positionLayer p st layer) as [st1|e] eqn:E; cbn [mbind result_bind];
      [|discriminate].
    intros E'. destruct (positionLayer_Ok_inv _ _ _ _ E) as (L & x & y & HL & Hh & _).
    destruct (IH _ _ E') as (Hin & Hout & Hrel). rewrite Hh in Hin, Hout, Hrel.
    split; [|split].
    + intros r Hr. apply elem_of_cons in Hr as [-> | Hr]; [eauto|].
      specialize (Hin r Hr). rewrite lookup_insert in Hin.
      destruct (decide (layer = r)) as [<-|]; eauto.
    + intros r Hr. apply not_elem_of_cons in Hr as [Hne Hr].
      rewrite (Hout r Hr). now apply lookup_insert_ne.
    + intros r. specialize (Hrel r). rewrite lookup_insert in Hrel.
      destruct (decide (layer = r)) as [<-|Hne]; [|exact Hrel].
      rewrite HL. inversion Hrel as [L1 L2 H12 E1 E2|]; subst. constructor.
      apply (repositioned_trans _ (moveTo x y L)); [|exact H12].
      exists x, y. reflexivity.
Qed.

(** The whole layout, when it returns. *)
Lemma layout_Ok_inv (a : ref) (ls : list ref) (h h' : heap) :
  layout a ls h = Ok h' ->
  ls <> [] /\ is_Some (h !! a) /\ (forall r, r ∈ ls -> is_Some (h !! r)) /\
  exists hl A' v,
    (forall r, r ∉ ls -> hl !! r = h !! r) /\
    (forall r, option_Forall2 repositioned (h !! r) (hl !! r)) /\
    hl !! a = Some A' /\
    h' = <[a := with_frame (set_height v) A']> hl.
Proof.
  unfold layout.
  destruct (h !! a) as [A|] eqn:HA;
    [rewrite (frameOf_Some _ _ _ HA) | rewrite (frameOf_None _ _ HA)];
    cbn [mbind result_bind]; [|discriminate].
  destruct ls as [|l0 ls0] eqn:Els; [discriminate|]. rewrite <- Els.
  destruct (frameOf h l0) as [f0|e]; cbn [mbind result_bind]; [|discriminate].
  destruct (layoutLoop a _ ls) as [st'|e] eqn:E; cbn [mbind result_bind]; [|discriminate].
  destruct (layoutLoop_Ok_inv _ _ _ _ E) as (Hin & Hout & Hrel). cbn [ls_heap] in *.
  destruct (ls_heap st' !! a) as [A'|] eqn:HA';
    [rewrite (setFrame_Some _ _ _ _ HA') | rewrite (setFrame_None _ _ _ HA')];
    [|discriminate].
  intros [= <-]. split; [rewrite Els; discriminate|]. split; [eauto|]. split; [exact Hin|].
  exists (ls_heap st'), A', (ls_height st'). auto.
Qed.

(** What a layout that returns has done to the heap. *)
Lemma layout_frames_only (a : ref) (ls : list ref) (h h' : heap) :
  layout a ls h = Ok h' ->
  dom h' = dom h /\
  forall r L, h !! r = Some L ->
    exists L', h' !! r = Some L' /\ sameButFrame L L' /\
      width (frame L') = width (frame L) /\
      (r <> a -> height (frame L') = height (frame L)) /\
      (r ∉ ls -> r <> a -> L' = L).
Proof.
  intros E. destruct (layout_Ok_inv _ _ _ _ E) as (_ & _ & _ & hl & A' & v & Hout & Hrel & HA' & ->).
  split.
  - apply set_eq. intros r. rewrite !elem_of_dom, lookup_insert.
    specialize (Hrel r). destruct (decide (a = r)) as [<-|Hne].
    + rewrite HA' in Hrel. inversion Hrel. split; eauto.
    + inversion Hrel; split; intros [? ?]; eauto; congruence.
  - intros r L HL. specialize (Hrel r). rewrite HL in Hrel.
    inversion Hrel as [L1 L2 H12 E1 E2|]; subst. symmetry in E2.
    destruct (repositioned_sameButFrame _ _ H12) as (Hs & Hw & Hh).
    rewrite lookup_insert. destruct (decide (a = r)) as [<-|Hne].
    + rewrite HA' in E2. injection E2 as <-.
      eexists. split; [reflexivity|]. split; [exact Hs|]. split; [exact Hw|].
      split; intros; congruence.
    + exists L2. split; [exact E2|]. split; [exact Hs|]. split; [exact Hw|].
      split; [intros _; exact Hh|]. intros Hr _. rewrite (Hout r Hr), HL in E2. congruence.
Qed.

(** X16: whenever the layout returns, and whichever of the objects are the
    same one, it has created and deleted no object and has changed nothing
    but frames: every object keeps its kind, name, fills, children and
    symbol master and the width of its frame, and every object but the
    artboard the height of its frame. *)
Theorem layout_changes_frames_only (a : ref) (ls : list ref) (h h' : heap) :
  layout a ls h = Ok h' ->
  dom h' = dom h /\
  forall r L, h !! r = Some L ->
    exists L', h' !! r = Some L' /\ sameButFrame L L' /\
      width (frame L') = width (frame L) /\
      (r <> a -> height (frame L') = height (frame L)) /\
      (r ∉ ls -> r <> a -> L' = L).
Proof. apply layout_frames_only. Qed.

(** At [narrowArtboard] and its three shapes. *)
Lemma layout_changes_frames_only_witness :
  exists h',
    layout 1%positive [2; 3; 4]%positive narrowArtboard = Ok h' /\
    dom h' = dom narrowArtboard /\
    forall r L, narrowArtboard !! r = Some L ->
      exists L', h' !! r = Some L' /\ sameButFrame L L' /\
        width (frame L') = width (frame L) /\
        (r <> 1%positive -> height (frame L') = height (frame L)) /\
        (r ∉ [2; 3; 4]%positive -> r <> 1%positive -> L' = L).
Proof.
  eexists. split; [vm_compute; reflexivity|].
  apply (layout_changes_frames_only 1%positive [2; 3; 4]%positive narrowArtboard).
  vm_compute. reflexivity.
Defined.

Lemma layout_returns (a : ref) (ls : list ref) (h : heap) :
  ls <> [] -> is_Some (h !! a) -> (forall r, r ∈ ls -> is_Some (h !! r)) ->
  exists h', layout a ls h = Ok h'.
Proof.
  intros Hne [A HA] Hls.
  destruct ls as [|l0 ls0] eqn:Els; [congruence|]. rewrite <- Els in *.
  destruct (Hls l0) as [L0 HL0]; [rewrite Els; apply list_elem_of_here|].
  destruct (layoutLoop_effect a ls (mkLayoutState h (height (frame L0) + 10) None))
    as (st' & E & _ & Hin); cbn [ls_heap lastFrame]; eauto; [discriminate|].
  cbn [ls_heap] in Hin. destruct (Hin a A HA) as (A' & HA' & _).
  exists (<[a := with_frame (set_height (ls_height st')) A']> (ls_heap st')).
  unfold layout. rewrite (frameOf_Some _ _ _ HA). cbn [mbind result_bind].
  rewrite Els at 1. rewrite (frameOf_Some _ _ _ HL0). cbn [mbind result_bind].
  rewrite E. cbn [mbind result_bind]. apply setFrame_Some, HA'.
Qed.

(** X17: the layout returns exactly when the list is not empty and the
    artboard and every layer of the list are there; on an empty list
    [layers[0]] is [undefined] and line 55 throws. *)
Theorem layout_returns_iff (a : ref) (ls : list ref) (h : heap) :
  (exists h', layout a ls h = Ok h') <->
  ls <> [] /\ is_Some (h !! a) /\ forall r, r ∈ ls -> is_Some (h !! r).
Proof.
  split.
  - intros [h' E]. destruct (layout_Ok_inv _ _ _ _ E) as (? & ? & ? & _). auto.
  - intros (Hne & Ha & Hls). apply layout_returns; assumption.
Qed.

(** ** Layout engine, on layers that are different objects *)

Lemma positionLayer_placeAfter (p : ref) (h : heap) (ht : float) (last layer : ref)
    (P LF L : MSLayer) :
  last <> layer ->
  h !! p = Some P -> h !! last = Some LF -> h !! layer = Some L ->
  positionLayer p (mkLayoutState h ht (Some last)) layer =
    Ok (mkLayoutState
          (<[layer := with_frame (fun _ => placeAfter (width (frame P)) (frame LF) (frame L)) L]> h)
          (if newRow (width (frame P)) (frame LF) (frame L)
           then ht + (height (frame L) + 5) else ht)
          (Some layer)).
Proof.
  intros Hne HP HLF HL. rewrite (positionLayer_next p h ht last layer P LF L Hne HP HLF HL).
  unfold placeAfter, newRow. destruct (width (frame P) - 10 <? _); reflexivity.
Qed.

Lemma frames_insert_other (h : heap) (x : ref) (v : MSLayer) (ls : list ref)
    (fs : list MSRect) :
  x ∉ ls ->
  Forall2 (fun r f => (frame <$> h !! r) = Some f) ls fs ->
  Forall2 (fun r f => (frame <$> <[x := v]> h !! r) = Some f) ls fs.
Proof.
  intros Hx HF. induction HF as [|r f ls fs Hrf HF IH]; [constructor|].
  apply not_elem_of_cons in Hx as [Hne Hx].
  constructor; [|apply IH, Hx]. rewrite lookup_insert_ne by congruence. exact Hrf.
Qed.

(** The loop after its first step, on a list of layers that are different
    from each other, from the layer placed last and from the artboard. *)
Lemma layoutLoop_places (p : ref) (P : MSLayer) (ls : list ref) :
  forall (fs : list MSRect) (h : heap) (ht : float) (last : ref) (LF : MSLayer),
    h !! p = Some P -> h !! last = Some LF ->
    NoDup ls -> p ∉ ls -> last ∉ ls ->
    Forall2 (fun r f => (frame <$> h !! r) = Some f) ls fs ->
    exists st',
      layoutLoop p (mkLayoutState h ht (Some last)) ls = Ok st' /\
      Forall2 (fun r f => (frame <$> ls_heap st' !! r) = Some f) ls
        (placeRest (width (frame P)) (frame LF) fs) /\
      (forall r, r ∉ ls -> ls_heap st' !! r = h !! r) /\
      ls_height st' = heightRest (width (frame P)) (frame LF) ht fs.
Proof.
  induction ls as [|layer ls IH]; intros fs h ht last LF HP HLF ND Hp Hlast HF.
  - apply Forall2_nil_inv_l in HF as ->. eexists. split; [reflexivity|].
    split; [constructor|]. split; reflexivity.
  - apply Forall2_cons_inv_l in HF as (f & fs' & Hf & HF & ->).
    apply NoDup_cons in ND as [Hnin ND].
    apply not_elem_of_cons in Hp as [Hpl Hp].
    apply not_elem_of_cons in Hlast as [Hll Hlast].
    destruct (h !! layer) as [L|] eqn:HL; [|discriminate Hf].
    injection Hf as <-.
    cbn [layoutLoop].
    rewrite (positionLayer_placeAfter p h ht last layer P LF L Hll HP HLF HL).
    cbn [mbind result_bind].
    set (L' := with_frame (fun _ => placeAfter (width (frame P)) (frame LF) (frame L)) L).
    destruct (IH fs' (<[layer := L']> h)
                (if newRow (width (frame P)) (frame LF) (frame L)
                 then ht + (height (frame L) + 5) else ht) layer L')
      as (st' & E & HF' & Hout & Hht); try assumption.
    + rewrite lookup_insert_ne by congruence. exact HP.
    + apply lookup_insert_eq.
    + apply frames_insert_other; assumption.
    + exists st'. split; [exact E|]. split; [|split].
      * cbn [placeRest]. constructor; [|exact HF'].
        rewrite (Hout layer Hnin), lookup_insert_eq. reflexivity.
      * intros r Hr. apply not_elem_of_cons in Hr as [Hne Hr].
        rewrite (Hout r Hr). now apply lookup_insert_ne.
      * exact Hht.
Qed.

Lemma layout_places_frames (h : heap) (a : ref) (ls : list ref) (A : MSLayer)
    (fs : list MSRect) :
  NoDup (a :: ls) ->
  ls <> [] ->
  h !! a = Some A ->
  Forall2 (fun r f => (frame <$> h !! r) = Some f) ls fs ->
  exists h',
    layout a ls h = Ok h' /\
    Forall2 (fun r f => (frame <$> h' !! r) = Some f) ls (placeAll (width (frame A)) fs) /\
    (frame <$> h' !! a) = Some (set_height (totalHeight (width (frame A)) fs) (frame A)).
Proof.
  intros ND Hne HA HF. apply NoDup_cons in ND as [Ha ND].
  destruct HF as [|l0 f0 ls fs Hf0 HF]; [congruence|]. clear Hne.
  apply not_elem_of_cons in Ha as [Hal0 Ha]. apply NoDup_cons in ND as [Hl0 ND].
  destruct (h !! l0) as [L0|] eqn:HL0; [|discriminate Hf0]. injection Hf0 as <-.
  unfold layout. rewrite (frameOf_Some _ _ _ HA), (frameOf_Some _ _ _ HL0).
  cbn [mbind result_bind layoutLoop].
  rewrite (positionLayer_first _ _ _ _ _ HL0). cbn [mbind result_bind].
  destruct (layoutLoop_places a A ls fs (<[l0 := moveTo 5 5 L0]> h)
              (height (frame L0) + 10) l0 (moveTo 5 5 L0))
    as (st' & E & HF' & Hout & Hht); try assumption.
  - rewrite lookup_insert_ne by congruence. exact HA.
  - apply lookup_insert_eq.
  - apply frames_insert_other; assumption.
  - rewrite E. cbn [mbind result_bind].
    assert (HA' : ls_heap st' !! a = Some A).
    { rewrite (Hout a Ha), lookup_insert_ne by congruence. exact HA. }
    rewrite (setFrame_Some _ _ _ _ HA').
    eexists. split; [reflexivity|]. split.
    + apply frames_insert_other; [apply not_elem_of_cons; auto|].
      cbn [placeAll]. constructor; [|exact HF'].
      rewrite (Hout l0 Hl0), lookup_insert_eq. reflexivity.
    + rewrite lookup_insert_eq, Hht. reflexivity.
Qed.

(** X18: when the artboard and the layers are different objects, the frames
    after the layout are a function of the frames before it and of the
    width of the artboard: the first layer goes to (5, 5); each later layer
    goes 5 to the right of the layer before it, at the same top, unless its
    right edge would pass the width of the artboard less 10, and then goes
    to the left edge 5, 5 below the layer before it; the artboard ends as
    high as the first layer plus 10, plus the height of each layer that
    starts a row plus 5. *)
Theorem layout_places (h : heap) (a : ref) (ls : list ref) (A : MSLayer)
    (fs : list MSRect) :
  NoDup (a :: ls) ->
  ls <> [] ->
  h !! a = Some A ->
  Forall2 (fun r f => (frame <$> h !! r) = Some f) ls fs ->
  exists h',
    layout a ls h = Ok h' /\
    Forall2 (fun r f => (frame <$> h' !! r) = Some f) ls (placeAll (width (frame A)) fs) /\
    (frame <$> h' !! a) = Some (set_height (totalHeight (width (frame A)) fs) (frame A)).
Proof. apply layout_places_frames. Qed.

(** At [narrowArtboard] and its three shapes. *)
Lemma layout_places_witness :
  exists h',
    layout 1%positive [2; 3; 4]%positive narrowArtboard = Ok h' /\
    Forall2 (fun r f => (frame <$> h' !! r) = Some f) [2; 3; 4]%positive
      [mkRect 5 5 40 20; mkRect 50 5 40 20; mkRect 5 30 40 20] /\
    (frame <$> h' !! 1%positive) = Some (mkRect 7 8 100 55).
Proof.
  refine (layout_places narrowArtboard 1%positive [2; 3; 4]%positive
            (mkLayer MSArtboardGroup "Artboard" (mkRect 7 8 100 600) [] [2; 3; 4]%positive None)
            [mkRect 0 0 40 20; mkRect 0 0 40 20; mkRect 0 0 40 20] _ _ eq_refl _).
  - apply (bool_decide_unpack _). vm_compute. exact I.
  - discriminate.
  - repeat constructor.
Defined.

Lemma placeRest_fits (pw : float) (fs : list MSRect) :
  forall last,
    Forall (fun f => left f = 5 \/ (pw - 10 <? left f + width f) = false)
      (placeRest pw last fs).
Proof.
  induction fs as [|f fs IH]; intros last; cbn [placeRest]; constructor; [|apply IH].
  unfold placeAfter. destruct (newRow pw last f) eqn:E; cbn [left width]; [left; reflexivity|].
  right. exact E.
Qed.

Lemma Forall2_Forall_r {A B : Type} (R : A -> B -> Prop) (Q : B -> Prop)
    (l : list A) (k : list B) :
  Forall2 R l k -> Forall Q k -> forall x, x ∈ l -> exists y, R x y /\ Q y.
Proof.
  intros HF. induction HF as [|x y l k Hxy HF IH]; intros HQ z Hz; [inversion Hz|].
  apply Forall_cons in HQ as [Hy HQ].
  apply elem_of_cons in Hz as [-> | Hz]; [eauto | apply IH; assumption].
Qed.

(** X19: when the artboard and the layers are different objects, every
    layer ends either at the left edge 5, where a row starts, or with its
    right edge within the width of the artboard less 10: only a layer that
    starts a row can stick out. *)
Theorem layout_rows_fit (h : heap) (a : ref) (ls : list ref) (A : MSLayer) :
  NoDup (a :: ls) ->
  ls <> [] ->
  h !! a = Some A ->
  (forall r, r ∈ ls -> is_Some (h !! r)) ->
  exists h',
    layout a ls h = Ok h' /\
    forall r, r ∈ ls ->
      exists f, (frame <$> h' !! r) = Some f /\
        (left f = 5 \/ (width (frame A) - 10 <? left f + width f) = false).
Proof.
  intros ND Hne HA Hls.
  assert (exists fs, Forall2 (fun r f => (frame <$> h !! r) = Some f) ls fs) as [fs HF].
  { clear ND Hne. induction ls as [|r ls IH]; [exists []; constructor|].
    destruct IH as [fs HF]; [intros r' Hr'; apply Hls; now apply list_elem_of_further|].
    destruct (Hls r) as [L HL]; [apply list_elem_of_here|].
    exists (frame L :: fs). constructor; [rewrite HL; reflexivity | exact HF]. }
  destruct (layout_places_frames h a ls A fs ND Hne HA HF) as (h' & E & HF' & _).
  exists h'. split; [exact E|].
  apply (Forall2_Forall_r _ _ _ _ HF').
  destruct fs as [|f fs]; cbn [placeAll]; constructor; [left; reflexivity|].
  apply placeRest_fits.
Qed.

(** At [narrowArtboard] and its three shapes. *)
Lemma layout_rows_fit_witness :
  exists h',
    layout 1%positive [2; 3; 4]%positive narrowArtboard = Ok h' /\
    forall r, r ∈ [2; 3; 4]%positive ->
      exists f, (frame <$> h' !! r) = Some f /\
        (left f = 5 \/ (100 - 10 <? left f + width f) = false).
Proof.
  refine (layout_rows_fit narrowArtboard 1%positive [2; 3; 4]%positive
            (mkLayer MSArtboardGroup "Artboard" (mkRect 7 8 100 600) [] [2; 3; 4]%positive None)
            _ _ eq_refl _).
  - apply (bool_decide_unpack _). vm_compute. exact I.
  - discriminate.
  - intros r Hr.
    repeat (apply elem_of_cons in Hr as [-> | Hr]; [eexists; reflexivity|]).
    inversion Hr.
Defined.

(** ** Layout engine: a layer too wide for a row *)

Lemma FR_5 : FR 5 = 5%R. Proof. float_const. Qed.
Lemma FR_10 : FR 10 = 10%R. Proof. float_const. Qed.
Lemma FR_1e9 : FR 1000000000 = 1000000000%R. Proof. float_const. Qed.
Lemma finite_5 : finite 5. Proof. float_const. Qed.
Lemma finite_10 : finite 10. Proof. float_const. Qed.
Lemma finite_1e9 : finite 1000000000. Proof. float_const. Qed.

Lemma pixels_R (x : float) : pixels x -> finite x /\ (0 <= FR x <= 1000000000)%R.
Proof.
  intros [H0 H1].
  assert (Fx : finite x) by exact (finite_between 0 x _ finite_0 finite_1e9 H0 H1).
  split; [exact Fx|].
  apply (leb_R 0 x finite_0 Fx) in H0. apply (leb_R x _ Fx finite_1e9) in H1.
  rewrite FR_0 in H0. rewrite FR_1e9 in H1. lra.
Qed.

Lemma Rabs_pixels (x : R) : (Rabs x <= 4000000000)%R -> (Rabs x < pow2 1023)%R.
Proof.
  intros H. apply Rle_lt_trans with (1 := H).
  apply Rlt_le_trans with (pow2 32); [|apply pow2_le; lia].
  rewrite pow2_IZR by lia. apply IZR_lt. reflexivity.
Qed.

(** The right edge [left last + width last + 5 + width f] that line 63
    computes: it is finite, and neither the left edge of the frame nor its
    width is larger. *)
Lemma right_edge_R (l w wf : float) :
  pixels l -> pixels w -> pixels wf ->
  finite (l + w + 5) /\ (0 <= FR (l + w + 5))%R /\
  finite (l + w + 5 + wf) /\
  (FR (l + w + 5) <= FR (l + w + 5 + wf))%R /\
  (FR wf <= FR (l + w + 5 + wf))%R.
Proof.
  intros Hl Hw Hwf.
  apply pixels_R in Hl as [Fl Rl]. apply pixels_R in Hw as [Fw Rw].
  apply pixels_R in Hwf as [Fwf Rwf].
  destruct (add_R l w Fl Fw) as [Ft Rt]; [apply Rabs_pixels, Rabs_le; lra|].
  assert (Ht : (0 <= FR (l + w) <= 2000000000)%R).
  { split; [apply (Rnd_sign _ _ Rt); lra|].
    destruct (add_R 1000000000 1000000000 finite_1e9 finite_1e9) as [F2 R2];
      [rewrite FR_1e9; apply Rabs_pixels, Rabs_le; lra|].
    rewrite FR_1e9 in R2.
    assert (E2 : FR (1000000000 + 1000000000) = 2000000000%R).
    { change (1000000000 + 1000000000) with 2000000000. float_const. }
    rewrite <- E2. apply (Rnd_mono _ _ _ _ Rt R2). lra. }
  destruct (add_R (l + w) 5 Ft finite_5) as [Fu Ru];
    [rewrite FR_5; apply Rabs_pixels, Rabs_le; lra|].
  rewrite FR_5 in Ru.
  assert (Hu : (0 <= FR (l + w + 5) <= 2000000005)%R).
  { split; [apply (Rnd_sign _ _ Ru); lra|].
    assert (E : FR 2000000005 = 2000000005%R) by float_const.
    rewrite <- E. apply (Rnd_le _ _ _ Ru). rewrite E. lra. }
  destruct (add_R (l + w + 5) wf Fu Fwf) as [Fs Rs]; [apply Rabs_pixels, Rabs_le; lra|].
  split; [exact Fu|]. split; [lra|]. split; [exact Fs|]. split.
  - apply (Rnd_ge _ _ _ Rs). lra.
  - apply (Rnd_ge _ _ _ Rs). lra.
Qed.

Lemma usable_width_R (pw : float) :
  pixels pw -> finite (pw - 10) /\ (FR (pw - 10) <= 1000000000)%R.
Proof.
  intros Hpw. apply pixels_R in Hpw as [Fp Rp].
  destruct (sub_R pw 10 Fp finite_10) as [F Rn];
    [rewrite FR_10; apply Rabs_pixels, Rabs_le; lra|].
  rewrite FR_10 in Rn. split; [exact F|].
  rewrite <- FR_1e9. apply (Rnd_le _ _ _ Rn). rewrite FR_1e9. lra.
Qed.

(** A frame wider than the width of the artboard less 10 goes to a new row. *)
Lemma newRow_wide (pw : float) (last f : MSRect) :
  pixels pw -> pixels (left last) -> pixels (width last) -> pixels (width f) ->
  (pw - 10 <? width f) = true -> newRow pw last f = true.
Proof.
  intros Hpw Hl Hw Hwf Hwide. unfold newRow.
  destruct (usable_width_R pw Hpw) as [Fu _].
  destruct (right_edge_R _ _ _ Hl Hw Hwf) as (_ & _ & Fs & _ & Hge).
  destruct (pixels_R _ Hwf) as [Fwf _].
  apply (ltb_R _ _ Fu Fwf) in Hwide. apply (ltb_R _ _ Fu Fs). lra.
Qed.

(** The left edge of a placed frame is a number of pixels again. *)
Lemma placeAfter_pixels (pw : float) (last f : MSRect) :
  pixels pw -> pixels (left last) -> pixels (width last) -> pixels (width f) ->
  pixels (left (placeAfter pw last f)) /\ width (placeAfter pw last f) = width f.
Proof.
  intros Hpw Hl Hw Hwf. unfold placeAfter.
  destruct (newRow pw last f) eqn:E; cbn [left width].
  - split; [split; reflexivity | reflexivity].
  - split; [|reflexivity]. unfold newRow in E.
    destruct (usable_width_R pw Hpw) as [Fu Hu].
    destruct (right_edge_R _ _ _ Hl Hw Hwf) as (Fe & He & Fs & Hle & _).
    apply (ltb_R_false _ _ Fu Fs) in E.
    split.
    + apply (leb_R 0 _ finite_0 Fe). rewrite FR_0. exact He.
    + apply (leb_R _ _ Fe finite_1e9). rewrite FR_1e9. lra.
Qed.

Lemma placeRest_wide (pw : float) (fs : list MSRect) :
  pixels pw -> Forall (fun f => pixels (width f)) fs ->
  forall last, pixels (left last) -> pixels (width last) ->
    Forall2 (fun f f' => (pw - 10 <? width f) = true -> left f' = 5)
      fs (placeRest pw last fs).
Proof.
  intros Hpw Hfs. induction Hfs as [|f fs Hf Hfs IH]; intros last Hl Hw;
    cbn [placeRest]; constructor.
  - intros Hwide. unfold placeAfter.
    rewrite (newRow_wide pw last f Hpw Hl Hw Hf Hwide). reflexivity.
  - destruct (placeAfter_pixels pw last f Hpw Hl Hw Hf) as [Hl' Hw'].
    apply IH; [exact Hl' | rewrite Hw'; exact Hf].
Qed.

Lemma Forall2_three {A B : Type} (R1 R2 : A -> B -> Prop) (R3 : B -> B -> Prop)
    (l : list A) (k k' : list B) :
  Forall2 R1 l k -> Forall2 R2 l k' -> Forall2 R3 k k' ->
  forall x, x ∈ l -> exists y y', R1 x y /\ R2 x y' /\ R3 y y'.
Proof.
  intros H1. revert k'. induction H1 as [|x y l k Hxy H1 IH]; intros k' H2 H3 z Hz;
    [inversion Hz|].
  inversion H2 as [|x' y' l' k'' Hxy' H2' E1 E2]; subst.
  inversion H3 as [|? ? ? ? Hyy' H3']; subst.
  apply elem_of_cons in Hz as [-> | Hz]; [eauto|]. exact (IH _ H2' H3' z Hz).
Qed.

(** X20: when the artboard and the layers are different objects and the
    widths are numbers of pixels, every layer wider than the width of the
    artboard less 10 ends at the left edge 5: it starts a row of its own,
    whatever stands before it. *)
Theorem layout_wide_layer_starts_row (h : heap) (a : ref) (ls : list ref) (A : MSLayer) :
  NoDup (a :: ls) ->
  ls <> [] ->
  h !! a = Some A ->
  pixels (width (frame A)) ->
  (forall r, r ∈ ls -> exists L, h !! r = Some L /\ pixels (width (frame L))) ->
  exists h',
    layout a ls h = Ok h' /\
    forall r L, r ∈ ls -> h !! r = Some L ->
      (width (frame A) - 10 <? width (frame L)) = true ->
      exists L', h' !! r = Some L' /\ left (frame L') = 5.
Proof.
  intros ND Hne HA Hpw Hls.
  assert (exists fs, Forall2 (fun r f => (frame <$> h !! r) = Some f) ls fs /\
                     Forall (fun f => pixels (width f)) fs) as (fs & HF & Hfs).
  { clear ND Hne. induction ls as [|r ls IH]; [exists []; split; constructor|].
    destruct IH as (fs & HF & Hfs);
      [intros r' Hr'; apply Hls; now apply list_elem_of_further|].
    destruct (Hls r) as (L & HL & Hw); [apply list_elem_of_here|].
    exists (frame L :: fs). split; constructor; try assumption. rewrite HL. reflexivity. }
  destruct (layout_places_frames h a ls A fs ND Hne HA HF) as (h' & E & HF' & _).
  exists h'. split; [exact E|].
  assert (H3 : Forall2 (fun f f' => (width (frame A) - 10 <? width f) = true -> left f' = 5)
                 fs (placeAll (width (frame A)) fs)).
  { destruct Hfs as [|f fs Hf Hfs]; cbn [placeAll]; constructor; [reflexivity|].
    apply placeRest_wide; try assumption. split; reflexivity. }
  intros r L Hr HL Hwide.
  destruct (Forall2_three _ _ _ _ _ _ HF HF' H3 r Hr) as (f & f' & Hf & Hf' & Hff').
  rewrite HL in Hf. injection Hf as <-.
  destruct (h' !! r) as [L'|]; [|discriminate Hf']. injection Hf' as <-.
  exists L'. split; [reflexivity|]. apply Hff', Hwide.
Qed.

(** At [wideLayerArtboard], whose second shape is 200 wide. *)
Lemma layout_wide_layer_starts_row_witness :
  exists h',
    layout 1%positive [2; 3]%positive wideLayerArtboard = Ok h' /\
    forall r L, r ∈ [2; 3]%positive -> wideLayerArtboard !! r = Some L ->
      (100 - 10 <? width (frame L)) = true ->
      exists L', h' !! r = Some L' /\ left (frame L') = 5.
Proof.
  refine (layout_wide_layer_starts_row wideLayerArtboard 1%positive [2; 3]%positive
            (mkLayer MSArtboardGroup "Artboard" (mkRect 0 0 100 600) [] [2; 3]%positive None)
            _ _ eq_refl _ _).
  - apply (bool_decide_unpack _). vm_compute. exact I.
  - discriminate.
  - split; reflexivity.
  - intros r Hr.
    repeat (apply elem_of_cons in Hr as [-> | Hr];
            [eexists; split; [reflexivity | split; reflexivity]|]).
    inversion Hr.
Defined.

Example layout_of_a_wide_layer :
  exists h', layout 1%positive [2; 3]%positive wideLayerArtboard = Ok h' /\
    (frame <$> h' !! 2%positive) = Some (mkRect 5 5 40 20) /\
    (frame <$> h' !! 3%positive) = Some (mkRect 5 30 200 20) /\
    (frame <$> h' !! 1%positive) = Some (mkRect 0 0 100 55).
Proof. eexists. split; [vm_compute; reflexivity|]. repeat split. Qed.

(** ** Orchestrator: the new artboard *)

Lemma sameButLayers_refl (L : MSLayer) : sameButLayers L L.
Proof. repeat split. Qed.

Lemma sameButLayers_trans (L1 L2 L3 : MSLayer) :
  sameButLayers L1 L2 -> sameButLayers L2 L3 -> sameButLayers L1 L3.
Proof. unfold sameButLayers. intros (?&?&?&?&?) (?&?&?&?&?). repeat split; congruence. Qed.

Lemma sameButLayers_with_layers (g : list ref -> list ref) (L : MSLayer) :
  sameButLayers L (with_layers g L).
Proof. repeat split. Qed.

Lemma extends_refl (h : heap) : extends h h.
Proof. intros r L HL. exists L. split; [exact HL | apply sameButLayers_refl]. Qed.

Lemma extends_trans (h1 h2 h3 : heap) : extends h1 h2 -> extends h2 h3 -> extends h1 h3.
Proof.
  intros H12 H23 r L HL. destruct (H12 r L HL) as (L2 & HL2 & S12).
  destruct (H23 r L2 HL2) as (L3 & HL3 & S23).
  exists L3. split; [exact HL3 | exact (sameButLayers_trans _ _ _ S12 S23)].
Qed.

Lemma filter_not_in_nil (l : list ref) : filter (fun r => r ∉ @nil ref) l = l.
Proof.
  induction l as [|x l IH]; [reflexivity|].
  rewrite filter_cons_True by apply not_elem_of_nil. now rewrite IH.
Qed.

Lemma filter_not_in_cons (x : ref) (xs l : list ref) :
  filter (fun r => r ∉ xs) (filter (fun r => r <> x) l) = filter (fun r => r ∉ x :: xs) l.
Proof.
  rewrite list_filter_filter. apply list_filter_iff. intros r.
  rewrite not_elem_of_cons. tauto.
Qed.

Lemma filter_not_in_id (xs l : list ref) :
  (forall r, r ∈ l -> r ∉ xs) -> filter (fun r => r ∉ xs) l = l.
Proof.
  induction l as [|x l IH]; intros H; [reflexivity|].
  rewrite filter_cons_True by (apply H, list_elem_of_here).
  rewrite IH; [reflexivity|]. intros r Hr. apply H. now apply list_elem_of_further.
Qed.

Lemma filter_ne_id (x : ref) (l : list ref) :
  x ∉ l -> filter (fun r => r <> x) l = l.
Proof.
  induction l as [|y l IH]; intros H; [reflexivity|].
  apply not_elem_of_cons in H as [Hne H].
  rewrite filter_cons_True by congruence. now rewrite IH.
Qed.

(** One turn of the callback of lines 43--46. *)
Lemma moveIntoArtboard_cons (art layer : ref) (rest : list ref) (d : Document)
    (A L : MSLayer) :
  doc_heap d !! art = Some A ->
  doc_heap d !! layer = Some L ->
  let c := fresh (dom (doc_heap d)) in
  moveIntoArtboard art (layer :: rest) d =
    moveIntoArtboard art rest
      (removeFromParent layer
         (with_heap (<[art := with_layers (fun ls => ls ++ [c]) A]> (<[c := L]> (doc_heap d))) d)).
Proof.
  intros HA HL c. cbn [moveIntoArtboard]. unfold copy.
  rewrite (deref_Some _ _ _ HL). cbn [mbind result_bind]. fold c.
  assert (Hc : c ∉ dom (doc_heap d)) by apply is_fresh.
  assert (Hne : c <> art).
  { intros ->. apply Hc, elem_of_dom. eauto. }
  unfold addLayer. erewrite deref_Some by (rewrite lookup_insert_ne by exact Hne; exact HA).
  reflexivity.
Qed.

Lemma moveIntoArtboard_spec (art : ref) (ls : list ref) :
  forall (d : Document) (A : MSLayer),
    doc_heap d !! art = Some A ->
    art ∉ ls ->
    (forall r, r ∈ ls -> is_Some (doc_heap d !! r)) ->
    (forall x, x ∈ layers A -> x ∉ ls) ->
    exists d2 cs A2,
      moveIntoArtboard art ls d = Ok d2 /\
      messages d2 = messages d /\
      pageLayers d2 = filter (fun r => r ∉ ls) (pageLayers d) /\
      doc_heap d2 !! art = Some A2 /\
      sameButLayers A A2 /\
      layers A2 = layers A ++ cs /\
      NoDup cs /\
      (forall c, c ∈ cs -> c ∉ dom (doc_heap d)) /\
      Forall2 (fun c l => exists C, doc_heap d2 !! c = Some C /\
                 forall L, doc_heap d !! l = Some L -> sameButLayers L C) cs ls /\
      extends (doc_heap d) (doc_heap d2).
Proof.
  induction ls as [|layer rest IH]; intros d A HA Hart Hls Hlay.
  - exists d, [], A. cbn [moveIntoArtboard]. rewrite filter_not_in_nil, app_nil_r.
    split; [reflexivity|]. split; [reflexivity|]. split; [reflexivity|].
    split; [exact HA|]. split; [apply sameButLayers_refl|]. split; [reflexivity|].
    split; [constructor|]. split; [intros c Hc; inversion Hc|].
    split; [constructor | apply extends_refl].
  - destruct (Hls layer) as [L HL]; [apply list_elem_of_here|].
    apply not_elem_of_cons in Hart as [Hal Hart].
    rewrite (moveIntoArtboard_cons art layer rest d A L HA HL). cbv zeta.
    set (h := doc_heap d) in *. set (c := fresh (dom h)).
    assert (Hc : c ∉ dom h) by apply is_fresh.
    assert (Hcn : h !! c = None) by (apply not_elem_of_dom, Hc).
    assert (Hca : c <> art) by congruence.
    assert (Hcl : c <> layer) by congruence.
    set (h2 := <[art := with_layers (fun ls => ls ++ [c]) A]> (<[c := L]> h)).
    set (d' := removeFromParent layer (with_heap h2 d)).
    set (drop := filter (fun r => r <> layer) : list ref -> list ref).
    assert (Hd' : doc_heap d' = with_layers drop <$> h2) by reflexivity.
    assert (Hlook : forall r, doc_heap d' !! r = with_layers drop <$> h2 !! r).
    { intros r. rewrite Hd'. apply lookup_fmap. }
    assert (Hext : extends h (doc_heap d')).
    { intros r R HR. rewrite Hlook. unfold h2.
      destruct (decide (r = art)) as [->|Hra].
      - rewrite lookup_insert_eq. cbn [fmap option_map option_fmap].
        eexists. split; [reflexivity|]. rewrite HA in HR. injection HR as <-.
        repeat split.
      - rewrite lookup_insert_ne by congruence.
        rewrite lookup_insert_ne by congruence. rewrite HR.
        eexists. split; [reflexivity|]. repeat split. }
    assert (HA' : doc_heap d' !! art =
                  Some (with_layers drop (with_layers (fun ls => ls ++ [c]) A))).
    { rewrite Hlook. unfold h2. rewrite lookup_insert_eq. reflexivity. }
    assert (Hlayers : layers (with_layers drop (with_layers (fun ls => ls ++ [c]) A))
                      = layers A ++ [c]).
    { cbn [with_layers layers]. unfold drop. rewrite filter_app.
      rewrite filter_ne_id.
      - rewrite filter_cons_True by exact Hcl. reflexivity.
      - intros Hin. apply (Hlay layer Hin), list_elem_of_here. }
    destruct (IH d' _ HA' Hart) as (d2 & cs & A2 & E & Hm & Hp & HA2 & HS & HL2 & ND & Hfresh & HF & Hext2).
    + intros r Hr. destruct (Hls r) as [R HR]; [now apply list_elem_of_further|].
      destruct (Hext r R HR) as (R' & HR' & _). eauto.
    + intros x Hx. rewrite Hlayers in Hx. apply elem_of_app in Hx as [Hx|Hx].
      * specialize (Hlay x Hx). apply not_elem_of_cons in Hlay as [_ Hlay]. exact Hlay.
      * apply list_elem_of_singleton in Hx as ->. intros Hin.
        destruct (Hls c) as [? ?]; [now apply list_elem_of_further | congruence].
    + assert (Hcd' : doc_heap d' !! c = Some (with_layers drop L)).
      { rewrite Hlook. unfold h2. rewrite lookup_insert_ne by congruence.
        rewrite lookup_insert_eq. reflexivity. }
      assert (Hdom : forall r, r ∈ dom h -> r ∈ dom (doc_heap d')).
      { intros r Hr. apply elem_of_dom in Hr as [R HR]. apply elem_of_dom.
        destruct (Hext r R HR) as (R' & HR' & _). eauto. }
      exists d2, (c :: cs), A2. split; [exact E|]. split; [exact Hm|].
      split; [rewrite Hp; apply filter_not_in_cons|].
      split; [exact HA2|].
      split; [exact (sameButLayers_trans _ _ _ (sameButLayers_with_layers _ _)
                       (sameButLayers_trans _ _ _ (sameButLayers_with_layers _ _) HS))|].
      split; [rewrite HL2, Hlayers, <- app_assoc; reflexivity|].
      split.
      { constructor; [|exact ND]. intros Hin. apply (Hfresh c Hin).
        apply elem_of_dom. eauto. }
      split.
      { intros x Hx. apply elem_of_cons in Hx as [-> | Hx]; [exact Hc|].
        intros Hin. apply (Hfresh x Hx), Hdom, Hin. }
      split; [|exact (extends_trans _ _ _ Hext Hext2)].
      constructor.
      * destruct (Hext2 c _ Hcd') as (C & HC & HSC). exists C. split; [exact HC|].
        intros L1 HL1. rewrite HL in HL1. injection HL1 as <-.
        exact (sameButLayers_trans _ _ _ (sameButLayers_with_layers _ _) HSC).
      * eapply Forall2_impl; [exact HF|]. cbv beta.
        intros x l (C & HC & HCs). exists C. split; [exact HC|].
        intros L1 HL1. destruct (Hext l L1 HL1) as (L1' & HL1' & HS1).
        exact (sameButLayers_trans _ _ _ HS1 (HCs _ HL1')).
Qed.

Lemma getLayerBackground_filledShape (h : heap) (r : ref) :
  filledShape h r -> exists c, getLayerBackground h r = Ok (Some c).
Proof.
  intros (L & c & cs & HL & Hk & Hf). exists c.
  unfold getLayerBackground, isKindOfClass, firstFillColor.
  rewrite (deref_Some _ _ _ HL). cbn [mbind result_bind]. rewrite Hk, Hf. reflexivity.
Qed.

Lemma getLayersWithBackgroundColor_filled (h : heap) (ls : list ref) :
  Forall (filledShape h) ls -> getLayersWithBackgroundColor h ls = Ok ls.
Proof.
  induction 1 as [|r ls Hr _ IH]; cbn [getLayersWithBackgroundColor]; [reflexivity|].
  destruct (getLayerBackground_filledShape _ _ Hr) as [c ->]. rewrite IH. reflexivity.
Qed.

Lemma getLayersWithBackgroundColor_filledShape (h : heap) (ls out : list ref) :
  getLayersWithBackgroundColor h ls = Ok out -> Forall (filledShape h) out.
Proof.
  intros E. destruct (getLayersWithBackgroundColor_Ok _ _ _ E) as [-> HF].
  apply Forall_forall. intros r Hr. apply list_elem_of_In, filter_In in Hr as [Hin Hs].
  rewrite Forall_forall in HF. destruct (HF r) as [bg Hbg]; [now apply list_elem_of_In|].
  rewrite (getLayerBackground_isShapeGroup _ _ _ Hbg) in Hs.
  destruct bg as [c|]; [|discriminate].
  destruct (getLayerBackground_Some _ _ _ Hbg) as (l & rest & Hl & Hk & Hf).
  exists l, c, rest. auto.
Qed.

Lemma filledShape_sameButLayers (h h' : heap) (l c : ref) (C : MSLayer) :
  filledShape h l ->
  h' !! c = Some C ->
  (forall L, h !! l = Some L -> sameButLayers L C) ->
  filledShape h' c.
Proof.
  intros (L & x & xs & HL & Hk & Hf) HC HS.
  destruct (HS L HL) as (Hk' & _ & _ & Hf' & _).
  exists C, x, xs. split; [exact HC|]. split; congruence.
Qed.

Lemma filledShape_copies (h h' : heap) (cs ls : list ref) :
  Forall2 (fun c l => exists C, h' !! c = Some C /\
             forall L, h !! l = Some L -> sameButLayers L C) cs ls ->
  Forall (filledShape h) ls -> Forall (filledShape h') cs.
Proof.
  intros HF. induction HF as [|c l cs ls (C & HC & HCs) _ IH]; intros Hls; [constructor|].
  apply Forall_cons in Hls as [Hl Hls].
  constructor; [|apply IH, Hls]. exact (filledShape_sameButLayers _ _ _ _ _ Hl HC HCs).
Qed.

(** Lines 35--48, on a list of shapes with a first fill. *)
Lemma newColorsArtboard_spec (d : Document) (l0 : ref) (rest : list ref) (L0 : MSLayer) :
  Forall (filledShape (doc_heap d)) (l0 :: rest) ->
  doc_heap d !! l0 = Some L0 ->
  exists art cs d2 A2,
    newColorsArtboard (l0 :: rest) d = Ok (art, cs, d2) /\
    (art ∉ dom (doc_heap d)) /\
    messages d2 = messages d /\
    pageLayers d2 = filter (fun r => r ∉ (l0 :: rest)) (pageLayers d) ++ [art] /\
    doc_heap d2 !! art = Some A2 /\
    kind A2 = MSArtboardGroup /\ name A2 = "Colors"%string /\
    frame A2 = mkRect (left (frame L0)) (top (frame L0)) 600 600 /\
    layers A2 = cs /\
    NoDup cs /\ (art ∉ cs) /\
    (forall c, c ∈ cs -> c ∉ dom (doc_heap d)) /\
    Forall2 (fun c l => exists C, doc_heap d2 !! c = Some C /\
               forall L, doc_heap d !! l = Some L -> sameButLayers L C) cs (l0 :: rest) /\
    extends (doc_heap d) (doc_heap d2) /\
    Forall (filledShape (doc_heap d2)) cs.
Proof.
  intros Hls HL0. set (ls := l0 :: rest) in *. set (h := doc_heap d) in *.
  unfold newColorsArtboard, MSArtboardGroup_new. fold h.
  set (art := fresh (dom h)).
  assert (Hart : art ∉ dom h) by apply is_fresh.
  assert (Hartn : h !! art = None) by (apply not_elem_of_dom, Hart).
  assert (Hin : forall r, r ∈ ls -> is_Some (h !! r) /\ r <> art).
  { intros r Hr. rewrite Forall_forall in Hls.
    destruct (Hls r Hr) as (L & _ & _ & HL & _). split; [eauto | congruence]. }
  erewrite deref_Some by apply lookup_insert_eq. cbn [mbind result_bind].
  assert (Hl0 : l0 <> art) by congruence.
  change (match ls with [] => Throw TypeError | l1 :: _ => frameOf (<[art := _]> h) l1 end)
    with (frameOf (<[art := mkLayer MSArtboardGroup EmptyString (mkRect 0 0 0 0) [] [] None]> h) l0).
  erewrite frameOf_Some by (rewrite lookup_insert_ne by congruence; exact HL0).
  cbn [mbind result_bind]. rewrite insert_insert_eq.
  change (mkLayer _ "Colors" _ _ _ _)
    with (mkLayer MSArtboardGroup "Colors"
            (mkRect (left (frame L0)) (top (frame L0)) 600 600) [] [] None).
  set (a' := mkLayer MSArtboardGroup "Colors" (mkRect (left (frame L0)) (top (frame L0)) 600 600)
               [] [] None).
  set (d1 := {| doc_heap := <[art := a']> h; pageLayers := pageLayers d ++ [art];
                messages := messages d |}).
  destruct (moveIntoArtboard_spec art ls d1 a')
    as (d2 & cs & A2 & E & Hm & Hp & HA2 & HS & HL2 & ND & Hfresh & HF & Hext).
  - apply lookup_insert_eq.
  - intros Hr. destruct (Hin art Hr) as [_ Hne]. congruence.
  - intros r Hr. destruct (Hin r Hr) as [[L HL] Hne]. cbn [doc_heap d1].
    rewrite lookup_insert_ne by congruence. eauto.
  - intros x Hx. inversion Hx.
  - cbn [layers a' app] in HL2. cbn [doc_heap pageLayers messages d1] in *.
    assert (Hext1 : extends h (<[art := a']> h)).
    { intros r L HL. exists L. split; [|apply sameButLayers_refl].
      rewrite lookup_insert_ne by congruence. exact HL. }
    assert (HFs : Forall2 (fun c l => exists C, doc_heap d2 !! c = Some C /\
                            forall L, h !! l = Some L -> sameButLayers L C) cs ls).
    { eapply Forall2_impl; [exact HF|]. cbv beta. intros c l (C & HC & HCs).
      exists C. split; [exact HC|]. intros L HL. apply HCs.
      rewrite lookup_insert_ne by congruence. exact HL. }
    assert (Hfilled : Forall (filledShape (doc_heap d2)) cs).
    { exact (filledShape_copies _ _ _ _ HFs Hls). }
    rewrite E. cbn [mbind result_bind]. rewrite (deref_Some _ _ _ HA2).
    cbn [mbind result_bind]. rewrite HL2, (getLayersWithBackgroundColor_filled _ _ Hfilled).
    cbn [mbind result_bind].
    assert (Hdom : forall c, c ∈ cs -> c <> art /\ c ∉ dom h).
    { intros c Hc. specialize (Hfresh c Hc). rewrite dom_insert_L in Hfresh.
      apply not_elem_of_union in Hfresh as [H1 H2].
      split; [|exact H2]. intros ->. apply H1, elem_of_singleton. reflexivity. }
    destruct HS as (Hk & Hn & Hfr & _).
    exists art, cs, d2, A2. split; [reflexivity|]. split; [exact Hart|].
    split; [exact Hm|]. split.
    { rewrite Hp, filter_app. f_equal. rewrite filter_cons_True; [reflexivity|].
      intros Hr. destruct (Hin art Hr) as [_ Hne]. congruence. }
    split; [exact HA2|]. split; [exact Hk|]. split; [exact Hn|]. split; [exact Hfr|].
    split; [exact HL2|]. split; [exact ND|].
    split; [intros Hc; destruct (Hdom art Hc) as [Hne _]; congruence|].
    split; [intros c Hc; apply (Hdom c Hc)|].
    split; [exact HFs|]. split; [exact (extends_trans _ _ _ Hext1 Hext) | exact Hfilled].
Qed.

(** ** Orchestrator: the two paths and their outcomes *)

Lemma getLayerBackground_present (h : heap) (r : ref) (bg : option MSColor) :
  getLayerBackground h r = Ok bg -> is_Some (h !! r).
Proof.
  unfold getLayerBackground, deref. destruct (h !! r); [eauto|discriminate].
Qed.

Lemma filledShape_present (h : heap) (r : ref) : filledShape h r -> is_Some (h !! r).
Proof. intros (L & _ & _ & HL & _). eauto. Qed.

Lemma filledShape_answers (h : heap) (r : ref) :
  filledShape h r -> exists bg, getLayerBackground h r = Ok bg.
Proof. intros H. destruct (getLayerBackground_filledShape _ _ H) as [c E]. eauto. Qed.

Lemma getLayerBackground_cases (h : heap) (ls : list ref) :
  Forall (fun r => exists bg, getLayerBackground h r = Ok bg) ls \/
  exists r, r ∈ ls /\ getLayerBackground h r = Throw TypeError.
Proof.
  induction ls as [|r ls [IH|(r' & Hr' & E')]].
  - left. constructor.
  - destruct (result_cases (getLayerBackground h r)) as [Hr|Hr].
    + left. constructor; assumption.
    + right. exists r. split; [apply list_elem_of_here | exact Hr].
  - right. exists r'. split; [now apply list_elem_of_further | exact E'].
Qed.

Lemma getLayersWithBackgroundColor_Throw (h : heap) (ls : list ref) (r : ref) :
  r ∈ ls -> getLayerBackground h r = Throw TypeError ->
  getLayersWithBackgroundColor h ls = Throw TypeError.
Proof.
  intros Hr E.
  destruct (result_cases (getLayersWithBackgroundColor h ls)) as [[out Eo]|Eo]; [|exact Eo].
  destruct (getLayersWithBackgroundColor_Ok _ _ _ Eo) as [_ HF].
  rewrite Forall_forall in HF. destruct (HF r Hr) as [bg Hbg]. congruence.
Qed.

(** Lines 13--18 when no artboard is selected alone. *)
Lemma sortByHue_selection (sel : list ref) (d : Document) :
  noArtboardSelected d sel ->
  (forall a, sel = [a] -> is_Some (doc_heap d !! a)) ->
  sortByHue sel d =
    if (length sel <? 1)%nat then Ok (showMessage "No layers selected!" d)
    else
      ls ← getLayersWithBackgroundColor (doc_heap d) sel;
      if (length ls <? 1)%nat
      then Ok (showMessage "No layers with background selected!" d)
      else
        '(artboard, ls, d) ← newColorsArtboard ls d;
        ls ← sortLayersByHue (doc_heap d) ls;
        h ← layout artboard ls (doc_heap d);
        Ok (with_heap h d).
Proof.
  intros Hno Hpres. unfold sortByHue.
  destruct sel as [|a [|b sel]]; try reflexivity.
  destruct (Hpres a eq_refl) as [l Hl]. rewrite (deref_Some _ _ _ Hl).
  cbn [mbind result_bind]. unfold isKindOfClass.
  rewrite bool_decide_eq_false_2 by (apply (Hno a l eq_refl Hl)).
  reflexivity.
Qed.

(** Lines 13--18 when one artboard is selected alone. *)
Lemma sortByHue_artboard (a : ref) (d : Document) (A : MSLayer) :
  doc_heap d !! a = Some A -> kind A = MSArtboardGroup ->
  sortByHue [a] d =
    if (length (layers A) <? 1)%nat then Ok (showMessage "No layers selected!" d)
    else
      ls ← getLayersWithBackgroundColor (doc_heap d) (layers A);
      if (length ls <? 1)%nat
      then Ok (showMessage "No layers with background selected!" d)
      else
        ls ← sortLayersByHue (doc_heap d) ls;
        h ← layout a ls (doc_heap d);
        Ok (with_heap h d).
Proof.
  intros HA Hk. unfold sortByHue. rewrite (deref_Some _ _ _ HA).
  cbn [mbind result_bind]. unfold isKindOfClass.
  rewrite bool_decide_eq_true_2 by exact Hk. cbn [mbind result_bind].
  destruct (length (layers A) <? 1)%nat; [reflexivity|].
  destruct (getLayersWithBackgroundColor (doc_heap d) (layers A)) as [ls|e];
    cbn [mbind result_bind]; [|reflexivity].
  destruct (length ls <? 1)%nat; reflexivity.
Qed.

(** The path of a selected artboard, once the filter has kept a layer. *)
Lemma sortByHue_artboard_sorted (a : ref) (d : Document) (A : MSLayer)
    (l0 : ref) (rest : list ref) :
  doc_heap d !! a = Some A -> kind A = MSArtboardGroup ->
  Forall (fun r => exists bg, getLayerBackground (doc_heap d) r = Ok bg) (layers A) ->
  List.filter (isShapeGroup (doc_heap d)) (layers A) = l0 :: rest ->
  exists out h',
    sortLayersByHue (doc_heap d) (l0 :: rest) = Ok out /\
    l0 :: rest ≡ₚ out /\
    layout a out (doc_heap d) = Ok h' /\
    sortByHue [a] d = Ok (with_heap h' d).
Proof.
  intros HA Hk Hok Hf. set (h := doc_heap d) in *.
  assert (Hsub : forall r, r ∈ l0 :: rest -> r ∈ layers A).
  { intros r Hr. rewrite <- Hf in Hr. apply list_elem_of_In, filter_In in Hr as [Hr _].
    now apply list_elem_of_In. }
  rewrite Forall_forall in Hok.
  destruct (sortLayersByHue_returns_perm h (l0 :: rest)) as (out & Es & Hp).
  { apply Forall_forall. intros r Hr. apply Hok, Hsub, Hr. }
  destruct (layout_returns a out h) as [h' El].
  - intros ->. apply Permutation_nil_r in Hp. discriminate.
  - eauto.
  - intros r Hr. rewrite <- Hp in Hr. destruct (Hok r (Hsub r Hr)) as [bg Hbg].
    exact (getLayerBackground_present _ _ _ Hbg).
  - exists out, h'. split; [exact Es|]. split; [exact Hp|]. split; [exact El|].
    rewrite (sortByHue_artboard a d A HA Hk). fold h.
    destruct (layers A) as [|x xs] eqn:Elay; [discriminate Hf|]. rewrite <- Elay in *.
    replace (length (layers A) <? 1)%nat with false by (rewrite Elay; reflexivity).
    rewrite (getLayersWithBackgroundColor_readable h (layers A)), Hf
      by (apply Forall_forall, Hok).
    cbn [mbind result_bind length Nat.ltb Nat.leb]. rewrite Es. cbn [mbind result_bind].
    rewrite El. reflexivity.
Qed.

(** The path of a selection of layers, once the filter has kept a layer. *)
Lemma sortByHue_selection_sorted (sel : list ref) (d : Document)
    (l0 : ref) (rest : list ref) (L0 : MSLayer) :
  noArtboardSelected d sel ->
  Forall (fun r => exists bg, getLayerBackground (doc_heap d) r = Ok bg) sel ->
  List.filter (isShapeGroup (doc_heap d)) sel = l0 :: rest ->
  doc_heap d !! l0 = Some L0 ->
  exists art cs d2 A2 out hl v,
    newColorsArtboard (l0 :: rest) d = Ok (art, cs, d2) /\
    (art ∉ dom (doc_heap d)) /\
    messages d2 = messages d /\
    pageLayers d2 = filter (fun r => r ∉ (l0 :: rest)) (pageLayers d) ++ [art] /\
    doc_heap d2 !! art = Some A2 /\
    kind A2 = MSArtboardGroup /\ name A2 = "Colors"%string /\
    frame A2 = mkRect (left (frame L0)) (top (frame L0)) 600 600 /\
    layers A2 = cs /\
    (forall c, c ∈ cs -> c <> art /\ c ∉ dom (doc_heap d)) /\
    Forall2 (fun c l => exists C, doc_heap d2 !! c = Some C /\
               forall L, doc_heap d !! l = Some L -> sameButLayers L C) cs (l0 :: rest) /\
    extends (doc_heap d) (doc_heap d2) /\
    cs ≡ₚ out /\
    (forall r, r ∉ cs -> hl !! r = doc_heap d2 !! r) /\
    (forall r, option_Forall2 repositioned (doc_heap d2 !! r) (hl !! r)) /\
    sortByHue sel d =
      Ok (with_heap (<[art := with_frame (set_height v) A2]> hl) d2).
Proof.
  intros Hno Hok Hf HL0. set (h := doc_heap d) in *.
  assert (Hpres : forall a, sel = [a] -> is_Some (h !! a)).
  { intros a ->. apply Forall_cons in Hok as [[bg Hbg] _].
    exact (getLayerBackground_present _ _ _ Hbg). }
  pose proof (getLayersWithBackgroundColor_readable h sel Hok) as Ef. rewrite Hf in Ef.
  pose proof (getLayersWithBackgroundColor_filledShape _ _ _ Ef) as Hfilled.
  destruct (newColorsArtboard_spec d l0 rest L0 Hfilled HL0)
    as (art & cs & d2 & A2 & En & Hart & Hm & Hp & HA2 & Hk & Hn & Hfr & Hlay & ND & Hac
        & Hfresh & HF & Hext & Hfilled2).
  destruct (sortLayersByHue_returns_perm (doc_heap d2) cs) as (out & Es & Hperm).
  { eapply Forall_impl; [exact Hfilled2|]. intros r. apply filledShape_answers. }
  destruct (layout_returns art out (doc_heap d2)) as [h' El].
  { intros ->. apply Permutation_nil_r in Hperm. rewrite Hperm in HF. inversion HF. }
  { eauto. }
  { intros r Hr. rewrite <- Hperm in Hr. rewrite Forall_forall in Hfilled2.
    apply filledShape_present, Hfilled2, Hr. }
  destruct (layout_Ok_inv _ _ _ _ El) as (_ & _ & _ & hl & A' & v & Hout & Hrel & HA' & ->).
  assert (Hao : art ∉ out) by (rewrite <- Hperm; exact Hac).
  rewrite (Hout art Hao), HA2 in HA'. injection HA' as <-.
  exists art, cs, d2, A2, out, hl, v.
  split; [exact En|]. split; [exact Hart|]. split; [exact Hm|]. split; [exact Hp|].
  split; [exact HA2|]. split; [exact Hk|]. split; [exact Hn|]. split; [exact Hfr|].
  split; [exact Hlay|].
  split; [intros c Hc; split; [intros ->; contradiction | apply Hfresh, Hc]|].
  split; [exact HF|]. split; [exact Hext|]. split; [exact Hperm|].
  split; [intros r Hr; apply Hout; rewrite <- Hperm; exact Hr|].
  split; [exact Hrel|].
  rewrite (sortByHue_selection sel d Hno Hpres). fold h.
  destruct sel as [|x xs] eqn:Esel; [discriminate Hf|]. rewrite <- Esel in *.
  replace (length sel <? 1)%nat with false by (rewrite Esel; reflexivity).
  rewrite Ef. cbn [mbind result_bind length Nat.ltb Nat.leb].
  rewrite En. cbn [mbind result_bind]. rewrite Es. cbn [mbind result_bind].
  rewrite El. reflexivity.
Qed.

Lemma workingLayers_artboard (a : ref) (d : Document) (A : MSLayer) :
  doc_heap d !! a = Some A -> kind A = MSArtboardGroup ->
  workingLayers d [a] = layers A.
Proof.
  intros HA Hk. unfold workingLayers, isKindOfClass. rewrite HA.
  rewrite bool_decide_eq_true_2 by exact Hk. reflexivity.
Qed.

Lemma workingLayers_selection (sel : list ref) (d : Document) :
  noArtboardSelected d sel -> workingLayers d sel = sel.
Proof.
  intros Hno. unfold workingLayers. destruct sel as [|a [|b sel]]; try reflexivity.
  destruct (doc_heap d !! a) as [l|] eqn:Hl; [|reflexivity].
  unfold isKindOfClass. rewrite bool_decide_eq_false_2 by (apply (Hno a l eq_refl Hl)).
  reflexivity.
Qed.

(** The three shapes of a selection: one artboard alone, one reference to
    nothing alone, or anything else. *)
Lemma selection_cases (sel : list ref) (d : Document) :
  (exists a A, sel = [a] /\ doc_heap d !! a = Some A /\ kind A = MSArtboardGroup) \/
  (exists a, sel = [a] /\ doc_heap d !! a = None) \/
  (noArtboardSelected d sel /\ forall a, sel = [a] -> is_Some (doc_heap d !! a)).
Proof.
  destruct sel as [|a [|b sel]].
  - right. right. split; [intros a l E; discriminate | intros a E; discriminate].
  - destruct (doc_heap d !! a) as [A|] eqn:HA; [|right; left; eauto].
    destruct (decide (kind A = MSArtboardGroup)) as [Hk|Hk]; [left; eauto|].
    right. right. split.
    + intros a' l [= <-] Hl. congruence.
    + intros a' [= <-]. eauto.
  - right. right. split; [intros a' l E; discriminate | intros a' E; discriminate].
Qed.

Lemma sortByHue_outcome_artboard (a : ref) (d : Document) (A : MSLayer) :
  doc_heap d !! a = Some A -> kind A = MSArtboardGroup ->
  outcome [a] d (layers A).
Proof.
  intros HA Hk. set (h := doc_heap d).
  destruct (getLayerBackground_cases h (layers A)) as [Hok|(r & Hr & Er)].
  - right. split; [exact Hok|].
    destruct (List.filter (isShapeGroup h) (layers A)) as [|l0 rest] eqn:Hf.
    + rewrite (sortByHue_artboard a d A HA Hk).
      destruct (length (layers A) <? 1)%nat; [eauto|].
      fold h. rewrite (getLayersWithBackgroundColor_readable h _ Hok), Hf. eauto.
    + destruct (sortByHue_artboard_sorted a d A l0 rest HA Hk Hok Hf)
        as (out & h' & _ & _ & _ & ->).
      eexists. split; [reflexivity|]. left. reflexivity.
  - left. split; [eauto|]. rewrite (sortByHue_artboard a d A HA Hk).
    destruct (layers A) as [|x xs] eqn:Elay; [inversion Hr|]. rewrite <- Elay in *.
    replace (length (layers A) <? 1)%nat with false by (rewrite Elay; reflexivity).
    fold h. rewrite (getLayersWithBackgroundColor_Throw h _ r Hr Er). reflexivity.
Qed.

Lemma sortByHue_outcome_selection (sel : list ref) (d : Document) :
  noArtboardSelected d sel ->
  (forall a, sel = [a] -> is_Some (doc_heap d !! a)) ->
  outcome sel d sel.
Proof.
  intros Hno Hpres. set (h := doc_heap d).
  destruct (getLayerBackground_cases h sel) as [Hok|(r & Hr & Er)].
  - right. split; [exact Hok|].
    destruct (List.filter (isShapeGroup h) sel) as [|l0 rest] eqn:Hf.
    + rewrite (sortByHue_selection sel d Hno Hpres).
      destruct (length sel <? 1)%nat; [eauto|].
      fold h. rewrite (getLayersWithBackgroundColor_readable h _ Hok), Hf. eauto.
    + assert (is_Some (h !! l0)) as [L0 HL0].
      { assert (Hin : l0 ∈ sel).
        { apply list_elem_of_In. apply (proj1 (filter_In (isShapeGroup h) l0 sel)).
          rewrite Hf. left. reflexivity. }
        rewrite Forall_forall in Hok. destruct (Hok l0 Hin) as [bg Hbg].
        exact (getLayerBackground_present _ _ _ Hbg). }
      destruct (sortByHue_selection_sorted sel d l0 rest L0 Hno Hok Hf HL0)
        as (art & cs & d2 & A2 & out & hl & v & _ & _ & Hm & _ & _ & _ & _ & _ & _ & _ & _ & _
            & _ & _ & _ & ->).
      eexists. split; [reflexivity|]. left. exact Hm.
  - left. split; [eauto|]. rewrite (sortByHue_selection sel d Hno Hpres).
    destruct sel as [|x xs] eqn:Esel; [inversion Hr|]. rewrite <- Esel in *.
    replace (length sel <? 1)%nat with false by (rewrite Esel; reflexivity).
    fold h. rewrite (getLayersWithBackgroundColor_Throw h _ r Hr Er). reflexivity.
Qed.

Lemma sortByHue_outcome (sel : list ref) (d : Document) :
  outcome sel d (workingLayers d sel).
Proof.
  destruct (selection_cases sel d) as [(a & A & -> & HA & Hk)|[(a & -> & Ha)|[Hno Hpres]]].
  - rewrite (workingLayers_artboard a d A HA Hk).
    apply sortByHue_outcome_artboard; assumption.
  - left. unfold workingLayers. rewrite Ha. split.
    + exists a. split; [apply list_elem_of_here|].
      unfold getLayerBackground, deref. rewrite Ha. reflexivity.
    + unfold sortByHue, deref. rewrite Ha. reflexivity.
  - rewrite (workingLayers_selection sel d Hno).
    apply sortByHue_outcome_selection; assumption.
Qed.

(** X21: a selection that is not an artboard alone, is not empty and holds
    no layer with a colour ends with the message "No layers with background
    selected!"; the heap of layers and the page are what they were. *)
Theorem sortByHue_without_colours (sel : list ref) (d : Document) :
  noArtboardSelected d sel ->
  sel <> [] ->
  (forall r, r ∈ sel -> getLayerBackground (doc_heap d) r = Ok None) ->
  sortByHue sel d = Ok (showMessage "No layers with background selected!" d).
Proof.
  intros Hno Hne Hnone.
  rewrite (sortByHue_selection sel d Hno).
  - destruct sel as [|x xs] eqn:Esel; [congruence|]. rewrite <- Esel in *.
    replace (length sel <? 1)%nat with false by (rewrite Esel; reflexivity).
    rewrite (getLayersWithBackgroundColor_none _ _ Hnone). reflexivity.
  - intros a ->. apply (getLayerBackground_present _ _ None), Hnone, list_elem_of_here.
Qed.

(** At the text layer of [textArtboardDoc], selected alone. *)
Lemma sortByHue_without_colours_witness :
  sortByHue [2%positive] textArtboardDoc
    = Ok (showMessage "No layers with background selected!" textArtboardDoc).
Proof.
  apply (sortByHue_without_colours [2%positive] textArtboardDoc).
  - intros a l [= <-] Hl. vm_compute in Hl. injection Hl as <-. discriminate.
  - discriminate.
  - intros r Hr. apply list_elem_of_singleton in Hr as ->. reflexivity.
Defined.

(** X22: a run that returns has either shown no message, or shown one of
    the two messages and changed nothing else: no run shows two messages,
    and none shows a message after it has touched a layer or the page. *)
Theorem sortByHue_message_or_change (sel : list ref) (d d' : Document) :
  sortByHue sel d = Ok d' ->
  messages d' = messages d \/
  d' = showMessage "No layers selected!" d \/
  d' = showMessage "No layers with background selected!" d.
Proof.
  intros E. destruct (sortByHue_outcome sel d) as [[_ Et]|[_ (d1 & E1 & H)]].
  - congruence.
  - rewrite E in E1. injection E1 as <-. exact H.
Qed.

(** At the artboard of [narrowArtboard], selected alone. *)
Lemma sortByHue_message_or_change_witness :
  exists d', sortByHue [1%positive] (mkDocument narrowArtboard [1%positive] []) = Ok d' /\
    (messages d' = [] \/
     d' = showMessage "No layers selected!" (mkDocument narrowArtboard [1%positive] []) \/
     d' = showMessage "No layers with background selected!"
            (mkDocument narrowArtboard [1%positive] [])).
Proof.
  eexists. split; [vm_compute; reflexivity|].
  apply (sortByHue_message_or_change [1%positive] (mkDocument narrowArtboard [1%positive] [])).
  vm_compute. reflexivity.
Defined.

(** X23: the plugin throws exactly when the extractor throws on one of the
    layers it works on, the children of a single selected artboard or else
    the selected layers: a shape without fills, a symbol instance without
    master, a symbol with such a shape among its children, or a reference
    to nothing.  The sort and the layout add no exception of their own. *)
Theorem sortByHue_throws_iff (sel : list ref) (d : Document) :
  sortByHue sel d = Throw TypeError <->
  exists r, r ∈ workingLayers d sel /\ getLayerBackground (doc_heap d) r = Throw TypeError.
Proof.
  destruct (sortByHue_outcome sel d) as [[Hex Et]|[Hok (d1 & E1 & _)]].
  - split; auto.
  - split; [congruence|]. intros (r & Hr & Er).
    rewrite Forall_forall in Hok. destruct (Hok r Hr) as [bg Hbg]. congruence.
Qed.

(** X24: with one artboard selected alone, a run that returns has left the
    page as it was, has created and deleted no object, and has changed
    nothing but frames: every object keeps its kind, name, fills, children
    and symbol master, so the children of the artboard keep their order
    and the sort shows in the positions only; widths stay, heights stay
    but for the artboard; and an object that is neither the artboard nor a
    shape among its children is as it was. *)
Theorem sortByHue_artboard_frames_only (a : ref) (d d' : Document) (A : MSLayer) :
  doc_heap d !! a = Some A ->
  kind A = MSArtboardGroup ->
  sortByHue [a] d = Ok d' ->
  pageLayers d' = pageLayers d /\
  dom (doc_heap d') = dom (doc_heap d) /\
  forall r L, doc_heap d !! r = Some L ->
    exists L', doc_heap d' !! r = Some L' /\ sameButFrame L L' /\
      width (frame L') = width (frame L) /\
      (r <> a -> height (frame L') = height (frame L)) /\
      (r <> a -> r ∉ layers A \/ isShapeGroup (doc_heap d) r = false -> L' = L).
Proof.
  intros HA Hk E. set (h := doc_heap d) in *.
  assert (Hsame : forall L : MSLayer, sameButFrame L L) by (intros L; repeat split).
  assert (Hmsg : forall m, d' = showMessage m d ->
            pageLayers d' = pageLayers d /\ dom (doc_heap d') = dom h /\
            forall r L, h !! r = Some L ->
              exists L', doc_heap d' !! r = Some L' /\ sameButFrame L L' /\
                width (frame L') = width (frame L) /\
                (r <> a -> height (frame L') = height (frame L)) /\
                (r <> a -> r ∉ layers A \/ isShapeGroup h r = false -> L' = L)).
  { intros m ->. split; [reflexivity|]. split; [reflexivity|].
    intros r L HL. exists L. split; [exact HL|]. split; [apply Hsame|]. auto. }
  destruct (sortByHue_outcome_artboard a d A HA Hk) as [[_ Et]|[Hok _]]; [congruence|].
  fold h in Hok.
  destruct (List.filter (isShapeGroup h) (layers A)) as [|l0 rest] eqn:Hf.
  - rewrite (sortByHue_artboard a d A HA Hk) in E. fold h in E.
    destruct (length (layers A) <? 1)%nat; [injection E as <-; eapply Hmsg; reflexivity|].
    rewrite (getLayersWithBackgroundColor_readable h _ Hok), Hf in E.
    injection E as <-. eapply Hmsg; reflexivity.
  - destruct (sortByHue_artboard_sorted a d A l0 rest HA Hk Hok Hf)
      as (out & h' & _ & Hp & El & E').
    rewrite E in E'. injection E' as ->. cbn [with_heap pageLayers doc_heap].
    destruct (layout_frames_only _ _ _ _ El) as [Hdom Hobj].
    split; [reflexivity|]. split; [exact Hdom|].
    intros r L HL. destruct (Hobj r L HL) as (L' & HL' & Hs & Hw & Hh & Hun).
    exists L'. split; [exact HL'|]. split; [exact Hs|]. split; [exact Hw|].
    split; [exact Hh|]. intros Hra Hr. apply Hun; [|exact Hra].
    rewrite <- Hp, <- Hf. intros Hin.
    apply list_elem_of_In, filter_In in Hin as [Hin Hshape].
    destruct Hr as [Hr|Hr]; [apply Hr; now apply list_elem_of_In | congruence].
Qed.

(** At the artboard of [narrowArtboard], selected alone. *)
Lemma sortByHue_artboard_frames_only_witness :
  exists d',
    sortByHue [1%positive] (mkDocument narrowArtboard [1%positive] []) = Ok d' /\
    pageLayers d' = [1%positive] /\
    dom (doc_heap d') = dom narrowArtboard /\
    forall r L, narrowArtboard !! r = Some L ->
      exists L', doc_heap d' !! r = Some L' /\ sameButFrame L L' /\
        width (frame L') = width (frame L) /\
        (r <> 1%positive -> height (frame L') = height (frame L)) /\
        (r <> 1%positive ->
         r ∉ [2; 3; 4]%positive \/ isShapeGroup narrowArtboard r = false -> L' = L).
Proof.
  eexists. split; [vm_compute; reflexivity|].
  apply (sortByHue_artboard_frames_only 1%positive (mkDocument narrowArtboard [1%positive] []) _
           (mkLayer MSArtboardGroup "Artboard" (mkRect 7 8 100 600) [] [2; 3; 4]%positive None)).
  - reflexivity.
  - reflexivity.
  - vm_compute. reflexivity.
Defined.

Lemma Forall2_impl_elem {A B : Type} (P Q : A -> B -> Prop) (l : list A) (k : list B) :
  Forall2 P l k -> (forall x y, x ∈ l -> P x y -> Q x y) -> Forall2 Q l k.
Proof.
  intros HF. induction HF as [|x y l k Hxy HF IH]; intros H; [constructor|].
  constructor; [apply H; [apply list_elem_of_here | exact Hxy]|].
  apply IH. intros x' y' Hx'. apply H. now apply list_elem_of_further.
Qed.

(** X25: with a selection that is not an artboard alone, on which the
    extractor answers everywhere and finds a colour at least once, the run
    returns without a message.  It has created an artboard named "Colors",
    600 wide, at the left and top of the first selected layer with a
    colour, and has put it last on the page; the artboard holds one new
    object for each selected layer with a colour, in their order, of the
    same kind, name, fills, width and height; these layers themselves have
    left the page, and every object of the old heap is still there with its
    frame where it was. *)
Theorem sortByHue_new_artboard (sel : list ref) (d : Document)
    (l0 : ref) (rest : list ref) (L0 : MSLayer) :
  noArtboardSelected d sel ->
  (forall r, r ∈ sel -> exists bg, getLayerBackground (doc_heap d) r = Ok bg) ->
  List.filter (isShapeGroup (doc_heap d)) sel = l0 :: rest ->
  doc_heap d !! l0 = Some L0 ->
  exists d' art A',
    sortByHue sel d = Ok d' /\
    messages d' = messages d /\
    (art ∉ dom (doc_heap d)) /\
    pageLayers d' = filter (fun r => r ∉ (l0 :: rest)) (pageLayers d) ++ [art] /\
    doc_heap d' !! art = Some A' /\
    kind A' = MSArtboardGroup /\ name A' = "Colors"%string /\
    left (frame A') = left (frame L0) /\ top (frame A') = top (frame L0) /\
    width (frame A') = 600 /\
    Forall2 (fun c l =>
               (c ∉ dom (doc_heap d)) /\
               exists C, doc_heap d' !! c = Some C /\
                 forall L, doc_heap d !! l = Some L ->
                   kind C = kind L /\ name C = name L /\ fills C = fills L /\
                   width (frame C) = width (frame L) /\
                   height (frame C) = height (frame L))
            (layers A') (l0 :: rest) /\
    extends (doc_heap d) (doc_heap d').
Proof.
  intros Hno Hok Hf HL0. apply Forall_forall in Hok.
  destruct (sortByHue_selection_sorted sel d l0 rest L0 Hno Hok Hf HL0)
    as (art & cs & d2 & A2 & out & hl & v & _ & Hart & Hm & Hp & HA2 & Hk & Hn & Hfr & Hlay
        & Hfresh & HF & Hext & Hperm & Hout & Hrel & E).
  exists (with_heap (<[art := with_frame (set_height v) A2]> hl) d2), art,
    (with_frame (set_height v) A2).
  split; [exact E|]. cbn [with_heap messages pageLayers doc_heap].
  split; [exact Hm|]. split; [exact Hart|]. split; [exact Hp|].
  split; [apply lookup_insert_eq|].
  cbn [with_frame kind name frame layers set_height left top width].
  split; [exact Hk|]. split; [exact Hn|]. rewrite Hfr. cbn [left top width].
  split; [reflexivity|]. split; [reflexivity|]. split; [reflexivity|].
  split.
  - rewrite Hlay. apply (Forall2_impl_elem _ _ _ _ HF). cbv beta.
    intros c l Hc (C & HC & HCs).
    specialize (Hrel c). rewrite HC in Hrel.
    inversion Hrel as [C1 C2 H12 E1 E2|]; subst. symmetry in E2.
    destruct (Hfresh c Hc) as [Hca Hcd].
    split; [exact Hcd|].
    exists C2. split; [rewrite lookup_insert_ne by congruence; exact E2|].
    intros L HL. destruct (HCs L HL) as (Hk1 & Hn1 & Hf1 & Hfi1 & _).
    destruct (repositioned_sameButFrame _ _ H12) as ((Hk2 & Hn2 & Hfi2 & _) & Hw & Hh).
    rewrite Hk2, Hn2, Hfi2, Hw, Hh, Hf1. auto.
  - intros r L HL. destruct (Hext r L HL) as (L' & HL' & HS).
    exists L'. split; [|exact HS].
    assert (Hrd : r ∈ dom (doc_heap d)) by (apply elem_of_dom; eauto).
    assert (Hra : r <> art) by (intros ->; contradiction).
    assert (Hrc : r ∉ cs) by (intros Hc; destruct (Hfresh r Hc) as [_ Hn']; contradiction).
    rewrite lookup_insert_ne by congruence. rewrite (Hout r Hrc). exact HL'.
Qed.

(** At the three shapes and the text layer of [fourHuesDoc], all selected. *)
Lemma sortByHue_new_artboard_witness :
  exists d' art A',
    sortByHue [1; 2; 3; 4]%positive fourHuesDoc = Ok d' /\
    messages d' = [] /\
    (art ∉ dom fourHues) /\
    pageLayers d' = filter (fun r => r ∉ [1; 2; 3]%positive) [1; 2; 3; 4]%positive ++ [art] /\
    doc_heap d' !! art = Some A' /\
    kind A' = MSArtboardGroup /\ name A' = "Colors"%string /\
    left (frame A') = 0 /\ top (frame A') = 0 /\
    width (frame A') = 600 /\
    Forall2 (fun c l =>
               (c ∉ dom fourHues) /\
               exists C, doc_heap d' !! c = Some C /\
                 forall L, fourHues !! l = Some L ->
                   kind C = kind L /\ name C = name L /\ fills C = fills L /\
                   width (frame C) = width (frame L) /\
                   height (frame C) = height (frame L))
            (layers A') [1; 2; 3]%positive /\
    extends fourHues (doc_heap d').
Proof.
  apply (sortByHue_new_artboard [1; 2; 3; 4]%positive fourHuesDoc 1%positive [2; 3]%positive
           (mkLayer MSShapeGroup "azure" (mkRect 0 0 40 20) [mkColor 0 0.5 1] [] None)).
  - intros a l E. discriminate.
  - intros r Hr.
    repeat (apply elem_of_cons in Hr as [-> | Hr]; [eexists; vm_compute; reflexivity|]).
    inversion Hr.
  - reflexivity.
  - reflexivity.
Defined.

(** The whole plugin on that selection: the text layer stays on the page,
    the new artboard follows it, and the copies of the azure, the red and
    the rose shape stand in one row in the order red, azure, rose. *)
Example sortByHue_on_selected_layers :
  exists d' art c1 c2 c3,
    sortByHue [1; 2; 3; 4]%positive fourHuesDoc = Ok d' /\
    pageLayers d' = [4%positive; art] /\
    (layers <$> doc_heap d' !! art) = Some [c1; c2; c3] /\
    (frame <$> doc_heap d' !! art) = Some (mkRect 0 0 600 30) /\
    (frame <$> doc_heap d' !! c1) = Some (mkRect 50 5 40 20) /\
    (frame <$> doc_heap d' !! c2) = Some (mkRect 5 5 40 20) /\
    (frame <$> doc_heap d' !! c3) = Some (mkRect 95 5 40 20).
Proof.
  eexists _, _, _, _, _. split; [vm_compute; reflexivity|].
  vm_compute. repeat split; reflexivity.
Qed.

(** ** Orchestrator: sort and layout together *)

Lemma frames_of (h : heap) (ls : list ref) :
  (forall r, r ∈ ls -> is_Some (h !! r)) ->
  exists fs, Forall2 (fun r f => (frame <$> h !! r) = Some f) ls fs.
Proof.
  induction ls as [|r ls IH]; intros Hls; [exists []; constructor|].
  destruct IH as [fs HF]; [intros r' Hr'; apply Hls; now apply list_elem_of_further|].
  destruct (Hls r) as [L HL]; [apply list_elem_of_here|].
  exists (frame L :: fs). constructor; [rewrite HL; reflexivity | exact HF].
Qed.

Lemma NoDup_List_filter {A : Type} (f : A -> bool) (l : list A) :
  NoDup l -> NoDup (List.filter f l).
Proof.
  induction 1 as [|x l Hx ND IH]; cbn [List.filter]; [constructor|].
  destruct (f x); [|exact IH]. constructor; [|exact IH].
  intros Hin. apply Hx. apply list_elem_of_In, filter_In in Hin as [Hin _].
  now apply list_elem_of_In.
Qed.

(** X26: with one artboard selected alone, whose children are different
    objects with hues that can be read, at least one of them a shape, the
    run returns and the shapes stand in the order of their hues: the frames
    after the run are the frames the layout gives to the list of the shapes
    sorted by hue, a permutation of the shapes in which the hue never
    decreases. *)
Theorem sortByHue_lays_out_by_hue (a : ref) (d : Document) (A : MSLayer) :
  doc_heap d !! a = Some A ->
  kind A = MSArtboardGroup ->
  NoDup (a :: layers A) ->
  (forall r, r ∈ layers A -> readable (doc_heap d) r) ->
  List.filter (isShapeGroup (doc_heap d)) (layers A) <> [] ->
  exists d' out fs,
    sortByHue [a] d = Ok d' /\
    List.filter (isShapeGroup (doc_heap d)) (layers A) ≡ₚ out /\
    StronglySorted (hue_le (doc_heap d)) out /\
    Forall2 (fun r f => (frame <$> doc_heap d !! r) = Some f) out fs /\
    Forall2 (fun r f => (frame <$> doc_heap d' !! r) = Some f) out
      (placeAll (width (frame A)) fs) /\
    (frame <$> doc_heap d' !! a)
      = Some (set_height (totalHeight (width (frame A)) fs) (frame A)).
Proof.
  intros HA Hk ND Hread Hne. set (h := doc_heap d) in *.
  assert (Hok : Forall (fun r => exists bg, getLayerBackground h r = Ok bg) (layers A)).
  { apply Forall_forall. intros r Hr. destruct (Hread r Hr) as (bg & E & _). eauto. }
  destruct (List.filter (isShapeGroup h) (layers A)) as [|l0 rest] eqn:Hf; [congruence|].
  clear Hne.
  assert (Hsub : forall r, r ∈ l0 :: rest -> r ∈ layers A).
  { intros r Hr. rewrite <- Hf in Hr. apply list_elem_of_In, filter_In in Hr as [Hr _].
    now apply list_elem_of_In. }
  destruct (sortByHue_artboard_sorted a d A l0 rest HA Hk Hok Hf)
    as (out & h' & Es & Hp & El & E).
  fold h in Es, El.
  (* the sort *)
  destruct (Array_sort_correct (hueComparator h) (fun r => FR (hueKey h r)) (readable h)
              (hueComparator_readable h) (l0 :: rest)) as (out' & Es' & _ & Hs).
  { apply Forall_forall. intros r Hr. apply Hread, Hsub, Hr. }
  unfold sortLayersByHue in Es. rewrite Es in Es'. injection Es' as <-.
  assert (Hsorted : StronglySorted (hue_le h) out).
  { apply StronglySorted_hue_le.
    - apply Forall_forall. intros r Hr. rewrite <- Hp in Hr. apply Hread, Hsub, Hr.
    - apply Sorted_StronglySorted; [apply key_le_trans | exact Hs]. }
  (* the layout *)
  apply NoDup_cons in ND as [Ha ND].
  assert (ND' : NoDup (a :: out)).
  { apply NoDup_cons. split.
    - intros Hin. rewrite <- Hp in Hin. apply Ha, Hsub, Hin.
    - rewrite <- Hp, <- Hf. apply NoDup_List_filter, ND. }
  destruct (frames_of h out) as [fs HF].
  { intros r Hr. rewrite <- Hp in Hr. rewrite Forall_forall in Hok.
    destruct (Hok r (Hsub r Hr)) as [bg Hbg]. exact (getLayerBackground_present _ _ _ Hbg). }
  destruct (layout_places_frames h a out A fs ND') as (h'' & El' & HF' & Hh); try assumption.
  { intros ->. apply Permutation_nil_r in Hp. discriminate. }
  rewrite El in El'. injection El' as <-.
  exists (with_heap h' d), out, fs. split; [exact E|]. split; [exact Hp|].
  split; [exact Hsorted|]. split; [exact HF|]. split; [exact HF' | exact Hh].
Qed.

(** At the artboard of [narrowArtboard], selected alone. *)
Lemma sortByHue_lays_out_by_hue_witness :
  exists d' out fs,
    sortByHue [1%positive] (mkDocument narrowArtboard [1%positive] []) = Ok d' /\
    List.filter (isShapeGroup narrowArtboard) [2; 3; 4]%positive ≡ₚ out /\
    StronglySorted (hue_le narrowArtboard) out /\
    Forall2 (fun r f => (frame <$> narrowArtboard !! r) = Some f) out fs /\
    Forall2 (fun r f => (frame <$> doc_heap d' !! r) = Some f) out (placeAll 100 fs) /\
    (frame <$> doc_heap d' !! 1%positive)
      = Some (set_height (totalHeight 100 fs) (mkRect 7 8 100 600)).
Proof.
  apply (sortByHue_lays_out_by_hue 1%positive (mkDocument narrowArtboard [1%positive] [])
           (mkLayer MSArtboardGroup "Artboard" (mkRect 7 8 100 600) [] [2; 3; 4]%positive None)).
  - reflexivity.
  - reflexivity.
  - apply (bool_decide_unpack _). vm_compute. exact I.
  - intros r Hr. unfold readable, inGamut, channel.
    repeat (apply elem_of_cons in Hr as [-> | Hr];
            [eexists; split; [vm_compute; reflexivity | cbn; repeat split; reflexivity]|]).
    inversion Hr.
  - discriminate.
Defined.
